(** * KAlarm: the alarm dispatch and rescheduling engine of [kalarmapp.cpp]

    A shallow embedding of the application object [KAlarmApp]: the lateness
    policy [maxLateness], the action queue ([processQueue], [scheduleEvent],
    [dcopHandleEvent]), the dispatch engine [handleEvent], [execAlarm],
    [rescheduleAlarm], [cancelAlarm], and the command execution tracker
    ([doShellCommand], [slotCommandExited]).

    The engine is single threaded and callback driven.  Every member function
    becomes a function on the record [KAlarmApp] of the object's fields.  The
    collaborators that are not part of [kalarmapp.cpp] (calendar, daemon,
    message windows, processes, mail, the recurrence engine of [KAEvent]) are
    reached in two ways: every call the engine makes to one of them is
    appended to the field [log], and every answer the engine reads from one
    of them is taken from the record [Env], as a function of that log where
    the answer may depend on what happened before.

    The reader of time intervals on the command line, [convInterval], is
    embedded as a function on strings, with [QByteArray::toUInt] as a
    parameter, together with the two places of [newInstance] that read
    [--late-cancel] and [--reminder] through it. *)

From Stdlib Require Import ZArith List String Ascii Bool Lia.
Import ListNotations.
Local Open Scope Z_scope.

(** ** Machine integers

    [int] is 32 bits wide on every platform KAlarm builds for.  The
    arithmetic of the source is written with its two's-complement
    wrap-around. *)
Module Int.

Definition min_int : Z := -2147483648.
Definition max_int : Z := 2147483647.

Definition in_range (z : Z) : Prop := min_int <= z <= max_int.

Definition wrap (z : Z) : Z := (z + 2147483648) mod 4294967296 - 2147483648.

Definition add (a b : Z) : Z := wrap (a + b).
Definition sub (a b : Z) : Z := wrap (a - b).
Definition mul (a b : Z) : Z := wrap (a * b).
Definition neg (a : Z) : Z := wrap (- a).
(** C++ integer division truncates toward zero. *)
Definition div (a b : Z) : Z := wrap (Z.quot a b).

End Int.

(** ** Data model *)

(** [KAlarmApp::EventFunc]. *)
Inductive EventFunc : Set := EVENT_HANDLE | EVENT_TRIGGER | EVENT_CANCEL.

(** [KAAlarm::Action]; [AUDIO] stands for the kinds that the [switch] of
    [execAlarm] leaves to its [default]. *)
Inductive Action : Set := MESSAGE | FILE | COMMAND | EMAIL | AUDIO.

(** Modelled from the spec: the type tag of an alarm instance
    ([alarmevent.h] is not among the sources).  The spec names MAIN,
    REMINDER, DEFERRED and AT_LOGIN, fetched in this order;
    [INVALID_ALARM] is the tag of a default constructed [KAAlarm()]. *)
Inductive AlarmType : Set :=
  INVALID_ALARM | MAIN_ALARM | REMINDER_ALARM | DEFERRED_ALARM | AT_LOGIN_ALARM.

Definition AlarmType_eqb (a b : AlarmType) : bool :=
  match a, b with
  | INVALID_ALARM, INVALID_ALARM | MAIN_ALARM, MAIN_ALARM
  | REMINDER_ALARM, REMINDER_ALARM | DEFERRED_ALARM, DEFERRED_ALARM
  | AT_LOGIN_ALARM, AT_LOGIN_ALARM => true
  | _, _ => false
  end.

(** [KDateTime] and KAlarm's [DateTime] wrapper are library classes.  A
    date-time is an instant in whole seconds (for a date-only value, the
    instant at which its day starts), and the flags the engine reads. *)
Record KDateTime : Set := mkDateTime
  { dt_secs : Z;
    dt_dateOnly : bool;      (* isDateOnly() *)
    dt_clockTime : bool;     (* timeSpec() == KDateTime::ClockTime *)
    dt_valid : bool }.       (* isValid() *)

Definition invalidDateTime : KDateTime := mkDateTime 0 false false false.

(** [a.secsTo(b)] answers an [int]: the seconds from [a] to [b], in 32
    bits. *)
Definition secsTo (a b : KDateTime) : Z := Int.wrap (dt_secs b - dt_secs a).
Definition addSecs (a : KDateTime) (n : Z) : KDateTime :=
  mkDateTime (dt_secs a + n) (dt_dateOnly a) (dt_clockTime a) (dt_valid a).
Definition addDays (a : KDateTime) (n : Z) : KDateTime := addSecs a (n * 86400).
(** [limit.setDate(next.date().addDays(n))]: the day of [next] moved on by
    [n] days, the time of day of [limit] kept. *)
Definition setDateFrom (limit next : KDateTime) (n : Z) : KDateTime :=
  mkDateTime ((dt_secs next / 86400 + n) * 86400 + dt_secs limit mod 86400)
             (dt_dateOnly limit) (dt_clockTime limit) (dt_valid limit).
(** [setTime(QTime(hour, minute, 0))]: round down to the minute. *)
Definition roundToMinute (a : KDateTime) : KDateTime :=
  mkDateTime (dt_secs a - dt_secs a mod 60) (dt_dateOnly a) (dt_clockTime a) (dt_valid a).
Definition dt_ltb (a b : KDateTime) : bool := dt_secs a <? dt_secs b.
Definition dt_leb (a b : KDateTime) : bool := dt_secs a <=? dt_secs b.

(** Modelled from the spec: an alarm instance ([KAAlarm], declared in
    [alarmevent.h], which is not among the sources): a type tag, a concrete
    date-time, and the payload inherited from its event, of which the engine
    reads the action kind and the late-cancel threshold in minutes. *)
Record KAAlarm : Set := mkAlarm
  { al_type : AlarmType;
    al_dateTime : KDateTime;
    al_lateCancel : Z;
    al_action : Action }.

(** [KAAlarm()]. *)
Definition invalidAlarm : KAAlarm := mkAlarm INVALID_ALARM invalidDateTime 0 MESSAGE.

(** Modelled from the spec: [valid()], [deferred()], [reminder()] and
    [repeatAtLogin()] of [KAAlarm] ([alarmevent.h] is not among the
    sources) read the type tag of the instance. *)
Definition al_valid (a : KAAlarm) : bool := negb (AlarmType_eqb (al_type a) INVALID_ALARM).
Definition al_deferred (a : KAAlarm) : bool := AlarmType_eqb (al_type a) DEFERRED_ALARM.
Definition al_reminder (a : KAAlarm) : bool := AlarmType_eqb (al_type a) REMINDER_ALARM.
Definition al_repeatAtLogin (a : KAAlarm) : bool := AlarmType_eqb (al_type a) AT_LOGIN_ALARM.

(** Modelled from the spec: [KAAlarm::setTime] ([alarmevent.h] is not among
    the sources) replaces the date-time of the instance. *)
Definition al_setTime (a : KAAlarm) (dt : KDateTime) : KAAlarm :=
  mkAlarm (al_type a) dt (al_lateCancel a) (al_action a).

(** Modelled from the spec: an event ([KAEvent], declared in
    [alarmevent.h], which is not among the sources): its identity, the alarm
    instances it owns, and the attributes that [kalarmapp.cpp] reads or
    sets. *)
Record KAEvent : Set := mkEvent
  { ev_id : string;
    ev_alarms : list KAAlarm;
    ev_repeatCount : Z;            (* repeatCount(): simple repetitions *)
    ev_recurs : bool;              (* recurs() *)
    ev_enabled : bool;
    ev_toBeArchived : bool;        (* set by setArchive() *)
    ev_displaying : bool;
    ev_updated : bool;             (* set by setUpdated() *)
    ev_cancelledDeferral : bool;   (* cleared by cancelCancelledDeferral() *)
    ev_preAction : string;
    ev_postAction : string;
    ev_logFile : string;
    ev_cleanText : string;
    ev_commandScript : bool;
    ev_commandXterm : bool }.

Definition emptyEvent : KAEvent :=
  mkEvent EmptyString [] 0 false true false false false false
          EmptyString EmptyString EmptyString EmptyString false false.

Definition ev_withAlarms (e : KAEvent) (l : list KAAlarm) : KAEvent :=
  mkEvent (ev_id e) l (ev_repeatCount e) (ev_recurs e) (ev_enabled e)
          (ev_toBeArchived e) (ev_displaying e) (ev_updated e) (ev_cancelledDeferral e)
          (ev_preAction e) (ev_postAction e) (ev_logFile e) (ev_cleanText e)
          (ev_commandScript e) (ev_commandXterm e).

(** Modelled from the spec: [setArchive()], [setUpdated()] and
    [cancelCancelledDeferral()] of [KAEvent] ([alarmevent.h] is not among the
    sources) set the archive flag, set the updated flag and clear the
    cancelled-deferral marker. *)
Definition setArchive (e : KAEvent) : KAEvent :=
  mkEvent (ev_id e) (ev_alarms e) (ev_repeatCount e) (ev_recurs e) (ev_enabled e)
          true (ev_displaying e) (ev_updated e) (ev_cancelledDeferral e)
          (ev_preAction e) (ev_postAction e) (ev_logFile e) (ev_cleanText e)
          (ev_commandScript e) (ev_commandXterm e).

Definition setUpdated (e : KAEvent) : KAEvent :=
  mkEvent (ev_id e) (ev_alarms e) (ev_repeatCount e) (ev_recurs e) (ev_enabled e)
          (ev_toBeArchived e) (ev_displaying e) true (ev_cancelledDeferral e)
          (ev_preAction e) (ev_postAction e) (ev_logFile e) (ev_cleanText e)
          (ev_commandScript e) (ev_commandXterm e).

Definition cancelCancelledDeferral (e : KAEvent) : KAEvent :=
  mkEvent (ev_id e) (ev_alarms e) (ev_repeatCount e) (ev_recurs e) (ev_enabled e)
          (ev_toBeArchived e) (ev_displaying e) (ev_updated e) false
          (ev_preAction e) (ev_postAction e) (ev_logFile e) (ev_cleanText e)
          (ev_commandScript e) (ev_commandXterm e).

(** Modelled from the spec: the alarm instances of an event are fetched in
    the fixed order main, reminder, deferred, at-login ([KAEvent::firstAlarm]
    and [KAEvent::nextAlarm] are in [alarmevent.cpp], which is not among the
    sources).  [nextAlarm] looks the event up again, so it sees what the
    loop body has removed in the meantime. *)
Definition alarmOfType (e : KAEvent) (t : AlarmType) : option KAAlarm :=
  find (fun a => AlarmType_eqb (al_type a) t) (ev_alarms e).

Fixpoint firstOfTypes (e : KAEvent) (ts : list AlarmType) : KAAlarm :=
  match ts with
  | [] => invalidAlarm
  | t :: ts' => match alarmOfType e t with
                | Some a => a
                | None => firstOfTypes e ts'
                end
  end.

Definition typesAfter (t : AlarmType) : list AlarmType :=
  match t with
  | INVALID_ALARM => []
  | MAIN_ALARM => [REMINDER_ALARM; DEFERRED_ALARM; AT_LOGIN_ALARM]
  | REMINDER_ALARM => [DEFERRED_ALARM; AT_LOGIN_ALARM]
  | DEFERRED_ALARM => [AT_LOGIN_ALARM]
  | AT_LOGIN_ALARM => []
  end.

(** Modelled from the spec: [KAEvent::firstAlarm()] ([alarmevent.cpp] is
    not among the sources): the main alarm is fetched before any other. *)
Definition firstAlarm (e : KAEvent) : KAAlarm :=
  firstOfTypes e [MAIN_ALARM; REMINDER_ALARM; DEFERRED_ALARM; AT_LOGIN_ALARM].

(** Modelled from the spec: [KAEvent::nextAlarm(alarm)] ([alarmevent.cpp]
    is not among the sources): the first instance of a later type, or an
    invalid alarm. *)
Definition nextAlarm (e : KAEvent) (prev : KAAlarm) : KAAlarm :=
  firstOfTypes e (typesAfter (al_type prev)).

(** Modelled from the spec: [KAEvent::alarmCount()] ([alarmevent.h] is not
    among the sources) is the number of alarm instances the event owns. *)
Definition alarmCount (e : KAEvent) : Z := Z.of_nat (List.length (ev_alarms e)).

(** Modelled from the spec: [KAEvent::removeExpiredAlarm(type)]
    ([alarmevent.cpp] is not among the sources) removes the alarm instance
    of that type. *)
Definition removeExpiredAlarm (e : KAEvent) (t : AlarmType) : KAEvent :=
  ev_withAlarms e (filter (fun a => negb (AlarmType_eqb (al_type a) t)) (ev_alarms e)).

(** Modelled from the spec: [KAEvent::deferred()] ([alarmevent.h] is not
    among the sources) tells whether the event owns a deferred instance. *)
Definition ev_deferred (e : KAEvent) : bool :=
  existsb al_deferred (ev_alarms e).

(** Modelled from the spec: advancing the recurrence moves the main alarm
    instance to the next occurrence ([KAEvent::setNextOccurrence] is in
    [alarmevent.cpp], which is not among the sources; the occurrence itself
    comes from the recurrence engine, see [Env]). *)
Definition setMainTime (e : KAEvent) (dt : KDateTime) : KAEvent :=
  ev_withAlarms e
    (map (fun a => if AlarmType_eqb (al_type a) MAIN_ALARM then al_setTime a dt else a)
         (ev_alarms e)).

(** Modelled from the spec: [KAEvent::OccurType], a tagged variant that may
    carry the is-repeat modifier [OCCURRENCE_REPEAT] ([alarmevent.h] is not
    among the sources).  [type & ~OCCURRENCE_REPEAT] is [oc_base],
    [type & OCCURRENCE_REPEAT] is [oc_repeat]. *)
Inductive Occurrence : Set :=
  | NO_OCCURRENCE | FIRST_OR_ONLY_OCCURRENCE | RECURRENCE_DATE
  | RECURRENCE_DATE_TIME | LAST_RECURRENCE.

Record OccurType : Set := mkOccur { oc_base : Occurrence; oc_repeat : bool }.

(** [type == KAEvent::LAST_RECURRENCE] and the like: the plain tag, without
    the modifier. *)
Definition oc_is (t : OccurType) (o : Occurrence) : bool :=
  negb (oc_repeat t) &&
  match oc_base t, o with
  | NO_OCCURRENCE, NO_OCCURRENCE
  | FIRST_OR_ONLY_OCCURRENCE, FIRST_OR_ONLY_OCCURRENCE
  | RECURRENCE_DATE, RECURRENCE_DATE
  | RECURRENCE_DATE_TIME, RECURRENCE_DATE_TIME
  | LAST_RECURRENCE, LAST_RECURRENCE => true
  | _, _ => false
  end.

(** ** The command execution tracker's records *)

(** Modelled from the spec: the flag bits of a command execution record
    ([ProcData], declared in [kalarmapp.h], which is not among the sources):
    is-pre-action, is-post-action, reschedule-after, allow-defer,
    uses-temp-file and run-in-terminal, each a bit of its own. *)
Module ProcData_flags.
Definition PRE_ACTION : Z := 1.
Definition POST_ACTION : Z := 2.
Definition RESCHEDULE : Z := 4.
Definition ALLOW_DEFER : Z := 8.
Definition TEMP_FILE : Z := 16.
Definition EXEC_IN_XTERM : Z := 32.
End ProcData_flags.
Import ProcData_flags.

(** [flags & BIT], read as a condition. *)
Definition hasFlag (flags bit : Z) : bool := negb (Z.land flags bit =? 0).

(** [KProcess::Communication], as far as it is used. *)
Inductive Communication : Set := NoCommunication | Stdin | AllOutput.

(** A [ShellProcess*]: the identity of the process object and the command
    line it was constructed with ([proc->command()]). *)
Record ShellProcess : Set := mkShellProcess
  { sp_id : nat;
    sp_command : string }.

(** [KAlarmApp::ProcData]. *)
Record ProcData : Set := mkProcData
  { pd_process : ShellProcess;
    pd_logProcess : option nat;         (* QPointer<ShellProcess> *)
    pd_event : KAEvent;                 (* owned copy *)
    pd_alarm : option KAAlarm;          (* owned copy, or 0 *)
    pd_messageBoxParent : option nat;
    pd_flags : Z;
    pd_tempFiles : list string }.

Definition pd_preAction (pd : ProcData) : bool := hasFlag (pd_flags pd) PRE_ACTION.
Definition pd_postAction (pd : ProcData) : bool := hasFlag (pd_flags pd) POST_ACTION.
Definition pd_reschedule (pd : ProcData) : bool := hasFlag (pd_flags pd) RESCHEDULE.
Definition pd_allowDefer (pd : ProcData) : bool := hasFlag (pd_flags pd) ALLOW_DEFER.
Definition pd_tempFile (pd : ProcData) : bool := hasFlag (pd_flags pd) TEMP_FILE.

Definition pd_withParent (pd : ProcData) (w : option nat) : ProcData :=
  mkProcData (pd_process pd) (pd_logProcess pd) (pd_event pd) (pd_alarm pd)
             w (pd_flags pd) (pd_tempFiles pd).

Definition pd_withLogProcess (pd : ProcData) (l : option nat) : ProcData :=
  mkProcData (pd_process pd) l (pd_event pd) (pd_alarm pd)
             (pd_messageBoxParent pd) (pd_flags pd) (pd_tempFiles pd).

(** ** The action queue's entries

    [DcopQEntry(event, function)] carries a new event and an empty id,
    [DcopQEntry(function, eventID)] an id and no event. *)
Record DcopQEntry : Set := mkEntry
  { q_function : EventFunc;
    q_eventId : string;
    q_event : KAEvent }.

Definition DcopQEntry_event (event : KAEvent) (function : EventFunc) : DcopQEntry :=
  mkEntry function EmptyString event.
Definition DcopQEntry_id (function : EventFunc) (eventID : string) : DcopQEntry :=
  mkEntry function eventID emptyEvent.

(** What [execAlarm] reads of a message window found for an event. *)
Record MessageWin : Set := mkWin
  { mw_hasDefer : bool;
    mw_alarmType : AlarmType }.

(** ** Calls to the collaborators

    One constructor for each call that leaves [kalarmapp.cpp].  [Exec_alarm]
    is not such a call: it marks every entry into [execAlarm] with its
    arguments, so that one can tell how often and how it was invoked. *)
Inductive Effect : Set :=
  | Daemon_eventHandled (id : string)
  | KAlarm_resetDaemonIfQueued
  | KAlarm_addEvent (e : KAEvent)
  | KAlarm_addArchivedEvent (e : KAEvent)
  | KAlarm_updateEvent (e : KAEvent)
  | KAlarm_deleteEvent (e : KAEvent) (archive : bool)
  | Calendar_purgeIfQueued
  | AlarmListView_modifyEvent (e : KAEvent)
  | MessageWin_show (e : KAEvent) (a : KAAlarm) (flags : Z)
  | MessageWin_showError (e : KAEvent) (dt : KDateTime) (errmsgs : list string)
  | MessageWin_delete (id : string) (recreating : bool)
  | MessageWin_repeat (id : string) (a : KAAlarm)
  | KMessageBox_closeInfo (parent : nat)
  | KMessageBox_error (parent : nat) (errmsg : string)
  | KAMail_send (e : KAEvent) (allowNotify : bool)
  | TempFile_create (path content : string)
  | File_remove (path : string)
  | Process_start (p : nat) (cmd : string) (comms : Communication) (started : bool)
  | Process_writeStdin (p : nat) (data : string)
  | Process_stdinExit (p : nat)
  | Process_delete (p : nat)
  | Timer_processQueue
  | Daemon_createDcopHandler
  | Exec_alarm (e : KAEvent) (a : KAAlarm) (reschedule allowDefer noPreAction : bool)
  | Exit (code : Z).

(** The parameters of [scheduleEvent] that its body inspects; colours, font,
    volume, the recurrence and the mail fields are passed on to [KAEvent]
    untouched and stay inside [Env]. *)
Record ScheduleArgs : Set := mkScheduleArgs
  { sa_dateTime : KDateTime;
    sa_lateCancel : Z;
    sa_reminderMinutes : Z;
    sa_hasAudioFile : bool;          (* !audioFile.isEmpty() *)
    sa_hasMailAddresses : bool;      (* !mailAddresses.isEmpty() *)
    sa_repeatInterval : Z;
    sa_repeatCount : Z }.

(** ** The collaborators' answers

    Everything [kalarmapp.cpp] reads from code that is not among the
    sources.  An answer that can change while the engine runs is a function
    of the calls made so far. *)
Record Env : Type := mkEnv
  { (* Daemon::maxTimeSinceCheck() *)
    maxTimeSinceCheck : Z;
    (* AlarmCalendar::resources()->event(id) *)
    calendar_event : list Effect -> string -> option KAEvent;
    (* MessageWin::findEvent(id), MessageWin::NO_RESCHEDULE, MessageWin::NO_DEFER *)
    MessageWin_findEvent : list Effect -> string -> option MessageWin;
    NO_RESCHEDULE : Z;
    NO_DEFER : Z;
    (* ShellProcess::authorised(), ShellProcess::shellPath(), proc->start(comms) *)
    ShellProcess_authorised : bool;
    ShellProcess_shellPath : string;
    ShellProcess_start : list Effect -> string -> Communication -> bool;
    (* proc->errorMessage() of a process that did not start *)
    ShellProcess_errorMessage : list Effect -> ShellProcess -> string;
    (* KShellProcess::quote *)
    KShellProcess_quote : string -> string;
    (* KTemporaryFile: the name of the file written, or none on an error *)
    KTemporaryFile_write : list Effect -> string -> option string;
    (* KAMail::send(event, errmsgs, allowNotify): its result and errmsgs *)
    KAMail_send_result : list Effect -> KAEvent -> bool -> bool * list string;
    (* Preferences::cmdXTermCommand(), aboutData()->programName() *)
    cmdXTermCommand : string;
    programName : string;
    (* DateTime::formatLocale() *)
    formatLocale : KDateTime -> string;
    (* dt > now.toTimeSpec(KDateTime::ClockTime), for a clock time dt *)
    laterThanClockTime : KDateTime -> KDateTime -> bool;
    (* KAEvent::previousOccurrence(dt, result, includeRepetitions) *)
    previousOccurrence : KAEvent -> KDateTime -> bool -> OccurType * KDateTime;
    (* KAEvent::setNextOccurrence(dt, includeRepetitions): the kind of
       occurrence and the date-time the main alarm has afterwards *)
    nextOccurrence : KAEvent -> KDateTime -> bool -> OccurType * KDateTime;
    (* KAEvent::mainEndRepeatTime() *)
    mainEndRepeatTime : KAEvent -> KDateTime;
    (* the default arguments that kalarmapp.h declares for execAlarm *)
    default_allowDefer : bool;
    default_noPreAction : bool;
    (* the window conditions of quitIf(): an "instance" is active, a message
       window or a visible main window is open, or the system tray holds
       the icon *)
    windowsKeepRunning : list Effect -> bool;
    (* KAEvent's constructor and setters, as scheduleEvent calls them *)
    KAEvent_new : ScheduleArgs -> KDateTime -> KAEvent;
    setReminder : KAEvent -> Z -> bool -> KAEvent;
    setAudioFile : KAEvent -> ScheduleArgs -> KAEvent;
    setEmail : KAEvent -> ScheduleArgs -> KAEvent;
    setRecurrence : KAEvent -> ScheduleArgs -> KAEvent;
    setFirstRecurrence : KAEvent -> KAEvent;
    setRepetition : KAEvent -> Z -> Z -> KAEvent }.

(** ** The application object *)
Record KAlarmApp : Type := mkApp
  { mInitialised : bool;
    mProcessingQueue : bool;
    mPendingQuit : bool;
    mPendingQuitCode : Z;
    mDcopQueue : list DcopQEntry;
    mCommandProcesses : list ProcData;
    processCount : nat;      (* the next [new ShellProcess] *)
    clock : KDateTime;       (* KDateTime::currentUtcDateTime() *)
    exited : bool;           (* exit() has been called *)
    log : list Effect }.

Definition emit (x : Effect) (app : KAlarmApp) : KAlarmApp :=
  mkApp (mInitialised app) (mProcessingQueue app) (mPendingQuit app) (mPendingQuitCode app)
        (mDcopQueue app) (mCommandProcesses app) (processCount app) (clock app)
        (exited app) (log app ++ [x]).

Definition emits (xs : list Effect) (app : KAlarmApp) : KAlarmApp :=
  fold_left (fun a x => emit x a) xs app.

Definition set_mInitialised (b : bool) (app : KAlarmApp) : KAlarmApp :=
  mkApp b (mProcessingQueue app) (mPendingQuit app) (mPendingQuitCode app)
        (mDcopQueue app) (mCommandProcesses app) (processCount app) (clock app)
        (exited app) (log app).

Definition set_mProcessingQueue (b : bool) (app : KAlarmApp) : KAlarmApp :=
  mkApp (mInitialised app) b (mPendingQuit app) (mPendingQuitCode app)
        (mDcopQueue app) (mCommandProcesses app) (processCount app) (clock app)
        (exited app) (log app).

Definition set_mPendingQuit (b : bool) (code : Z) (app : KAlarmApp) : KAlarmApp :=
  mkApp (mInitialised app) (mProcessingQueue app) b code
        (mDcopQueue app) (mCommandProcesses app) (processCount app) (clock app)
        (exited app) (log app).

Definition set_mDcopQueue (q : list DcopQEntry) (app : KAlarmApp) : KAlarmApp :=
  mkApp (mInitialised app) (mProcessingQueue app) (mPendingQuit app) (mPendingQuitCode app)
        q (mCommandProcesses app) (processCount app) (clock app)
        (exited app) (log app).

Definition set_mCommandProcesses (l : list ProcData) (app : KAlarmApp) : KAlarmApp :=
  mkApp (mInitialised app) (mProcessingQueue app) (mPendingQuit app) (mPendingQuitCode app)
        (mDcopQueue app) l (processCount app) (clock app)
        (exited app) (log app).

Definition set_exited (app : KAlarmApp) : KAlarmApp :=
  mkApp (mInitialised app) (mProcessingQueue app) (mPendingQuit app) (mPendingQuitCode app)
        (mDcopQueue app) (mCommandProcesses app) (processCount app) (clock app)
        true (log app).

(** [new ShellProcess(cmd)]. *)
Definition newShellProcess (cmd : string) (app : KAlarmApp) : ShellProcess * KAlarmApp :=
  (mkShellProcess (processCount app) cmd,
   mkApp (mInitialised app) (mProcessingQueue app) (mPendingQuit app) (mPendingQuitCode app)
         (mDcopQueue app) (mCommandProcesses app) (S (processCount app)) (clock app)
         (exited app) (log app)).

(** ** Strings *)

Definition nl : string := String (ascii_of_nat 10) EmptyString.

Definition isEmpty (s : string) : bool :=
  match s with EmptyString => true | _ => false end.

(** [s.indexOf(pat) >= 0]. *)
Definition contains (pat s : string) : bool :=
  match String.index 0 pat s with Some _ => true | None => false end.

(** [s.replace(pat, by)]: every occurrence, left to right. *)
Fixpoint replaceFrom (pat by_ : string) (skip : nat) (s : string) : string :=
  match s with
  | EmptyString => EmptyString
  | String c s' =>
      match skip with
      | S k => replaceFrom pat by_ k s'
      | O => if String.prefix pat s
             then String.append by_ (replaceFrom pat by_ (String.length pat - 1) s')
             else String c (replaceFrom pat by_ 0 s')
      end
  end.

Definition replace (pat by_ s : string) : string := replaceFrom pat by_ 0 s.

Definition isNil {A : Type} (l : list A) : bool :=
  match l with [] => true | _ => false end.

(** [list.removeAt(i)]. *)
Definition removeAt {A : Type} (i : nat) (l : list A) : list A :=
  firstn i l ++ skipn (S i) l.

(** The index and the record of the first entry of the tracker whose
    process is [proc]: the [for] loops over [mCommandProcesses]. *)
Fixpoint findProcess (proc : nat) (i : nat) (l : list ProcData) : option (nat * ProcData) :=
  match l with
  | [] => None
  | pd :: l' => if Nat.eqb (sp_id (pd_process pd)) proc then Some (i, pd)
                else findProcess proc (S i) l'
  end.

(** What [execAlarm] returns, a pointer to [void]: null, the non-null
    dummy 1, or the [ShellProcess] of a command alarm. *)
Inductive ExecResult : Set :=
  | Exec_null
  | Exec_done
  | Exec_process (p : ShellProcess).

(** The local variables of the alarm loop of [handleEvent], with the event
    and the application object that the loop body updates. *)
Record Scan : Type := mkScan
  { sc_event : KAEvent;
    sc_repeatDT : KDateTime;
    sc_updateCalAndDisplay : bool;
    sc_alarmToExecuteValid : bool;
    sc_alarmToExecute : KAAlarm;
    sc_app : KAlarmApp }.

Definition LATENESS_LEEWAY : Z := 5.

(** An event owns at most four alarm instances that [nextAlarm] can reach,
    one of each type: the bound on the iterations of the alarm loop. *)
Definition alarmLoopBound : nat := 4.

Section Engine.

Variable env : Env.

(** ** Lateness policy *)

Definition maxLateness (lateCancel : Z) : Z :=
  let lc := if 1 <=? lateCancel then Int.mul (Int.sub lateCancel 1) 60 else 0 in
  Int.add (Int.add (maxTimeSinceCheck env) LATENESS_LEEWAY) lc.

(** ** Quitting

    [quitIf(exitCode)], with [force] at its default [false], which is how
    [processQueue] and [slotCommandExited] call it.  [exit(exitCode)] is
    [QCoreApplication::exit]: it tells the event loop to end and returns
    to the caller. *)
Definition quitIf (exitCode : Z) (app : KAlarmApp) : KAlarmApp :=
  let app := set_mPendingQuit false (mPendingQuitCode app) app in
  if windowsKeepRunning env (log app) then app
  else if negb (isNil (mDcopQueue app)) || negb (isNil (mCommandProcesses app))
  then set_mPendingQuit true exitCode app
  else set_exited (emit (Exit exitCode) app).

(** ** Rescheduler and canceller *)

Definition cancelAlarm (event : KAEvent) (alarmType : AlarmType)
           (updateCalAndDisplay : bool) (app : KAlarmApp) : KAEvent * KAlarmApp :=
  let event := cancelCancelledDeferral event in
  let app :=
    if AlarmType_eqb alarmType MAIN_ALARM && negb (ev_displaying event)
       && ev_toBeArchived event
    then emit (KAlarm_addArchivedEvent event) app   (* the event keeps its id *)
    else app in
  let event := removeExpiredAlarm event alarmType in
  if alarmCount event =? 0 then (event, emit (KAlarm_deleteEvent event false) app)
  else if updateCalAndDisplay then (event, emit (KAlarm_updateEvent event) app)
  else (event, app).

Definition rescheduleAlarm (event : KAEvent) (alarm : KAAlarm)
           (updateCalAndDisplay : bool) (app : KAlarmApp) : KAEvent * KAlarmApp :=
  let '(event, app, update, updateDisplay) :=
    if al_reminder alarm || al_deferred alarm then
      (removeExpiredAlarm event (al_type alarm), app, true, false)
    else if al_repeatAtLogin alarm then
      (event, app, updateCalAndDisplay && ev_updated event, false)
    else
      let now := clock app in
      let '(event, app, update, updateDisplay) :=
        if negb (ev_repeatCount event =? 0) && dt_ltb now (mainEndRepeatTime env event)
        then (event, app, false, true)
        else
          let '(type, dt) := nextOccurrence env event now false in
          let event := setMainTime event dt in
          if oc_repeat type then (event, app, false, false)
          else match oc_base type with
               | NO_OCCURRENCE =>
                   let '(event, app) :=
                     cancelAlarm event (al_type alarm) updateCalAndDisplay app in
                   (event, app, false, false)
               | RECURRENCE_DATE | RECURRENCE_DATE_TIME | LAST_RECURRENCE =>
                   if updateCalAndDisplay then (event, app, true, false)
                   else (setUpdated (cancelCancelledDeferral event), app, false, false)
               | FIRST_OR_ONLY_OCCURRENCE => (event, app, false, false)
               end in
      if ev_deferred event
      then (removeExpiredAlarm event DEFERRED_ALARM, app, true, updateDisplay)
      else (event, app, update, updateDisplay) in
  if update then
    let event := cancelCancelledDeferral event in
    (event, emit (KAlarm_updateEvent event) app)
  else if updateDisplay then
    (event, emit (AlarmListView_modifyEvent event)
                 (emit (Daemon_eventHandled (ev_id event)) app))
  else (event, app).

(** ** Command execution tracker *)

(** [delete pd]: the destructor removes the temporary files and deletes
    the process. *)
Definition deleteProcData (pd : ProcData) (app : KAlarmApp) : KAlarmApp :=
  emit (Process_delete (sp_id (pd_process pd)))
       (emits (map File_remove (pd_tempFiles pd)) app).

Definition commandErrorMsg (errorMessage : string) (proc : ShellProcess)
           (event : KAEvent) (alarm : option KAAlarm) (flags : Z)
           (app : KAlarmApp) : KAlarmApp :=
  let errmsgs :=
    (if hasFlag flags PRE_ACTION then ["Pre-alarm action:"%string]
     else if hasFlag flags POST_ACTION then ["Post-alarm action:"%string]
     else [])
    ++ [errorMessage]
    ++ (if negb (hasFlag flags TEMP_FILE) then [sp_command proc] else []) in
  emit (MessageWin_showError event
          (match alarm with Some a => al_dateTime a | None => invalidDateTime end)
          errmsgs) app.

Definition createTempScriptFile (command : string) (insertShell : bool)
           (event : KAEvent) (alarm : KAAlarm) (app : KAlarmApp) : string * KAlarmApp :=
  let content :=
    String.append
      (if insertShell
       then String.append "#!" (String.append (ShellProcess_shellPath env) nl)
       else EmptyString)
      command in
  match KTemporaryFile_write env (log app) content with
  | Some fileName => (fileName, emit (TempFile_create fileName content) app)
  | None =>
      (EmptyString,
       emit (MessageWin_showError event (al_dateTime alarm)
               ["Error creating temporary script file"%string]) app)
  end.

(** The command line, the communication mode and the temporary file of
    the terminal window, or nothing when that file could not be written.
    Where the source dereferences [alarm], the engine has passed one. *)
Definition xtermCommand (command : string) (event : KAEvent) (alarm : option KAAlarm)
           (flags : Z) (app : KAlarmApp)
  : option (string * Communication * string) * KAlarmApp :=
  let alarm_ := match alarm with Some a => a | None => invalidAlarm end in
  if hasFlag flags EXEC_IN_XTERM then
    let cmd := replace "%t" (programName env) (cmdXTermCommand env) in
    if contains "%C" cmd then
      if hasFlag flags TEMP_FILE
      then (Some (replace "%C" command cmd, NoCommunication, EmptyString), app)
      else
        let '(tmpXtermFile, app) := createTempScriptFile command true event alarm_ app in
        if isEmpty tmpXtermFile then (None, app)
        else (Some (replace "%C" tmpXtermFile cmd, NoCommunication, tmpXtermFile), app)
    else if contains "%W" cmd then
      let '(tmpXtermFile, app) :=
        createTempScriptFile
          (String.append command (String.append nl (String.append "sleep 86400" nl)))
          true event alarm_ app in
      if isEmpty tmpXtermFile then (None, app)
      else (Some (replace "%W" tmpXtermFile cmd, NoCommunication, tmpXtermFile), app)
    else if contains "%w" cmd then
      let exec := KShellProcess_quote env (String.append command "; sleep 86400") in
      (Some (replace "%w" exec cmd, NoCommunication, EmptyString), app)
    else
      let exec := KShellProcess_quote env command in
      if contains "%c" cmd
      then (Some (replace "%c" exec cmd, NoCommunication, EmptyString), app)
      else (Some (String.append cmd exec, NoCommunication, EmptyString), app)
  else (Some (command, AllOutput, EmptyString), app).

(** The logging process of [doShellCommand]: output is to be appended to
    a log file. *)
Definition startLogProcess (event : KAEvent) (alarm : option KAAlarm)
           (comms : Communication) (app : KAlarmApp) : option nat * KAlarmApp :=
  match comms with
  | AllOutput =>
      if negb (isEmpty (ev_logFile event)) then
        let '(logproc, app) :=
          newShellProcess (String.append "cat >>" (ev_logFile event)) app in
        let app :=
          emit (Process_start (sp_id logproc) (sp_command logproc) Stdin
                  (ShellProcess_start env (log app) (sp_command logproc) Stdin)) app in
        let heading :=
          match alarm with
          | Some a =>
              if dt_valid (al_dateTime a) then
                String.append nl
                  (String.append "******* KAlarm "
                     (String.append (formatLocale env (al_dateTime a))
                        (String.append " *******" nl)))
              else String.append nl (String.append "******* KAlarm *******" nl)
          | None => String.append nl (String.append "******* KAlarm *******" nl)
          end in
        (Some (sp_id logproc), emit (Process_writeStdin (sp_id logproc) heading) app)
      else (None, app)
  | _ => (None, app)
  end.

Definition doShellCommand (command : string) (event : KAEvent) (alarm : option KAAlarm)
           (flags : Z) (app : KAlarmApp) : option ShellProcess * KAlarmApp :=
  match xtermCommand command event alarm flags app with
  | (None, app) => (None, app)
  | (Some (cmd, comms, tmpXtermFile), app) =>
      let '(proc, app) := newShellProcess cmd app in
      let '(logproc, app) := startLogProcess event alarm comms app in
      let pd :=
        mkProcData proc logproc event alarm None flags
          ((if hasFlag flags TEMP_FILE then [command] else [])
           ++ (if negb (isEmpty tmpXtermFile) then [tmpXtermFile] else [])) in
      let app := set_mCommandProcesses (mCommandProcesses app ++ [pd]) app in
      let started := ShellProcess_start env (log app) cmd comms in
      let app := emit (Process_start (sp_id proc) cmd comms started) app in
      if started then (Some proc, app)
      else
        (* Error executing command - report it *)
        let app :=
          commandErrorMsg (ShellProcess_errorMessage env (log app) proc)
                          proc event alarm flags app in
        (* pd is the record appended last *)
        let app := set_mCommandProcesses (removelast (mCommandProcesses app)) app in
        (None, deleteProcData pd app)
  end.

(** ** Execute *)

Definition execAlarm (event : KAEvent) (alarm : KAAlarm)
           (reschedule allowDefer noPreAction : bool) (app : KAlarmApp)
  : ExecResult * KAEvent * KAlarmApp :=
  let app := emit (Exec_alarm event alarm reschedule allowDefer noPreAction) app in
  if negb (ev_enabled event) then
    (* The event is disabled. *)
    if reschedule then
      let '(event, app) := rescheduleAlarm event alarm true app in
      (Exec_null, event, app)
    else (Exec_null, event, app)
  else
    let event := setArchive event in
    match al_action alarm with
    | MESSAGE | FILE =>
        let win := MessageWin_findEvent env (log app) (ev_id event) in
        let '(launched, app) :=
          match win with
          | None =>
              if negb noPreAction && negb (isEmpty (ev_preAction event))
                 && ShellProcess_authorised env
              then
                let flags := Z.lor (if reschedule then RESCHEDULE else 0)
                                   (if allowDefer then ALLOW_DEFER else 0) in
                let '(proc, app) :=
                  doShellCommand (ev_preAction event) event (Some alarm)
                                 (Z.lor flags PRE_ACTION) app in
                (match proc with Some _ => true | None => false end, app)
              else (false, app)
          | Some _ => (false, app)
          end in
        if launched then (Exec_done, event, app)
        else if negb (ev_enabled event) then
          match win with
          | Some _ => (Exec_done, event, emit (MessageWin_delete (ev_id event) false) app)
          | None => (Exec_done, event, app)
          end
        else
          let replace_ :=
            match win with
            | None => true
            | Some w => negb (mw_hasDefer w) && negb (al_repeatAtLogin alarm)
                        || AlarmType_eqb (mw_alarmType w) REMINDER_ALARM
                           && negb (al_reminder alarm)
            end in
          if replace_ then
            let app :=
              match win with
              | Some _ => emit (MessageWin_delete (ev_id event) true) app
              | None => app
              end in
            let flags := Z.lor (if reschedule then 0 else NO_RESCHEDULE env)
                               (if allowDefer then 0 else NO_DEFER env) in
            (Exec_done, event, emit (MessageWin_show event alarm flags) app)
          else
            (* N.B. this reschedules the alarm *)
            (Exec_done, event, emit (MessageWin_repeat (ev_id event) alarm) app)
    | COMMAND =>
        let flags := if ev_commandXterm event then EXEC_IN_XTERM else 0 in
        let command := ev_cleanText event in
        let '(result, app) :=
          if ev_commandScript event then
            let '(tmpfile, app) := createTempScriptFile command false event alarm app in
            if isEmpty tmpfile then
              (None,
               emit (MessageWin_showError event (al_dateTime alarm)
                       ["Error creating temporary script file"%string]) app)
            else doShellCommand tmpfile event (Some alarm) (Z.lor flags TEMP_FILE) app
          else doShellCommand command event (Some alarm) flags app in
        let result :=
          match result with Some p => Exec_process p | None => Exec_null end in
        if reschedule then
          let '(event, app) := rescheduleAlarm event alarm true app in
          (result, event, app)
        else (result, event, app)
    | EMAIL =>
        let '(sent, errmsgs) :=
          KAMail_send_result env (log app) event (reschedule || allowDefer) in
        let app := emit (KAMail_send event (reschedule || allowDefer)) app in
        let result := if sent then Exec_done else Exec_null in
        let app :=
          if negb (isNil errmsgs)
          then emit (MessageWin_showError event (al_dateTime alarm) errmsgs) app
          else app in
        if reschedule then
          let '(event, app) := rescheduleAlarm event alarm true app in
          (result, event, app)
        else (result, event, app)
    | AUDIO => (Exec_null, event, app)
    end.

Definition alarmCompleted (event : KAEvent) (app : KAlarmApp) : KAlarmApp :=
  if negb (isEmpty (ev_postAction event)) && ShellProcess_authorised env
  then snd (doShellCommand (ev_postAction event) event None POST_ACTION app)
  else app.

(** [slotCommandExited(proc)]: [normalExit] and [errorMessage] are what
    [proc->normalExit()] and [proc->errorMessage()] answer.  A record with
    [PRE_ACTION] set always holds an alarm, see [execAlarm]; the source
    dereferences it unchecked. *)
Definition slotCommandExited (proc : nat) (normalExit : bool) (errorMessage : string)
           (app : KAlarmApp) : KAlarmApp :=
  let app :=
    match findProcess proc 0 (mCommandProcesses app) with
    | None => app
    | Some (i, pd) =>
        let app :=
          match pd_logProcess pd with
          | Some lp => emit (Process_stdinExit lp) app
          | None => app
          end in
        let app :=
          if negb normalExit then
            match pd_messageBoxParent pd with
            | Some parent =>
                let app := emit (KMessageBox_closeInfo parent) app in
                let errmsg :=
                  if negb (pd_tempFile pd)
                  then String.append errorMessage
                         (String.append nl (sp_command (pd_process pd)))
                  else errorMessage in
                emit (KMessageBox_error parent errmsg) app
            | None =>
                commandErrorMsg errorMessage (pd_process pd) (pd_event pd)
                                (pd_alarm pd) (pd_flags pd) app
            end
          else app in
        let app :=
          if pd_preAction pd then
            match pd_alarm pd with
            | Some alarm =>
                let '(_, _, app) :=
                  execAlarm (pd_event pd) alarm (pd_reschedule pd) (pd_allowDefer pd)
                            true app in
                app
            | None => app
            end
          else app in
        let app := set_mCommandProcesses (removeAt i (mCommandProcesses app)) app in
        deleteProcData pd app
    end in
  if mPendingQuit app && isNil (mCommandProcesses app)
  then quitIf (mPendingQuitCode app) app
  else app.

(** [slotCommandOutput(proc, buffer, bufflen)]: the first record of the
    tracker that runs [proc] and has a logging process. *)
Definition slotCommandOutput (proc : nat) (buffer : string) (app : KAlarmApp) : KAlarmApp :=
  match find (fun pd => Nat.eqb (sp_id (pd_process pd)) proc
                        && match pd_logProcess pd with Some _ => true | None => false end)
             (mCommandProcesses app) with
  | Some pd =>
      match pd_logProcess pd with
      | Some logproc => emit (Process_writeStdin logproc buffer) app
      | None => app
      end
  | None => app
  end.

(** [slotLogProcExited(proc)]: the process is deleted, and the guarded
    pointers to it become null. *)
Definition slotLogProcExited (proc : nat) (app : KAlarmApp) : KAlarmApp :=
  emit (Process_delete proc)
       (set_mCommandProcesses
          (map (fun pd => match pd_logProcess pd with
                          | Some logproc =>
                              if Nat.eqb logproc proc then pd_withLogProcess pd None else pd
                          | None => pd
                          end)
               (mCommandProcesses app))
          app).

Definition commandMessage (proc : nat) (parent : nat) (app : KAlarmApp) : KAlarmApp :=
  match findProcess proc 0 (mCommandProcesses app) with
  | None => app
  | Some (i, pd) =>
      set_mCommandProcesses
        (firstn i (mCommandProcesses app)
         ++ pd_withParent pd (Some parent) :: skipn (S i) (mCommandProcesses app))
        app
  end.

(** ** Dispatch engine *)

(** The late-cancel test of the alarm loop: the values of [cancel] and
    [late] it leaves. *)
Definition lateCancelCheck (now : KDateTime) (event : KAEvent) (alarm : KAAlarm)
           (secs : Z) : bool * bool :=
  let lastOccurrence (type : OccurType) : bool :=
    oc_is type LAST_RECURRENCE
    || oc_is type FIRST_OR_ONLY_OCCURRENCE && negb (ev_recurs event) in
  if dt_dateOnly (al_dateTime alarm) then
    (* The alarm has no time, so cancel it if its date is too far past *)
    let maxlate := Int.div (al_lateCancel alarm) 1440 in
    let limit := addDays (al_dateTime alarm) (Int.add maxlate 1) in
    if dt_leb limit now then
      let '(type, next) := previousOccurrence env event now true in
      match oc_base type with
      | NO_OCCURRENCE => (false, true)
      | _ =>
          let limit := setDateFrom limit next (Int.add maxlate 1) in
          if dt_leb limit now then
            if lastOccurrence type then (true, false) else (false, true)
          else (false, false)
      end
    else (false, false)
  else
    (* The alarm is timed. *)
    let maxlate := maxLateness (al_lateCancel alarm) in
    if maxlate <? secs then
      let '(type, next) := previousOccurrence env event now true in
      match oc_base type with
      | NO_OCCURRENCE => (false, true)
      | _ =>
          if maxlate <? secsTo next now then
            if lastOccurrence type then (true, false) else (false, true)
          else (false, false)
      end
    else (false, false).

(** The body of the alarm loop; a [continue] returns the state at once. *)
Definition scanAlarm (now : KDateTime) (alarm : KAAlarm) (st : Scan) : Scan :=
  let event := sc_event st in
  let st :=
    if al_deferred alarm && negb (ev_repeatCount event =? 0)
       && dt_valid (sc_repeatDT st) && dt_ltb (sc_repeatDT st) (al_dateTime alarm)
    then mkScan event (sc_repeatDT st) false false invalidAlarm (sc_app st)
    else st in
  (* Check if the alarm is due yet. *)
  let secs := secsTo (al_dateTime alarm) now in
  if (secs <? 0)
     && (negb (dt_clockTime (al_dateTime alarm))
         || laterThanClockTime env (al_dateTime alarm) now)
  then st
  else if al_repeatAtLogin alarm && (secs <? maxLateness 1) then st
  else if al_repeatAtLogin alarm && al_valid (sc_alarmToExecute st) then st
  else
    let alarm := if al_repeatAtLogin alarm then al_setTime alarm now else alarm in
    let '(alarm, secs, repeatDT) :=
      if negb (ev_repeatCount event =? 0) && AlarmType_eqb (al_type alarm) MAIN_ALARM
      then
        let '(type, dt) := previousOccurrence env event (addSecs now 1) true in
        if oc_repeat type then (al_setTime alarm dt, secsTo dt now, dt)
        else (alarm, secs, dt)
      else (alarm, secs, sc_repeatDT st) in
    let '(cancel, late) :=
      if negb (al_lateCancel alarm =? 0)
      then lateCancelCheck now event alarm secs
      else (false, false) in
    if cancel then
      (* All recurrences are finished, so cancel the event *)
      let '(event, app) :=
        cancelAlarm (setArchive event) (al_type alarm) false (sc_app st) in
      mkScan event repeatDT true (sc_alarmToExecuteValid st) (sc_alarmToExecute st) app
    else if late then
      (* The latest repetition was too long ago, so schedule the next one *)
      let '(event, app) := rescheduleAlarm event alarm false (sc_app st) in
      mkScan event repeatDT true (sc_alarmToExecuteValid st) (sc_alarmToExecute st) app
    else if negb (sc_alarmToExecuteValid st) then
      mkScan event repeatDT (sc_updateCalAndDisplay st) true alarm (sc_app st)
    else
      mkScan event repeatDT (sc_updateCalAndDisplay st)
             (sc_alarmToExecuteValid st) (sc_alarmToExecute st) (sc_app st).

(** [for (alarm = event.firstAlarm(); alarm.valid(); alarm = event.nextAlarm(alarm))] *)
Fixpoint scanAlarms (fuel : nat) (now : KDateTime) (alarm : KAAlarm) (st : Scan) : Scan :=
  match fuel with
  | O => st
  | S fuel' =>
      if al_valid alarm then
        let st := scanAlarm now alarm st in
        scanAlarms fuel' now (nextAlarm (sc_event st) alarm) st
      else st
  end.

(** The part of [handleEvent] after the alarm loop: [st] holds what the
    loop has left in the local variables, the event and the application. *)
Definition afterScan (eventID : string) (function : EventFunc) (st : Scan)
  : bool * KAlarmApp :=
  let event := sc_event st in
  let app := sc_app st in
  let alarmToExecute := sc_alarmToExecute st in
  (* If there is an alarm to execute, do this last after rescheduling/cancelling
     any others. *)
  if al_valid alarmToExecute then
    let '(_, _, app) :=
      execAlarm event alarmToExecute true
                (negb (al_repeatAtLogin alarmToExecute))
                (default_noPreAction env) app in
    (true, app)
  else
    let '(event, app) :=
      match function with
      | EVENT_TRIGGER =>
          (* The alarm is to be executed regardless of whether it's due. *)
          let alarm := firstAlarm event in
          if al_valid alarm then
            let '(_, event, app) :=
              execAlarm event alarm false (default_allowDefer env)
                        (default_noPreAction env) app in
            (event, app)
          else (event, app)
      | _ => (event, app)
      end in
    if sc_updateCalAndDisplay st
    then (true, emit (KAlarm_updateEvent event) app)
    else match function with
         | EVENT_TRIGGER => (true, app)
         | _ => (true, emit (Daemon_eventHandled eventID) app)
         end.

Definition handleEvent (eventID : string) (function : EventFunc) (app : KAlarmApp)
  : bool * KAlarmApp :=
  match calendar_event env (log app) eventID with
  | None => (false, emit (Daemon_eventHandled eventID) app)
  | Some event =>
      match function with
      | EVENT_CANCEL => (true, emit (KAlarm_deleteEvent event true) app)
      | _ =>
          let now := clock app in
          afterScan eventID function
            (scanAlarms alarmLoopBound now (firstAlarm event)
                        (mkScan event invalidDateTime false false invalidAlarm app))
      end
  end.

(** ** Action queue *)

Definition dcopHandleEvent (eventID : string) (function : EventFunc) (app : KAlarmApp)
  : bool * KAlarmApp :=
  let app := set_mDcopQueue (mDcopQueue app ++ [DcopQEntry_id function eventID]) app in
  (true, if mInitialised app then emit Timer_processQueue app else app).

(** One turn of the [while] loop of [processQueue], without the
    [dequeue()]. *)
Definition processEntry (entry : DcopQEntry) (app : KAlarmApp) : KAlarmApp :=
  if isEmpty (q_eventId entry) then
    (* It's a new alarm *)
    match q_function entry with
    | EVENT_TRIGGER =>
        let '(_, _, app) :=
          execAlarm (q_event entry) (firstAlarm (q_event entry)) false
                    (default_allowDefer env) (default_noPreAction env) app in
        app
    | EVENT_HANDLE => emit (KAlarm_addEvent (q_event entry)) app
    | EVENT_CANCEL => app
    end
  else snd (handleEvent (q_eventId entry) (q_function entry) app).

(** [while (!mDcopQueue.isEmpty())] *)
Fixpoint drainQueue (fuel : nat) (app : KAlarmApp) : KAlarmApp :=
  match fuel with
  | O => app
  | S fuel' =>
      match mDcopQueue app with
      | [] => app
      | entry :: _ =>
          let app := processEntry entry app in
          drainQueue fuel' (set_mDcopQueue (tl (mDcopQueue app)) app)
      end
  end.

Definition processQueue (app : KAlarmApp) : KAlarmApp :=
  if mInitialised app && negb (mProcessingQueue app) then
    let app := set_mProcessingQueue true app in
    (* Reset the alarm daemon if it's been queued *)
    let app := emit KAlarm_resetDaemonIfQueued app in
    (* Process DCOP calls *)
    let app := drainQueue (List.length (mDcopQueue app)) app in
    (* Purge the archived alarms resources if it's time to do so *)
    let app := emit Calendar_purgeIfQueued app in
    (* Now that the queue has been processed, quit if a quit was queued *)
    let app := if mPendingQuit app then quitIf (mPendingQuitCode app) app else app in
    set_mProcessingQueue false app
  else app.

Definition setUpDcop (app : KAlarmApp) : KAlarmApp :=
  if negb (mInitialised app)
  then emit Timer_processQueue (emit Daemon_createDcopHandler (set_mInitialised true app))
  else app.

Definition scheduleEvent (args : ScheduleArgs) (app : KAlarmApp) : bool * KAlarmApp :=
  let dateTime := sa_dateTime args in
  let lateCancel := sa_lateCancel args in
  let reminderMinutes := sa_reminderMinutes args in
  if negb (dt_valid dateTime) then (false, app)
  else
    let now := clock app in
    if negb (lateCancel =? 0)
       && dt_ltb dateTime (addSecs now (Int.neg (maxLateness lateCancel)))
    then (true, app)      (* alarm time was already archived too long ago *)
    else
      (* Round down to the nearest minute *)
      let alarmTime :=
        if negb (dt_dateOnly dateTime) then roundToMinute dateTime else dateTime in
      let event := KAEvent_new env args alarmTime in
      let event :=
        if negb (reminderMinutes =? 0) then
          let onceOnly := reminderMinutes <? 0 in
          setReminder env event
            (if onceOnly then Int.neg reminderMinutes else reminderMinutes) onceOnly
        else event in
      let event := if sa_hasAudioFile args then setAudioFile env event args else event in
      let event := if sa_hasMailAddresses args then setEmail env event args else event in
      let event := setRecurrence env event args in
    let event := setFirstRecurrence env event in
      let event :=
        setRepetition env event (sa_repeatInterval args)
                      (Int.sub (sa_repeatCount args) 1) in
      (* Queue the alarm for insertion into the calendar file *)
      let queueIt (event : KAEvent) (app : KAlarmApp) : bool * KAlarmApp :=
        let app :=
          set_mDcopQueue (mDcopQueue app ++ [DcopQEntry_event event EVENT_HANDLE]) app in
        (true, if mInitialised app then emit Timer_processQueue app else app) in
      if dt_leb alarmTime now then
        (* Alarm is due for display already. *)
        let '(event, app) :=
          if negb (mInitialised app) then
            (event,
             set_mDcopQueue (mDcopQueue app ++ [DcopQEntry_event event EVENT_TRIGGER]) app)
          else
            let '(_, event, app) :=
              execAlarm event (firstAlarm event) false
                        (default_allowDefer env) (default_noPreAction env) app in
            (event, app) in
        if negb (ev_recurs event) then (true, app)
        else
          let '(type, dt) := nextOccurrence env event now true in
          if oc_is type NO_OCCURRENCE then (true, app)
          else queueIt (setMainTime event dt) app
      else queueIt event app.

End Engine.

(** ** Command line parameters

    [uint] arithmetic wraps modulo [2^32]. *)
Module UInt.

Definition wrap (z : Z) : Z := z mod 4294967296.
Definition add (a b : Z) : Z := wrap (a + b).
Definition mul (a b : Z) : Z := wrap (a * b).

End UInt.

(** What [convInterval] uses of [QByteArray], for the arguments that it
    passes: sizes and positions that are not negative. *)
Module QByteArray.

(** [right(len)]: the last [len] bytes, or all of them. *)
Definition right (len : nat) (s : string) : string :=
  if (String.length s <=? len)%nat then s
  else String.substring (String.length s - len) len s.

(** [left(len)]: the first [len] bytes, or all of them. *)
Definition left (len : nat) (s : string) : string := String.substring 0 len s.

(** [mid(pos, len)] *)
Definition mid (pos len : nat) (s : string) : string := String.substring pos len s.

(** [indexOf(ch)]: the position of the first [ch], if there is one. *)
Fixpoint indexOf (ch : ascii) (s : string) : option nat :=
  match s with
  | EmptyString => None
  | String c s' =>
      if Ascii.eqb c ch then Some 0%nat
      else match indexOf ch s' with
           | Some i => Some (S i)
           | None => None
           end
  end.

End QByteArray.

(** [KARecurrence::Type], as far as [convInterval] sets it. *)
Inductive KARecurrence_Type : Set :=
  | MINUTELY | DAILY | WEEKLY | MONTHLY_DAY | ANNUAL_DATE.

(** The outcome of reading an option in [newInstance]: [USAGE(message)]
    or the value. *)
Inductive OptionValue : Set :=
  | Usage (message : string)
  | Value (n : Z).

Section CommandLine.

(** [QByteArray::toUInt(&ok)]: the number and [ok]. *)
Variable toUInt : string -> Z * bool.

(** [convInterval(timeParam, recurType, timeInterval, allowMonthYear)]:
    the answer, [recurType] and [timeInterval]; nothing for an empty
    parameter, whose last character the source reads from before the
    array. *)
Definition convInterval (timeParam : string) (allowMonthYear : bool)
  : option (bool * KARecurrence_Type * Z) :=
  let negative :=
    match String.get 0 timeParam with
    | Some c => Ascii.eqb c "-"
    | None => false
    end in
  let timeParam := if negative then QByteArray.right 1 timeParam else timeParam in
  let length := String.length timeParam in
  match String.get (length - 1) timeParam with
  | None => None
  | Some last =>
      let '(ok, recurType, interval, timeParam) :=
        if Ascii.eqb last "Y" then
          (allowMonthYear, ANNUAL_DATE, 0, QByteArray.left (length - 1) timeParam)
        else if Ascii.eqb last "W" then
          (true, WEEKLY, 0, QByteArray.left (length - 1) timeParam)
        else if Ascii.eqb last "D" then
          (true, DAILY, 0, QByteArray.left (length - 1) timeParam)
        else if Ascii.eqb last "M" then
          match QByteArray.indexOf "H" timeParam with
          | None =>
              (allowMonthYear, MONTHLY_DAY, 0, QByteArray.left (length - 1) timeParam)
          | Some i =>
              let '(hours, ok) := toUInt (QByteArray.left i timeParam) in
              (ok, MINUTELY, UInt.mul hours 60,
               QByteArray.mid (i + 1) (length - i - 2) timeParam)
          end
        else (true, MINUTELY, 0, timeParam)      (* should be a digit *) in
      let '(interval, ok) :=
        if ok then
          let '(n, ok) := toUInt timeParam in
          (UInt.add interval n, ok)
        else (interval, ok) in
      let timeInterval := Int.wrap interval in
      let timeInterval := if negative then Int.neg timeInterval else timeInterval in
      Some (ok, recurType, timeInterval)
  end.

(** The [--late-cancel] option of [newInstance], once it is set. *)
Definition newInstance_lateCancel (opt : string) : option OptionValue :=
  match convInterval opt false with
  | None => None
  | Some (ok, recurType, lateCancel) =>
      if negb ok || (lateCancel <=? 0)
      then Some (Usage "Invalid late-cancel parameter")
      else Some (Value lateCancel)
  end.

(** What reading [--reminder] or [--reminder-once] leaves.  [USAGE(message)]
    sets [usage] and executes [break].  At the level of the option loop
    that ends the reading of the options: [Reminder_stop].  Inside the
    [switch] on the unit the [break] only leaves the [switch]: the reading
    of the options goes on, with [usage] set and [reminderMinutes] as it
    is: [Reminder_on]. *)
Inductive ReminderOutcome : Set :=
  | Reminder_stop (usage : string)
  | Reminder_on (usage : option string) (reminderMinutes : Z).

(** The [--reminder] and [--reminder-once] options of [newInstance], once
    one is set and neither [--exec] nor [--mail] is: [opt] is the name of
    the option, [optval] what it is set to, [dateOnly] what
    [alarmTime.isDateOnly()] answers; [usage] is still empty before. *)
Definition newInstance_reminder (opt optval : string) (dateOnly : bool)
  : option ReminderOutcome :=
  match convInterval optval true with
  | None => None
  | Some (ok, recurType, reminderMinutes) =>
      let '(ok, usage, reminderMinutes) :=
        if ok then
          match recurType with
          | MINUTELY =>
              (true,
               if dateOnly
               then Some (String.append "Invalid "
                            (String.append opt " parameter for date-only alarm"))
               else None,
               reminderMinutes)
          | DAILY => (true, None, Int.mul reminderMinutes 1440)
          | WEEKLY => (true, None, Int.mul reminderMinutes (7 * 1440))
          | _ => (false, None, reminderMinutes)
          end
        else (false, None, reminderMinutes) in
      if negb ok
      then Some (Reminder_stop (String.append "Invalid " (String.append opt " parameter")))
      else Some (Reminder_on usage reminderMinutes)
  end.

End CommandLine.

(** ** A concrete environment

    A daemon that checks every [interval] seconds, a calendar that holds
    what [lookup] says, no message window open, every process starting, and
    only events that occur once, at the time of their main alarm. *)
Definition onceOnly_previousOccurrence (event : KAEvent) (dt : KDateTime) (_ : bool)
  : OccurType * KDateTime :=
  match alarmOfType event MAIN_ALARM with
  | Some a => if dt_ltb (al_dateTime a) dt
              then (mkOccur FIRST_OR_ONLY_OCCURRENCE false, al_dateTime a)
              else (mkOccur NO_OCCURRENCE false, invalidDateTime)
  | None => (mkOccur NO_OCCURRENCE false, invalidDateTime)
  end.

Definition onceOnly_mainTime (event : KAEvent) : KDateTime :=
  match alarmOfType event MAIN_ALARM with
  | Some a => al_dateTime a
  | None => invalidDateTime
  end.

Definition exampleEnv (interval : Z) (lookup : string -> option KAEvent) : Env :=
  mkEnv interval
        (fun _ id => lookup id)
        (fun _ _ => None) 1 2
        true "/bin/sh" (fun _ _ _ => true) (fun _ _ => EmptyString)
        (fun s => s)
        (fun _ _ => Some "/tmp/kalarm.sh"%string)
        (fun _ _ _ => (true, []))
        "xterm -e %c" "KAlarm"
        (fun _ => EmptyString)
        (fun _ _ => false)
        onceOnly_previousOccurrence
        (fun event _ _ => (mkOccur NO_OCCURRENCE false, onceOnly_mainTime event))
        onceOnly_mainTime
        true false
        (fun _ => true)
        (fun args alarmTime =>
           ev_withAlarms emptyEvent [mkAlarm MAIN_ALARM alarmTime (sa_lateCancel args) MESSAGE])
        (fun event _ _ => event)
        (fun event _ => event)
        (fun event _ => event)
        (fun event _ => event)
        (fun event => event)
        (fun event _ _ => event).

(** UTC date-times, [secs] seconds after the epoch. *)
Definition utc (secs : Z) : KDateTime := mkDateTime secs false false true.

(** An event with one alarm instance of type [t], due at [due], with the
    late-cancel threshold [lateCancel], showing a message. *)
Definition oneAlarmEvent (id : string) (t : AlarmType) (due : KDateTime) (lateCancel : Z)
  : KAEvent :=
  mkEvent id [mkAlarm t due lateCancel MESSAGE] 0 false true false false false false
          EmptyString EmptyString EmptyString EmptyString false false.

Definition exampleLookup (event : KAEvent) (id : string) : option KAEvent :=
  if String.eqb id (ev_id event) then Some event else None.

(** An initialised application whose clock reads [now], with nothing
    queued, nothing running and nothing logged. *)
Definition idleApp (now : KDateTime) : KAlarmApp :=
  mkApp true false false 0 [] [] 0 now false [].

(** A second environment, in which things fail: no process starts, no
    temporary file can be written, and no window keeps the application
    running. *)
Definition bareEnv (interval : Z) (lookup : string -> option KAEvent) : Env :=
  mkEnv interval
        (fun _ id => lookup id)
        (fun _ _ => None) 1 2
        true "/bin/sh" (fun _ _ _ => false) (fun _ _ => "cannot start"%string)
        (fun s => s)
        (fun _ _ => None)
        (fun _ _ _ => (true, []))
        "xterm -e %c" "KAlarm"
        (fun _ => EmptyString)
        (fun _ _ => false)
        onceOnly_previousOccurrence
        (fun event _ _ => (mkOccur NO_OCCURRENCE false, onceOnly_mainTime event))
        onceOnly_mainTime
        true false
        (fun _ => false)
        (fun args alarmTime =>
           ev_withAlarms emptyEvent [mkAlarm MAIN_ALARM alarmTime (sa_lateCancel args) MESSAGE])
        (fun event _ _ => event)
        (fun event _ => event)
        (fun event _ => event)
        (fun event _ => event)
        (fun event => event)
        (fun event _ _ => event).

(** A third environment, like the first, but with an alarm window that has
    a Defer button already displayed for every event. *)
Definition windowEnv (interval : Z) (lookup : string -> option KAEvent) : Env :=
  mkEnv interval
        (fun _ id => lookup id)
        (fun _ _ => Some (mkWin true MAIN_ALARM)) 1 2
        true "/bin/sh" (fun _ _ _ => true) (fun _ _ => EmptyString)
        (fun s => s)
        (fun _ _ => Some "/tmp/kalarm.sh"%string)
        (fun _ _ _ => (true, []))
        "xterm -e %c" "KAlarm"
        (fun _ => EmptyString)
        (fun _ _ => false)
        onceOnly_previousOccurrence
        (fun event _ _ => (mkOccur NO_OCCURRENCE false, onceOnly_mainTime event))
        onceOnly_mainTime
        true false
        (fun _ => true)
        (fun args alarmTime =>
           ev_withAlarms emptyEvent [mkAlarm MAIN_ALARM alarmTime (sa_lateCancel args) MESSAGE])
        (fun event _ _ => event)
        (fun event _ => event)
        (fun event _ => event)
        (fun event _ => event)
        (fun event => event)
        (fun event _ _ => event).

(** A stand-in for [toUInt] in the examples: plain decimal numerals that
    fit a [uint]. *)
Fixpoint decimalValue (acc : Z) (s : string) : option Z :=
  match s with
  | EmptyString => Some acc
  | String c s' =>
      let d := Z.of_nat (nat_of_ascii c) - 48 in
      if (0 <=? d) && (d <=? 9) then decimalValue (acc * 10 + d) s' else None
  end.

Definition decimalUInt (s : string) : Z * bool :=
  match s with
  | EmptyString => (0, false)
  | _ => match decimalValue 0 s with
         | Some n => if n <? 4294967296 then (n, true) else (0, false)
         | None => (0, false)
         end
  end.

(** The calls to [execAlarm] recorded in a log. *)
Definition isExec (x : Effect) : bool :=
  match x with Exec_alarm _ _ _ _ _ => true | _ => false end.

Definition execCalls (l : list Effect) : list Effect := filter isExec l.

(** The calls that change the calendar. *)
Definition isCalendarUpdate (x : Effect) : bool :=
  match x with
  | KAlarm_addEvent _ | KAlarm_addArchivedEvent _ | KAlarm_updateEvent _
  | KAlarm_deleteEvent _ _ | Calendar_purgeIfQueued => true
  | _ => false
  end.

(** ** Notions used in the proofs *)

(** Effects other than an entry into [execAlarm]. *)
Definition quiet (x : Effect) : bool := negb (isExec x).

(** Effects that neither enter [execAlarm] nor change the calendar. *)
Definition passive (x : Effect) : bool := negb (isExec x) && negb (isCalendarUpdate x).

(** [Step p a b]: from [a] to [b] the log has grown by effects that satisfy
    [p], the tracker has grown at its end, the process counter has moved,
    and nothing else has changed. *)
Definition Step (p : Effect -> bool) (a b : KAlarmApp) : Prop :=
  (exists l, log b = log a ++ l /\ forallb p l = true)
  /\ (exists extra, mCommandProcesses b = mCommandProcesses a ++ extra)
  /\ mDcopQueue b = mDcopQueue a
  /\ mInitialised b = mInitialised a
  /\ mProcessingQueue b = mProcessingQueue a
  /\ mPendingQuit b = mPendingQuit a
  /\ mPendingQuitCode b = mPendingQuitCode a
  /\ clock b = clock a
  /\ exited b = exited a.

(** Any effect. *)
Definition anyEffect (x : Effect) : bool := true.

(** The number of alarms that the loop can still fetch once it holds an
    alarm of the given type. *)
Definition typeRank (t : AlarmType) : nat :=
  match t with
  | INVALID_ALARM => 0
  | MAIN_ALARM => 4
  | REMINDER_ALARM => 3
  | DEFERRED_ALARM => 2
  | AT_LOGIN_ALARM => 1
  end.

(** The at-login alarm instances of [e'] are instances of [e]. *)
Definition atLoginFrom (e e' : KAEvent) : Prop :=
  forall a, In a (ev_alarms e') -> al_repeatAtLogin a = true -> In a (ev_alarms e).

(** Every at-login alarm instance of [e] became due less than
    [maxLateness(1)] seconds before [now]. *)
Definition atLoginRecent (env : Env) (now : KDateTime) (e : KAEvent) : Prop :=
  forall a, In a (ev_alarms e) -> al_repeatAtLogin a = true ->
            secsTo (al_dateTime a) now < maxLateness env 1.

(** A record that gates a display holds the alarm to display. *)
Definition recordWf (pd : ProcData) : Prop :=
  pd_preAction pd = true -> exists alarm, pd_alarm pd = Some alarm.

Definition trackerWf (app : KAlarmApp) : Prop :=
  Forall recordWf (mCommandProcesses app).

(** From [a] to [b] the tracker has grown at its end, by well-formed
    records. *)
Definition Grows (a b : KAlarmApp) : Prop :=
  exists extra, mCommandProcesses b = mCommandProcesses a ++ extra /\ Forall recordWf extra.

(** The calls that keep the calendar, the daemon and the alarm list up to
    date. *)
Definition bookkeeping (x : Effect) : bool :=
  match x with
  | KAlarm_addArchivedEvent _ | KAlarm_updateEvent _ | KAlarm_deleteEvent _ _
  | Daemon_eventHandled _ | AlarmListView_modifyEvent _ => true
  | _ => false
  end.

(** From one log to the other, at most one more entry into [execAlarm]. *)
Definition atMostOneCall (before after : list Effect) : Prop :=
  execCalls after = execCalls before
  \/ exists e a r d n, execCalls after = execCalls before ++ [Exec_alarm e a r d n].

(** The processes of the records of a tracker. *)
Definition procIds (l : list ProcData) : list nat :=
  map (fun pd => sp_id (pd_process pd)) l.

(** No two records of the tracker hold the same process, and every
    process of the tracker was created by the application. *)
Definition trackerUnique (app : KAlarmApp) : Prop :=
  NoDup (procIds (mCommandProcesses app))
  /\ Forall (fun id => (id < processCount app)%nat) (procIds (mCommandProcesses app)).

(** From [a] to [b] the tracker has grown at its end, by records whose
    processes were created in between. *)
Definition Fresh (a b : KAlarmApp) : Prop :=
  (processCount a <= processCount b)%nat
  /\ exists extra,
       mCommandProcesses b = mCommandProcesses a ++ extra
       /\ NoDup (procIds extra)
       /\ Forall (fun id => (processCount a <= id < processCount b)%nat) (procIds extra).

(** The alarm windows that [execAlarm] shows and raises. *)
Definition isShow (x : Effect) : bool :=
  match x with MessageWin_show _ _ _ => true | _ => false end.

Definition isRepeat (x : Effect) : bool :=
  match x with MessageWin_repeat _ _ => true | _ => false end.

(** Effects that neither enter [execAlarm], nor change the calendar, nor
    show or raise an alarm window. *)
Definition mute (x : Effect) : bool :=
  passive x && negb (isShow x) && negb (isRepeat x).

(** What an execution without rescheduling may do: nothing that enters
    [execAlarm] or changes the calendar; an alarm window is shown only
    with the flags [flags], and an existing one is raised only if
    [raised]. *)
Definition forcedEffect (flags : Z) (raised : bool) (x : Effect) : bool :=
  passive x
  && match x with
     | MessageWin_show _ _ f => f =? flags
     | MessageWin_repeat _ _ => raised
     | _ => true
     end.

(** * Properties *)

(** ** Machine integers *)

Lemma wrap_in_range (z : Z) : Int.in_range z -> Int.wrap z = z.
Proof.
  unfold Int.in_range, Int.wrap, Int.min_int, Int.max_int. intros H.
  rewrite Z.mod_small; lia.
Qed.

(** Within the range of an [int], [secsTo] is the difference of the two
    times. *)
Lemma secsTo_in_range (a b : KDateTime) :
  Int.in_range (dt_secs b - dt_secs a) -> secsTo a b = dt_secs b - dt_secs a.
Proof. intros H. unfold secsTo. apply wrap_in_range. exact H. Qed.

Lemma wrap_range (z : Z) : Int.in_range (Int.wrap z).
Proof.
  unfold Int.in_range, Int.wrap, Int.min_int, Int.max_int.
  pose proof (Z.mod_pos_bound (z + 2147483648) 4294967296 eq_refl). lia.
Qed.

Lemma wrap_add_l (a b : Z) : Int.wrap (Int.wrap a + b) = Int.wrap (a + b).
Proof.
  unfold Int.wrap. f_equal.
  replace ((a + 2147483648) mod 4294967296 - 2147483648 + b + 2147483648)
    with ((a + 2147483648) mod 4294967296 + b) by lia.
  rewrite Zplus_mod_idemp_l. f_equal. lia.
Qed.

Lemma wrap_add_r (a b : Z) : Int.wrap (a + Int.wrap b) = Int.wrap (a + b).
Proof.
  rewrite Z.add_comm, wrap_add_l. f_equal. lia.
Qed.

Lemma wrap_mul_l (a b : Z) : Int.wrap (Int.wrap a * b) = Int.wrap (a * b).
Proof.
  unfold Int.wrap. f_equal.
  replace (((a + 2147483648) mod 4294967296 - 2147483648) * b + 2147483648)
    with ((a + 2147483648) mod 4294967296 * b + (2147483648 - 2147483648 * b)) by lia.
  rewrite <- Zplus_mod_idemp_l, Zmult_mod_idemp_l, Zplus_mod_idemp_l.
  f_equal. lia.
Qed.

Lemma AlarmType_eqb_spec (a b : AlarmType) : reflect (a = b) (AlarmType_eqb a b).
Proof. destruct a, b; simpl; constructor; congruence. Qed.

Lemma AlarmType_eqb_refl (a : AlarmType) : AlarmType_eqb a a = true.
Proof. destruct a; reflexivity. Qed.

(** ** Lateness policy *)

Lemma maxLateness_wrap (env : Env) (lateCancel : Z) :
  maxLateness env lateCancel =
  Int.wrap (maxTimeSinceCheck env + LATENESS_LEEWAY
            + (if 1 <=? lateCancel then (lateCancel - 1) * 60 else 0)).
Proof.
  unfold maxLateness, Int.add, Int.mul, Int.sub.
  rewrite wrap_add_l.
  destruct (1 <=? lateCancel); [|reflexivity].
  rewrite wrap_mul_l, wrap_add_r. reflexivity.
Qed.

Lemma maxLateness_range (env : Env) (lateCancel : Z) :
  Int.in_range (maxLateness env lateCancel).
Proof. rewrite maxLateness_wrap. apply wrap_range. Qed.

(** C3, as the code has it.  [maxLateness] is a function of the daemon's
    check interval and of [lateCancel] alone: it takes and returns no
    application state.  Wherever the sum fits an [int], for every
    [lateCancel >= 1] it is the check interval plus the leeway of 5 seconds
    plus [(lateCancel - 1) * 60], and for [lateCancel = 0] it is the check
    interval plus 5. *)
Theorem maxLateness_value (env : Env) :
  (forall lateCancel : Z,
      1 <= lateCancel ->
      Int.in_range (maxTimeSinceCheck env + 5 + (lateCancel - 1) * 60) ->
      maxLateness env lateCancel = maxTimeSinceCheck env + 5 + (lateCancel - 1) * 60)
  /\ (Int.in_range (maxTimeSinceCheck env + 5) ->
      maxLateness env 0 = maxTimeSinceCheck env + 5).
Proof.
  split.
  - intros lateCancel Hlc Hr. rewrite maxLateness_wrap.
    destruct (Z.leb_spec 1 lateCancel) as [_|]; [|lia].
    unfold LATENESS_LEEWAY. apply wrap_in_range. exact Hr.
  - intros Hr. rewrite maxLateness_wrap. simpl.
    unfold LATENESS_LEEWAY. rewrite Z.add_0_r. apply wrap_in_range. exact Hr.
Qed.

Lemma maxLateness_value_witness :
  maxLateness (exampleEnv 60 (fun _ => None)) 5 = 60 + 5 + (5 - 1) * 60
  /\ maxLateness (exampleEnv 60 (fun _ => None)) 0 = 60 + 5.
Proof.
  split.
  - apply (proj1 (maxLateness_value (exampleEnv 60 (fun _ => None))) 5).
    + lia.
    + unfold Int.in_range, Int.min_int, Int.max_int. simpl. lia.
  - apply (proj2 (maxLateness_value (exampleEnv 60 (fun _ => None)))).
    unfold Int.in_range, Int.min_int, Int.max_int. simpl. lia.
Defined.

(** C3 as stated fails where the product leaves the range of [int]: with a
    check interval of 60 seconds and a threshold of 35791396 minutes,
    [(lateCancel - 1) * 60] is 2147483700, and the function returns
    -2147483531. *)
Lemma maxLateness_overflow :
  1 <= 35791396
  /\ maxLateness (exampleEnv 60 (fun _ => None)) 35791396 = -2147483531
  /\ maxLateness (exampleEnv 60 (fun _ => None)) 35791396
     <> maxTimeSinceCheck (exampleEnv 60 (fun _ => None)) + 5 + (35791396 - 1) * 60.
Proof.
  split; [lia|]. split; [reflexivity|]. vm_compute. discriminate.
Qed.

(** ** Action queue *)

(** C1.  While a drain is in progress ([mProcessingQueue] is set), or before
    the engine is initialised, [processQueue] returns the application
    unchanged: nothing is dequeued, no collaborator is called (so the
    calendar is left alone), and the queue is what it was. *)
Theorem processQueue_guarded (env : Env) (app : KAlarmApp) :
  mProcessingQueue app = true \/ mInitialised app = false ->
  processQueue env app = app.
Proof.
  intros [H | H]; unfold processQueue; rewrite H.
  - rewrite andb_false_r. reflexivity.
  - reflexivity.
Qed.

Lemma processQueue_guarded_witness :
  let app := mkApp true true false 0
                   [DcopQEntry_id EVENT_HANDLE "alarm-1"] [] 0 (utc 1000) false [] in
  processQueue (exampleEnv 60 (fun _ => None)) app = app
  /\ mDcopQueue (processQueue (exampleEnv 60 (fun _ => None)) app)
     = [DcopQEntry_id EVENT_HANDLE "alarm-1"]
  /\ log (processQueue (exampleEnv 60 (fun _ => None)) app) = [].
Proof.
  intros app.
  assert (H : processQueue (exampleEnv 60 (fun _ => None)) app = app).
  { apply (processQueue_guarded (exampleEnv 60 (fun _ => None)) app).
    left. reflexivity. }
  rewrite H. repeat split.
Defined.

(** C10.  A call of [scheduleEvent] with a valid date-time and a
    late-cancel threshold above 0, for a date-time earlier than the current
    time minus [maxLateness(lateCancel)] seconds (the source negates the
    [int] and adds it to the current time), returns [true] and leaves the
    application as it was: nothing is executed, nothing is queued, no
    collaborator is called. *)
Theorem scheduleEvent_expired (env : Env) (args : ScheduleArgs) (app : KAlarmApp) :
  dt_valid (sa_dateTime args) = true ->
  0 < sa_lateCancel args ->
  dt_secs (sa_dateTime args)
  < dt_secs (addSecs (clock app) (Int.neg (maxLateness env (sa_lateCancel args)))) ->
  scheduleEvent env args app = (true, app).
Proof.
  intros Hvalid Hlc Hlate. unfold scheduleEvent.
  rewrite Hvalid. simpl negb. cbv iota.
  destruct (Z.eqb_spec (sa_lateCancel args) 0) as [E|_]; [lia|].
  unfold dt_ltb. apply Z.ltb_lt in Hlate. rewrite Hlate. reflexivity.
Qed.

Lemma scheduleEvent_expired_witness :
  scheduleEvent (exampleEnv 60 (fun _ => None))
                (mkScheduleArgs (utc 400) 5 0 false false 0 0)
                (idleApp (utc 1000))
  = (true, idleApp (utc 1000)).
Proof.
  apply (scheduleEvent_expired (exampleEnv 60 (fun _ => None))
           (mkScheduleArgs (utc 400) 5 0 false false 0 0) (idleApp (utc 1000))).
  - reflexivity.
  - simpl. lia.
  - vm_compute. reflexivity.
Defined.

(** ** Dispatch engine *)

(** C5.  For an event id that the calendar does not hold, and every
    function, [handleEvent] tells the daemon that the event is handled and
    returns [false]; this is all it does: no other collaborator is called,
    so the calendar is not changed, and the engine neither exits nor changes
    a field of its own. *)
Theorem handleEvent_not_found (env : Env) (eventID : string) (function : EventFunc)
        (app : KAlarmApp) :
  calendar_event env (log app) eventID = None ->
  handleEvent env eventID function app = (false, emit (Daemon_eventHandled eventID) app).
Proof.
  intros H. unfold handleEvent. rewrite H. reflexivity.
Qed.

Lemma handleEvent_not_found_witness :
  handleEvent (exampleEnv 60 (fun _ => None)) "gone" EVENT_TRIGGER (idleApp (utc 1000))
  = (false, emit (Daemon_eventHandled "gone") (idleApp (utc 1000))).
Proof.
  apply (handleEvent_not_found (exampleEnv 60 (fun _ => None)) "gone" EVENT_TRIGGER
           (idleApp (utc 1000))).
  reflexivity.
Defined.

(** ** Alarm instances of an event *)

Lemma firstAlarm_single (e : KAEvent) (a : KAAlarm) :
  ev_alarms e = [a] -> al_valid a = true -> firstAlarm e = a.
Proof.
  intros H V. unfold firstAlarm, firstOfTypes, alarmOfType. rewrite H.
  unfold al_valid in V. simpl.
  destruct (al_type a); simpl in *; try reflexivity; discriminate.
Qed.


Lemma firstAlarm_none (e : KAEvent) : ev_alarms e = [] -> firstAlarm e = invalidAlarm.
Proof.
  intros H. unfold firstAlarm, firstOfTypes, alarmOfType. rewrite H. reflexivity.
Qed.

Lemma alarmOfType_removed (e : KAEvent) (t : AlarmType) :
  alarmOfType (removeExpiredAlarm e t) t = None.
Proof.
  unfold alarmOfType, removeExpiredAlarm. simpl.
  induction (ev_alarms e) as [|a l IH]; simpl; [reflexivity|].
  destruct (AlarmType_eqb (al_type a) t) eqn:E; simpl; [exact IH|].
  rewrite E. exact IH.
Qed.

Lemma log_emit (x : Effect) (app : KAlarmApp) : log (emit x app) = log app ++ [x].
Proof. reflexivity. Qed.

Lemma log_emits (xs : list Effect) (app : KAlarmApp) : log (emits xs app) = log app ++ xs.
Proof.
  unfold emits. revert app.
  induction xs as [|x xs IH]; intros app; simpl.
  - rewrite app_nil_r. reflexivity.
  - rewrite IH. simpl. rewrite <- app_assoc. reflexivity.
Qed.

Lemma execCalls_app (l l' : list Effect) : execCalls (l ++ l') = execCalls l ++ execCalls l'.
Proof. apply filter_app. Qed.

(** ** Canceller *)

Lemma cancelAlarm_event (event : KAEvent) (alarmType : AlarmType) (updateNow : bool)
      (app : KAlarmApp) :
  fst (cancelAlarm event alarmType updateNow app)
  = removeExpiredAlarm (cancelCancelledDeferral event) alarmType.
Proof.
  unfold cancelAlarm.
  destruct (alarmCount _ =? 0); [reflexivity|]. destruct updateNow; reflexivity.
Qed.

Lemma cancelAlarm_log (event : KAEvent) (alarmType : AlarmType) (updateNow : bool)
      (app : KAlarmApp) :
  let event' := removeExpiredAlarm (cancelCancelledDeferral event) alarmType in
  log (snd (cancelAlarm event alarmType updateNow app))
  = log app
    ++ (if AlarmType_eqb alarmType MAIN_ALARM && negb (ev_displaying event)
           && ev_toBeArchived event
        then [KAlarm_addArchivedEvent (cancelCancelledDeferral event)] else [])
    ++ (if alarmCount event' =? 0 then [KAlarm_deleteEvent event' false]
        else if updateNow then [KAlarm_updateEvent event'] else []).
Proof.
  cbv zeta. unfold cancelAlarm. cbn [ev_displaying ev_toBeArchived cancelCancelledDeferral].
  destruct (AlarmType_eqb alarmType MAIN_ALARM && negb (ev_displaying event)
            && ev_toBeArchived event);
    destruct (alarmCount _ =? 0); try destruct updateNow; simpl;
      rewrite <- ?app_assoc; simpl; rewrite ?app_nil_r; reflexivity.
Qed.

(** C8.  [cancelAlarm(event, alarmType, updateNow)] removes the alarm
    instance of the named type (after archiving the event where that
    applies); if the event is left with no alarm instance it calls
    [KAlarm::deleteEvent] on it, otherwise it calls [KAlarm::updateEvent] on
    it when [updateNow] is set, and nothing else.  So every event that
    [cancelAlarm] writes back to the calendar owns at least one alarm
    instance. *)
Theorem cancelAlarm_outcome (event : KAEvent) (alarmType : AlarmType)
        (updateNow : bool) (app : KAlarmApp) :
  let event' := fst (cancelAlarm event alarmType updateNow app) in
  let app' := snd (cancelAlarm event alarmType updateNow app) in
  let archived :=
    if AlarmType_eqb alarmType MAIN_ALARM && negb (ev_displaying event)
       && ev_toBeArchived event
    then [KAlarm_addArchivedEvent (cancelCancelledDeferral event)] else [] in
  event' = removeExpiredAlarm (cancelCancelledDeferral event) alarmType
  /\ alarmOfType event' alarmType = None
  /\ log app' = log app ++ archived
                ++ (if alarmCount event' =? 0 then [KAlarm_deleteEvent event' false]
                    else if updateNow then [KAlarm_updateEvent event'] else [])
  /\ (forall e : KAEvent,
         In (KAlarm_updateEvent e) (log app') ->
         In (KAlarm_updateEvent e) (log app) \/ 1 <= alarmCount e).
Proof.
  cbv zeta.
  pose proof (cancelAlarm_event event alarmType updateNow app) as Hev.
  pose proof (cancelAlarm_log event alarmType updateNow app) as Hlog.
  cbv zeta in Hlog.
  rewrite Hev. split; [reflexivity|]. split; [apply alarmOfType_removed|].
  split; [exact Hlog|].
  intros e Hin. rewrite Hlog in Hin.
  apply in_app_or in Hin. destruct Hin as [Hin|Hin]; [left; exact Hin|].
  apply in_app_or in Hin. destruct Hin as [Hin|Hin].
  - destruct (_ && _ && _); simpl in Hin; [|contradiction].
    destruct Hin as [Hin|[]]. discriminate.
  - destruct (Z.eqb_spec (alarmCount (removeExpiredAlarm (cancelCancelledDeferral event) alarmType)) 0)
      as [E|E].
    + simpl in Hin. destruct Hin as [Hin|[]]. discriminate.
    + destruct updateNow; simpl in Hin; [|contradiction].
      destruct Hin as [Hin|[]]. inversion Hin; subst e. right.
      unfold alarmCount in *. lia.
Qed.



Lemma scanAlarm_never_cancel (env : Env) (now : KDateTime) (st : Scan) (alarm : KAAlarm) :
  al_type alarm = MAIN_ALARM ->
  al_lateCancel alarm = 0 ->
  0 <= secsTo (al_dateTime alarm) now ->
  sc_alarmToExecuteValid st = false ->
  let occ := previousOccurrence env (sc_event st) (addSecs now 1) true in
  let repeated := negb (ev_repeatCount (sc_event st) =? 0) in
  scanAlarm env now alarm st
  = mkScan (sc_event st)
           (if repeated then snd occ else sc_repeatDT st)
           (sc_updateCalAndDisplay st) true
           (if repeated && oc_repeat (fst occ) then al_setTime alarm (snd occ) else alarm)
           (sc_app st).
Proof.
  intros Hty Hlc Hpast Hnone. cbv zeta.
  unfold scanAlarm.
  unfold al_deferred, al_repeatAtLogin. rewrite Hty. cbn [AlarmType_eqb andb].
  destruct (Z.ltb_spec (secsTo (al_dateTime alarm) now) 0) as [|_]; [lia|].
  cbn [andb]. rewrite Hty. cbn [AlarmType_eqb andb].
  rewrite andb_true_r.
  destruct (negb (ev_repeatCount (sc_event st) =? 0)); cbn [andb].
  - destruct (previousOccurrence env (sc_event st) (addSecs now 1) true) as [type dt].
    cbn [fst snd]. destruct (oc_repeat type); cbn [al_setTime al_lateCancel];
      rewrite Hlc; cbn [Z.eqb negb]; rewrite Hnone; reflexivity.
  - rewrite Hlc. cbn [Z.eqb negb]. rewrite Hnone. reflexivity.
Qed.

(** C4, as the code has it.  An event whose single alarm instance is a MAIN
    alarm with the late-cancel threshold 0, due in the past, where the
    number of seconds from the due time to the current time fits the [int]
    in which the code holds it: [handleEvent] with HANDLE (or TRIGGER)
    selects that alarm and ends in [execAlarm] on it, however late it is
    within that range; [lateCancelCheck], [cancelAlarm] and
    [rescheduleAlarm] are not reached from the loop.  When the event has a
    simple repetition the alarm is executed with the time of the current
    repetition, else as it is. *)
Theorem handleEvent_never_cancel (env : Env) (eventID : string) (function : EventFunc)
        (app : KAlarmApp) (event : KAEvent) (alarm : KAAlarm) :
  calendar_event env (log app) eventID = Some event ->
  function <> EVENT_CANCEL ->
  ev_alarms event = [alarm] ->
  al_type alarm = MAIN_ALARM ->
  al_lateCancel alarm = 0 ->
  Int.in_range (dt_secs (clock app) - dt_secs (al_dateTime alarm)) ->
  0 <= dt_secs (clock app) - dt_secs (al_dateTime alarm) ->
  let occ := previousOccurrence env event (addSecs (clock app) 1) true in
  let selected :=
    if negb (ev_repeatCount event =? 0) && oc_repeat (fst occ)
    then al_setTime alarm (snd occ) else alarm in
  handleEvent env eventID function app
  = (true, snd (execAlarm env event selected true true (default_noPreAction env) app))
  /\ al_type selected = MAIN_ALARM
  /\ (ev_repeatCount event = 0 -> selected = alarm).
Proof.
  intros Hcal Hfun Hal Hty Hlc Hint Hpast occ selected.
  rewrite <- (secsTo_in_range _ _ Hint) in Hpast.
  assert (Hv : al_valid alarm = true) by (unfold al_valid; rewrite Hty; reflexivity).
  assert (Hsel : al_type selected = MAIN_ALARM).
  { unfold selected. destruct (_ && _); [exact Hty | exact Hty]. }
  split; [|split; [exact Hsel|]].
  - assert (Hscan :
      scanAlarms env alarmLoopBound (clock app) (firstAlarm event)
                 (mkScan event invalidDateTime false false invalidAlarm app)
      = mkScan event
               (if negb (ev_repeatCount event =? 0) then snd occ else invalidDateTime)
               false true selected app).
    { rewrite (firstAlarm_single event alarm Hal Hv).
      unfold alarmLoopBound. cbn [scanAlarms]. rewrite Hv.
      rewrite (scanAlarm_never_cancel env (clock app)
                 (mkScan event invalidDateTime false false invalidAlarm app)
                 alarm Hty Hlc Hpast eq_refl).
      cbn [sc_event sc_repeatDT sc_updateCalAndDisplay sc_app].
      fold occ. fold selected.
      assert (Hnext : nextAlarm event alarm = invalidAlarm).
      { unfold nextAlarm. rewrite Hty. unfold typesAfter, firstOfTypes, alarmOfType.
        rewrite Hal. cbn [find]. rewrite Hty. reflexivity. }
      rewrite Hnext. reflexivity. }
    unfold handleEvent. rewrite Hcal.
    assert (Hafter :
      afterScan env eventID function
        (scanAlarms env alarmLoopBound (clock app) (firstAlarm event)
                    (mkScan event invalidDateTime false false invalidAlarm app))
      = (true, snd (execAlarm env event selected true true (default_noPreAction env) app))).
    { rewrite Hscan. unfold afterScan.
      cbn [sc_event sc_app sc_alarmToExecute].
      unfold al_valid, al_repeatAtLogin. rewrite Hsel. cbn [AlarmType_eqb negb].
      destruct (execAlarm env event selected true true (default_noPreAction env) app)
        as [[r e] a]. reflexivity. }
    destruct function; [exact Hafter | exact Hafter | congruence].
  - intros Hrep. unfold selected. rewrite Hrep. reflexivity.
Qed.

(** ** The effects of the engine's functions *)

Lemma Step_refl (p : Effect -> bool) (a : KAlarmApp) : Step p a a.
Proof.
  unfold Step. repeat split.
  - exists []. rewrite app_nil_r. split; reflexivity.
  - exists []. rewrite app_nil_r. reflexivity.
Qed.

Lemma Step_trans (p : Effect -> bool) (a b c : KAlarmApp) :
  Step p a b -> Step p b c -> Step p a c.
Proof.
  intros ((l1 & Hl1 & Hp1) & (e1 & He1) & H1) ((l2 & Hl2 & Hp2) & (e2 & He2) & H2).
  unfold Step. split; [|split].
  - exists (l1 ++ l2). rewrite Hl2, Hl1, app_assoc. split; [reflexivity|].
    rewrite forallb_app, Hp1, Hp2. reflexivity.
  - exists (e1 ++ e2). rewrite He2, He1, app_assoc. reflexivity.
  - decompose [and] H1. decompose [and] H2. repeat split; congruence.
Qed.

Lemma Step_weaken (p q : Effect -> bool) (a b : KAlarmApp) :
  (forall x, p x = true -> q x = true) -> Step p a b -> Step q a b.
Proof.
  intros Hpq ((l & Hl & Hp) & H). split; [|exact H].
  exists l. split; [exact Hl|].
  rewrite forallb_forall in *. intros x Hx. apply Hpq, Hp, Hx.
Qed.

Lemma Step_emit (p : Effect -> bool) (x : Effect) (a c : KAlarmApp) :
  p x = true -> Step p a c -> Step p a (emit x c).
Proof.
  intros Hx H. apply Step_trans with c; [exact H|].
  unfold Step. simpl. repeat split.
  - exists [x]. simpl. rewrite Hx. split; reflexivity.
  - exists []. rewrite app_nil_r. reflexivity.
Qed.

Lemma Step_emits (p : Effect -> bool) (xs : list Effect) (a c : KAlarmApp) :
  forallb p xs = true -> Step p a c -> Step p a (emits xs c).
Proof.
  unfold emits. revert c.
  induction xs as [|x xs IH]; intros c Hxs H; simpl; [exact H|].
  simpl in Hxs. apply andb_prop in Hxs. destruct Hxs as [Hx Hxs].
  apply IH; [exact Hxs|]. apply Step_emit; assumption.
Qed.

Lemma Step_push (p : Effect -> bool) (l : list ProcData) (a c : KAlarmApp) :
  Step p a c -> Step p a (set_mCommandProcesses (mCommandProcesses c ++ l) c).
Proof.
  intros H. apply Step_trans with c; [exact H|].
  unfold Step. simpl. repeat split.
  - exists []. rewrite app_nil_r. split; reflexivity.
  - exists l. reflexivity.
Qed.

Lemma Step_newShellProcess (p : Effect -> bool) (cmd : string) (a c : KAlarmApp) :
  Step p a c -> Step p a (snd (newShellProcess cmd c)).
Proof.
  intros H. apply Step_trans with c; [exact H|].
  unfold Step. simpl. repeat split.
  - exists []. rewrite app_nil_r. split; reflexivity.
  - exists []. rewrite app_nil_r. reflexivity.
Qed.

Lemma Step_set_procs (p : Effect -> bool) (l : list ProcData) (a c : KAlarmApp) :
  Step p a c ->
  (exists extra, l = mCommandProcesses a ++ extra) ->
  Step p a (set_mCommandProcesses l c).
Proof.
  intros (Hl & _ & H) He. unfold Step. simpl. split; [exact Hl|]. split; [exact He|].
  exact H.
Qed.

Lemma Step_procs (p : Effect -> bool) (a b : KAlarmApp) :
  Step p a b -> exists extra, mCommandProcesses b = mCommandProcesses a ++ extra.
Proof. intros (_ & H & _). exact H. Qed.

Lemma Step_log (p : Effect -> bool) (a b : KAlarmApp) :
  Step p a b -> exists l, log b = log a ++ l /\ forallb p l = true.
Proof. intros (H & _). exact H. Qed.

Lemma passive_quiet (x : Effect) : passive x = true -> quiet x = true.
Proof. unfold passive, quiet. intros H. apply andb_prop in H. apply H. Qed.

(** Solves [Step p a X] where [X] is [a] under emits and pushes, or such a
    state reached from one for which a [Step] is among the hypotheses. *)
Ltac step :=
  lazymatch goal with
  | H : Step ?p ?a ?c |- Step ?p ?a ?c => exact H
  | |- Step _ ?a ?a => apply Step_refl
  | |- Step _ _ (emit _ _) => apply Step_emit; [reflexivity | step]
  | |- Step _ _ (emits _ _) => apply Step_emits; [reflexivity | step]
  | |- Step _ _ (set_mCommandProcesses (mCommandProcesses ?c ++ _) ?c) =>
      apply Step_push; step
  | |- Step _ _ (snd (newShellProcess _ _)) => apply Step_newShellProcess; step
  | |- Step _ _ (if ?c then _ else _) => destruct c; step
  | H : Step ?p ?b ?c |- Step ?p _ ?c => apply Step_trans with b; [step | exact H]
  end.

Lemma cancelAlarm_Step (event : KAEvent) (alarmType : AlarmType) (updateNow : bool)
      (app : KAlarmApp) :
  Step quiet app (snd (cancelAlarm event alarmType updateNow app)).
Proof.
  unfold cancelAlarm.
  destruct (_ && _ && _); destruct (alarmCount _ =? 0); try destruct updateNow;
    cbn [snd]; step.
Qed.

Lemma rescheduleAlarm_Step (env : Env) (event : KAEvent) (alarm : KAAlarm)
      (updateNow : bool) (app : KAlarmApp) :
  Step quiet app (snd (rescheduleAlarm env event alarm updateNow app)).
Proof.
  unfold rescheduleAlarm.
  destruct (al_reminder alarm || al_deferred alarm); [cbn [snd]; step|].
  destruct (al_repeatAtLogin alarm).
  { destruct (updateNow && ev_updated event); cbn [snd]; step. }
  destruct (negb (ev_repeatCount event =? 0) && dt_ltb (clock app) (mainEndRepeatTime env event)).
  { destruct (ev_deferred event); cbn [snd]; step. }
  destruct (nextOccurrence env event (clock app) false) as [type dt].
  destruct (oc_repeat type).
  { destruct (ev_deferred _); cbn [snd]; step. }
  destruct (oc_base type).
  - pose proof (cancelAlarm_Step (setMainTime event dt) (al_type alarm) updateNow app) as H.
    destruct (cancelAlarm (setMainTime event dt) (al_type alarm) updateNow app) as [e a].
    cbn [snd] in H.
    destruct (ev_deferred e); cbn [snd]; step.
  - destruct (ev_deferred _); cbn [snd]; step.
  - destruct updateNow; destruct (ev_deferred _); cbn [snd]; step.
  - destruct updateNow; destruct (ev_deferred _); cbn [snd]; step.
  - destruct updateNow; destruct (ev_deferred _); cbn [snd]; step.
Qed.

Lemma File_remove_passive (files : list string) :
  forallb passive (map File_remove files) = true.
Proof. induction files as [|f files IH]; [reflexivity | exact IH]. Qed.

Lemma deleteProcData_Step (pd : ProcData) (app : KAlarmApp) :
  Step passive app (deleteProcData pd app).
Proof.
  unfold deleteProcData. apply Step_emit; [reflexivity|].
  apply Step_emits; [apply File_remove_passive | apply Step_refl].
Qed.

Lemma commandErrorMsg_Step (errorMessage : string) (proc : ShellProcess) (event : KAEvent)
      (alarm : option KAAlarm) (flags : Z) (app : KAlarmApp) :
  Step passive app (commandErrorMsg errorMessage proc event alarm flags app).
Proof. unfold commandErrorMsg. step. Qed.

Lemma createTempScriptFile_Step (env : Env) (command : string) (insertShell : bool)
      (event : KAEvent) (alarm : KAAlarm) (app : KAlarmApp) :
  Step passive app (snd (createTempScriptFile env command insertShell event alarm app)).
Proof.
  unfold createTempScriptFile.
  destruct (KTemporaryFile_write env (log app) _); cbn [snd]; step.
Qed.

Lemma xtermCommand_Step (env : Env) (command : string) (event : KAEvent)
      (alarm : option KAAlarm) (flags : Z) (app : KAlarmApp) :
  Step passive app (snd (xtermCommand env command event alarm flags app)).
Proof.
  unfold xtermCommand.
  destruct (hasFlag flags EXEC_IN_XTERM); [|cbn [snd]; step].
  destruct (contains "%C" _).
  { destruct (hasFlag flags TEMP_FILE); [cbn [snd]; step|].
    match goal with
    | |- context [createTempScriptFile ?e ?c ?i ?ev ?al ?a] =>
        pose proof (createTempScriptFile_Step e c i ev al a) as H;
        destruct (createTempScriptFile e c i ev al a) as [tmp app1]
    end.
    cbn [snd] in H. destruct (isEmpty tmp); cbn [snd]; step. }
  destruct (contains "%W" _).
  { match goal with
    | |- context [createTempScriptFile ?e ?c ?i ?ev ?al ?a] =>
        pose proof (createTempScriptFile_Step e c i ev al a) as H;
        destruct (createTempScriptFile e c i ev al a) as [tmp app1]
    end.
    cbn [snd] in H. destruct (isEmpty tmp); cbn [snd]; step. }
  destruct (contains "%w" _); [cbn [snd]; step|].
  destruct (contains "%c" _); cbn [snd]; step.
Qed.

Lemma startLogProcess_Step (env : Env) (event : KAEvent) (alarm : option KAAlarm)
      (comms : Communication) (app : KAlarmApp) :
  Step passive app (snd (startLogProcess env event alarm comms app)).
Proof.
  unfold startLogProcess.
  destruct comms; try (cbn [snd]; step).
  destruct (negb (isEmpty (ev_logFile event))); [|cbn [snd]; step].
  pose proof (Step_newShellProcess passive (String.append "cat >>" (ev_logFile event))
                app app (Step_refl _ _)) as H.
  destruct (newShellProcess (String.append "cat >>" (ev_logFile event)) app) as [lp app1].
  cbn [snd] in *. step.
Qed.

Lemma doShellCommand_Step (env : Env) (command : string) (event : KAEvent)
      (alarm : option KAAlarm) (flags : Z) (app : KAlarmApp) :
  Step passive app (snd (doShellCommand env command event alarm flags app)).
Proof.
  unfold doShellCommand.
  pose proof (xtermCommand_Step env command event alarm flags app) as H.
  destruct (xtermCommand env command event alarm flags app) as [[[[cmd comms] tmp]|] app1];
    cbn [snd] in H; [|cbn [snd]; step].
  pose proof (Step_newShellProcess passive cmd app1 app1 (Step_refl _ _)) as H2.
  destruct (newShellProcess cmd app1) as [proc app2]. cbn [snd] in H2.
  pose proof (startLogProcess_Step env event alarm comms app2) as H3.
  destruct (startLogProcess env event alarm comms app2) as [logproc app3].
  cbn [snd] in H3.
  assert (H13 : Step passive app app3).
  { apply Step_trans with app2; [|exact H3]. apply Step_trans with app1; assumption. }
  clear H H2 H3.
  match goal with
  | |- context [if ?c then _ else _] => destruct c
  end; cbn [snd]; [step|].
  apply Step_trans with
    (set_mCommandProcesses (mCommandProcesses app3) app3).
  { apply Step_set_procs; [exact H13|]. apply (Step_procs passive). exact H13. }
  unfold commandErrorMsg. cbn [emit mCommandProcesses set_mCommandProcesses].
  rewrite removelast_last.
  unfold deleteProcData.
  apply Step_emit; [reflexivity|].
  apply Step_emits; [apply File_remove_passive|].
  unfold Step. simpl. repeat split.
  - eexists. split; [rewrite <- app_assoc; reflexivity|]. reflexivity.
  - exists []. rewrite app_nil_r. reflexivity.
Qed.

(** Names the result of a call whose [Step] lemma is known, and records
    that [Step], weakened to [quiet] where the goal asks for it. *)
Ltac weaken_to_goal H :=
  lazymatch goal with
  | |- Step quiet _ _ =>
      lazymatch type of H with
      | Step passive _ _ => apply (Step_weaken passive quiet _ _ passive_quiet) in H
      | _ => idtac
      end
  | _ => idtac
  end.

Ltac callee :=
  match goal with
  | |- context [rescheduleAlarm ?e ?ev ?al ?u ?a] =>
      let H := fresh "Hcall" in
      pose proof (rescheduleAlarm_Step e ev al u a) as H;
      destruct (rescheduleAlarm e ev al u a) as [? ?]; cbn [snd] in H; weaken_to_goal H
  | |- context [cancelAlarm ?ev ?t ?u ?a] =>
      let H := fresh "Hcall" in
      pose proof (cancelAlarm_Step ev t u a) as H;
      destruct (cancelAlarm ev t u a) as [? ?]; cbn [snd] in H; weaken_to_goal H
  | |- context [doShellCommand ?e ?c ?ev ?al ?f ?a] =>
      let H := fresh "Hcall" in
      pose proof (doShellCommand_Step e c ev al f a) as H;
      destruct (doShellCommand e c ev al f a) as [? ?]; cbn [snd] in H; weaken_to_goal H
  | |- context [createTempScriptFile ?e ?c ?i ?ev ?al ?a] =>
      let H := fresh "Hcall" in
      pose proof (createTempScriptFile_Step e c i ev al a) as H;
      destruct (createTempScriptFile e c i ev al a) as [? ?]; cbn [snd] in H;
      weaken_to_goal H
  end.

Ltac split_case :=
  match goal with
  | |- context [match ?x with _ => _ end] =>
      lazymatch x with
      | context [match _ with _ => _ end] => fail
      | _ => destruct x
      end
  end.

Lemma execAlarm_Step (env : Env) (event : KAEvent) (alarm : KAAlarm)
      (reschedule allowDefer noPreAction : bool) (app : KAlarmApp) :
  Step (if reschedule then quiet else passive)
       (emit (Exec_alarm event alarm reschedule allowDefer noPreAction) app)
       (snd (execAlarm env event alarm reschedule allowDefer noPreAction app)).
Proof.
  unfold execAlarm.
  set (app0 := emit (Exec_alarm event alarm reschedule allowDefer noPreAction) app).
  destruct reschedule;
    repeat first [callee | split_case]; cbn [snd]; step.
Qed.

Lemma quiet_any (x : Effect) : quiet x = true -> anyEffect x = true.
Proof. reflexivity. Qed.

Lemma passive_any (x : Effect) : passive x = true -> anyEffect x = true.
Proof. reflexivity. Qed.

Lemma scanAlarm_Step (env : Env) (now : KDateTime) (alarm : KAAlarm) (st : Scan) :
  Step quiet (sc_app st) (sc_app (scanAlarm env now alarm st)).
Proof.
  unfold scanAlarm.
  repeat first [callee | split_case]; cbn [sc_app]; step.
Qed.

Lemma scanAlarms_Step (env : Env) (fuel : nat) (now : KDateTime) (alarm : KAAlarm)
      (st : Scan) :
  Step quiet (sc_app st) (sc_app (scanAlarms env fuel now alarm st)).
Proof.
  revert alarm st.
  induction fuel as [|fuel IH]; intros alarm st; cbn [scanAlarms]; [apply Step_refl|].
  destruct (al_valid alarm); [|apply Step_refl].
  apply Step_trans with (sc_app (scanAlarm env now alarm st)).
  - apply scanAlarm_Step.
  - apply IH.
Qed.

Lemma execAlarm_Step_any (env : Env) (event : KAEvent) (alarm : KAAlarm)
      (reschedule allowDefer noPreAction : bool) (app : KAlarmApp) :
  Step anyEffect app (snd (execAlarm env event alarm reschedule allowDefer noPreAction app)).
Proof.
  apply Step_trans with (emit (Exec_alarm event alarm reschedule allowDefer noPreAction) app).
  - apply Step_emit; [reflexivity | apply Step_refl].
  - pose proof (execAlarm_Step env event alarm reschedule allowDefer noPreAction app) as H.
    destruct reschedule.
    + exact (Step_weaken quiet anyEffect _ _ quiet_any H).
    + exact (Step_weaken passive anyEffect _ _ passive_any H).
Qed.

Lemma afterScan_Step (env : Env) (eventID : string) (function : EventFunc) (st : Scan) :
  Step anyEffect (sc_app st) (snd (afterScan env eventID function st)).
Proof.
  unfold afterScan.
  repeat match goal with
         | |- context [execAlarm ?e ?ev ?al ?r ?d ?n ?a] =>
             let H := fresh "Hcall" in
             pose proof (execAlarm_Step_any e ev al r d n a) as H;
             destruct (execAlarm e ev al r d n a) as [[? ?] ?]; cbn [snd] in H
         end.
  repeat split_case; cbn [snd]; step.
Qed.

Lemma handleEvent_Step (env : Env) (eventID : string) (function : EventFunc)
      (app : KAlarmApp) :
  Step anyEffect app (snd (handleEvent env eventID function app)).
Proof.
  unfold handleEvent.
  destruct (calendar_event env (log app) eventID) as [event|]; [|cbn [snd]; step].
  assert (H : Step anyEffect app
                (snd (afterScan env eventID function
                        (scanAlarms env alarmLoopBound (clock app) (firstAlarm event)
                           (mkScan event invalidDateTime false false invalidAlarm app))))).
  { eapply Step_trans; [|apply afterScan_Step].
    exact (Step_weaken quiet anyEffect _ _ quiet_any
             (scanAlarms_Step env alarmLoopBound (clock app) (firstAlarm event)
                (mkScan event invalidDateTime false false invalidAlarm app))). }
  destruct function; [exact H | exact H | cbn [snd]; step].
Qed.

Lemma processEntry_Step (env : Env) (entry : DcopQEntry) (app : KAlarmApp) :
  Step anyEffect app (processEntry env entry app).
Proof.
  unfold processEntry.
  destruct (isEmpty (q_eventId entry)); [|apply handleEvent_Step].
  destruct (q_function entry); [step | | step].
  pose proof (execAlarm_Step_any env (q_event entry) (firstAlarm (q_event entry)) false
                (default_allowDefer env) (default_noPreAction env) app) as H.
  destruct (execAlarm env (q_event entry) (firstAlarm (q_event entry)) false
              (default_allowDefer env) (default_noPreAction env) app) as [[r e] a].
  exact H.
Qed.

(** The loop of [processQueue] runs once for each entry that is queued when
    it starts: with that much fuel it stops on an empty queue, and more fuel
    changes nothing. *)
Lemma drainQueue_empties (env : Env) (fuel : nat) (app : KAlarmApp) :
  (List.length (mDcopQueue app) <= fuel)%nat ->
  mDcopQueue (drainQueue env fuel app) = []
  /\ drainQueue env fuel app
     = drainQueue env (List.length (mDcopQueue app)) app.
Proof.
  revert app. induction fuel as [|fuel IH]; intros app Hlen.
  - destruct (mDcopQueue app) eqn:E; simpl in Hlen; [|lia].
    simpl. rewrite E. split; reflexivity.
  - cbn [drainQueue]. destruct (mDcopQueue app) as [|entry q] eqn:E.
    + split; [exact E|]. reflexivity.
    + pose proof (processEntry_Step env entry app) as (_ & _ & Hq & _).
      set (app1 := set_mDcopQueue (tl (mDcopQueue (processEntry env entry app)))
                                  (processEntry env entry app)).
      assert (Hq1 : mDcopQueue app1 = q).
      { unfold app1. simpl. rewrite Hq, E. reflexivity. }
      destruct (IH app1) as [H1 H2]; [rewrite Hq1; simpl in Hlen; lia|].
      split; [exact H1|].
      cbn [List.length drainQueue]. rewrite E. fold app1. rewrite H2, Hq1. reflexivity.
Qed.

(** ** The alarm loop *)

Lemma firstOfTypes_cases (e : KAEvent) (ts : list AlarmType) :
  firstOfTypes e ts = invalidAlarm
  \/ (In (firstOfTypes e ts) (ev_alarms e) /\ In (al_type (firstOfTypes e ts)) ts).
Proof.
  induction ts as [|t ts IH]; cbn [firstOfTypes]; [left; reflexivity|].
  destruct (alarmOfType e t) as [a|] eqn:E.
  - right. unfold alarmOfType in E. apply find_some in E. destruct E as [Hin Ht].
    split; [exact Hin|]. left. symmetry.
    destruct (AlarmType_eqb_spec (al_type a) t); [assumption | discriminate].
  - destruct IH as [IH|[IH1 IH2]]; [left; exact IH|]. right. split; [exact IH1|].
    right. exact IH2.
Qed.

Lemma valid_alarm_In (e : KAEvent) (ts : list AlarmType) :
  al_valid (firstOfTypes e ts) = true -> In (firstOfTypes e ts) (ev_alarms e).
Proof.
  intros V. destruct (firstOfTypes_cases e ts) as [H|[H _]]; [|exact H].
  rewrite H in V. discriminate.
Qed.

Lemma nextAlarm_rank (e : KAEvent) (a : KAAlarm) :
  al_valid a = true ->
  (typeRank (al_type (nextAlarm e a)) < typeRank (al_type a))%nat.
Proof.
  intros V. unfold nextAlarm.
  destruct (firstOfTypes_cases e (typesAfter (al_type a))) as [H|[_ H]].
  - rewrite H. unfold al_valid in V. destruct (al_type a); simpl in *; try lia; discriminate.
  - revert H. generalize (al_type (firstOfTypes e (typesAfter (al_type a)))).
    unfold al_valid in V.
    destruct (al_type a); simpl in *; try discriminate; intros t H;
      repeat (destruct H as [H|H]; [subst t; simpl; lia|]); contradiction.
Qed.

Lemma scanAlarms_more_fuel (env : Env) (now : KDateTime) (n : nat) :
  forall (alarm : KAAlarm) (st : Scan),
    (typeRank (al_type alarm) <= n)%nat ->
    scanAlarms env (S n) now alarm st = scanAlarms env n now alarm st.
Proof.
  induction n as [|n IH]; intros alarm st Hr.
  - cbn [scanAlarms]. unfold al_valid.
    destruct (al_type alarm); simpl in *; try lia; reflexivity.
  - change (scanAlarms env (S (S n)) now alarm st)
      with (if al_valid alarm
            then scanAlarms env (S n) now
                   (nextAlarm (sc_event (scanAlarm env now alarm st)) alarm)
                   (scanAlarm env now alarm st)
            else st).
    change (scanAlarms env (S n) now alarm st)
      with (if al_valid alarm
            then scanAlarms env n now
                   (nextAlarm (sc_event (scanAlarm env now alarm st)) alarm)
                   (scanAlarm env now alarm st)
            else st).
    destruct (al_valid alarm) eqn:V; [|reflexivity].
    apply IH.
    pose proof (nextAlarm_rank (sc_event (scanAlarm env now alarm st)) alarm V). lia.
Qed.

(** The alarm loop ends: [alarmLoopBound] iterations reach an invalid
    alarm, and any larger bound gives the same result. *)
Lemma scanAlarms_bound (env : Env) (now : KDateTime) (n : nat) (alarm : KAAlarm)
      (st : Scan) :
  (alarmLoopBound <= n)%nat ->
  scanAlarms env n now alarm st = scanAlarms env alarmLoopBound now alarm st.
Proof.
  intros H. induction H as [|n H IH]; [reflexivity|].
  rewrite scanAlarms_more_fuel; [exact IH|].
  unfold alarmLoopBound in H. destruct (al_type alarm); simpl; lia.
Qed.

Lemma atLoginFrom_refl (e : KAEvent) : atLoginFrom e e.
Proof. intros a H _. exact H. Qed.

Lemma atLoginFrom_trans (e1 e2 e3 : KAEvent) :
  atLoginFrom e1 e2 -> atLoginFrom e2 e3 -> atLoginFrom e1 e3.
Proof. intros H12 H23 a H3 Ha. apply H12; [apply H23|]; assumption. Qed.

Lemma atLoginFrom_same_alarms (e e' : KAEvent) :
  ev_alarms e' = ev_alarms e -> atLoginFrom e e'.
Proof. intros E a H _. rewrite E in H. exact H. Qed.

Lemma atLoginFrom_removeExpiredAlarm (e : KAEvent) (t : AlarmType) :
  atLoginFrom e (removeExpiredAlarm e t).
Proof.
  intros a H _. unfold removeExpiredAlarm in H. simpl in H.
  apply filter_In in H. apply H.
Qed.

Lemma atLoginFrom_setMainTime (e : KAEvent) (dt : KDateTime) :
  atLoginFrom e (setMainTime e dt).
Proof.
  intros a H Ha. unfold setMainTime in H. simpl in H.
  apply in_map_iff in H. destruct H as (a0 & E & Hin).
  destruct (AlarmType_eqb (al_type a0) MAIN_ALARM) eqn:T.
  - subst a. unfold al_repeatAtLogin in Ha. simpl in Ha.
    destruct (al_type a0); discriminate.
  - subst a. exact Hin.
Qed.

Ltac keeps :=
  lazymatch goal with
  | H : atLoginFrom ?a ?c |- atLoginFrom ?a ?c => exact H
  | |- atLoginFrom ?e ?e => apply atLoginFrom_refl
  | |- atLoginFrom _ (removeExpiredAlarm ?x _) =>
      apply atLoginFrom_trans with x; [keeps | apply atLoginFrom_removeExpiredAlarm]
  | |- atLoginFrom _ (setMainTime ?x _) =>
      apply atLoginFrom_trans with x; [keeps | apply atLoginFrom_setMainTime]
  | |- atLoginFrom _ (setArchive ?x) =>
      apply atLoginFrom_trans with x; [keeps | apply atLoginFrom_same_alarms; reflexivity]
  | |- atLoginFrom _ (setUpdated ?x) =>
      apply atLoginFrom_trans with x; [keeps | apply atLoginFrom_same_alarms; reflexivity]
  | |- atLoginFrom _ (cancelCancelledDeferral ?x) =>
      apply atLoginFrom_trans with x; [keeps | apply atLoginFrom_same_alarms; reflexivity]
  | H : atLoginFrom ?b ?c |- atLoginFrom _ ?c =>
      apply atLoginFrom_trans with b; [keeps | exact H]
  end.

Lemma cancelAlarm_atLogin (event : KAEvent) (alarmType : AlarmType) (updateNow : bool)
      (app : KAlarmApp) :
  atLoginFrom event (fst (cancelAlarm event alarmType updateNow app)).
Proof.
  unfold cancelAlarm. repeat split_case; cbn [fst]; keeps.
Qed.

Lemma rescheduleAlarm_atLogin (env : Env) (event : KAEvent) (alarm : KAAlarm)
      (updateNow : bool) (app : KAlarmApp) :
  atLoginFrom event (fst (rescheduleAlarm env event alarm updateNow app)).
Proof.
  unfold rescheduleAlarm.
  repeat first
    [ match goal with
      | |- context [cancelAlarm ?ev ?t ?u ?a] =>
          let H := fresh "Hcall" in
          pose proof (cancelAlarm_atLogin ev t u a) as H;
          destruct (cancelAlarm ev t u a) as [? ?]; cbn [fst] in H
      end
    | split_case ];
    cbn [fst]; keeps.
Qed.

Lemma scanAlarm_atLogin_skip (env : Env) (now : KDateTime) (alarm : KAAlarm) (st : Scan) :
  al_repeatAtLogin alarm = true ->
  secsTo (al_dateTime alarm) now < maxLateness env 1 ->
  scanAlarm env now alarm st = st.
Proof.
  intros Ha Hrecent. unfold scanAlarm.
  assert (Hd : al_deferred alarm = false).
  { unfold al_deferred, al_repeatAtLogin in *. destruct (al_type alarm); try discriminate.
    reflexivity. }
  rewrite Hd, Ha. cbn [andb].
  apply Z.ltb_lt in Hrecent. rewrite Hrecent.
  destruct (_ && _); reflexivity.
Qed.

Lemma scanAlarm_keeps_atLogin (env : Env) (now : KDateTime) (alarm : KAAlarm) (st : Scan) :
  atLoginFrom (sc_event st) (sc_event (scanAlarm env now alarm st)).
Proof.
  unfold scanAlarm.
  repeat first
    [ match goal with
      | |- context [cancelAlarm ?ev ?t ?u ?a] =>
          let H := fresh "Hcall" in
          pose proof (cancelAlarm_atLogin ev t u a) as H;
          destruct (cancelAlarm ev t u a) as [? ?]; cbn [fst] in H
      | |- context [rescheduleAlarm ?e ?ev ?al ?u ?a] =>
          let H := fresh "Hcall" in
          pose proof (rescheduleAlarm_atLogin e ev al u a) as H;
          destruct (rescheduleAlarm e ev al u a) as [? ?]; cbn [fst] in H
      end
    | split_case ];
    cbn [sc_event]; keeps.
Qed.

Lemma scanAlarm_selects_other (env : Env) (now : KDateTime) (alarm : KAAlarm) (st : Scan) :
  al_repeatAtLogin alarm = false ->
  al_repeatAtLogin (sc_alarmToExecute st) = false ->
  al_repeatAtLogin (sc_alarmToExecute (scanAlarm env now alarm st)) = false.
Proof.
  intros Ha Hst. unfold scanAlarm. rewrite Ha. cbn [andb].
  repeat split_case; cbn [sc_alarmToExecute]; try assumption; try reflexivity.
Qed.

Lemma atLoginRecent_from (env : Env) (now : KDateTime) (e e' : KAEvent) :
  atLoginFrom e e' -> atLoginRecent env now e -> atLoginRecent env now e'.
Proof. intros H Hr a Hin Ha. apply Hr; [apply H|]; assumption. Qed.

Lemma scanAlarms_atLogin (env : Env) (now : KDateTime) (fuel : nat) :
  forall (alarm : KAAlarm) (st : Scan),
    atLoginRecent env now (sc_event st) ->
    (al_valid alarm = true -> In alarm (ev_alarms (sc_event st))) ->
    al_repeatAtLogin (sc_alarmToExecute st) = false ->
    al_repeatAtLogin (sc_alarmToExecute (scanAlarms env fuel now alarm st)) = false.
Proof.
  induction fuel as [|fuel IH]; intros alarm st Hrecent Hin Hsel; cbn [scanAlarms];
    [exact Hsel|].
  destruct (al_valid alarm) eqn:V; [|exact Hsel].
  apply IH.
  - apply (atLoginRecent_from env now (sc_event st)); [|exact Hrecent].
    apply scanAlarm_keeps_atLogin.
  - intros V'. apply valid_alarm_In. exact V'.
  - destruct (al_repeatAtLogin alarm) eqn:Ha.
    + rewrite scanAlarm_atLogin_skip; [exact Hsel | exact Ha |].
      apply Hrecent; [apply Hin; reflexivity | exact Ha].
    + apply scanAlarm_selects_other; assumption.
Qed.

Lemma quiet_not_exec (l : list Effect) (e : KAEvent) (a : KAAlarm) (r d n : bool) :
  forallb quiet l = true -> ~ In (Exec_alarm e a r d n) l.
Proof.
  intros H Hin. rewrite forallb_forall in H. specialize (H _ Hin). discriminate.
Qed.

Lemma execAlarm_log (env : Env) (event : KAEvent) (alarm : KAAlarm)
      (reschedule allowDefer noPreAction : bool) (app : KAlarmApp) :
  exists l,
    log (snd (execAlarm env event alarm reschedule allowDefer noPreAction app))
    = log app ++ Exec_alarm event alarm reschedule allowDefer noPreAction :: l
    /\ forallb (if reschedule then quiet else passive) l = true.
Proof.
  destruct (Step_log _ _ _
              (execAlarm_Step env event alarm reschedule allowDefer noPreAction app))
    as (l & Hl & Hp).
  exists l. split; [|exact Hp]. rewrite Hl. simpl. rewrite <- app_assoc. reflexivity.
Qed.

Lemma execAlarm_log_quiet (env : Env) (event : KAEvent) (alarm : KAAlarm)
      (reschedule allowDefer noPreAction : bool) (app : KAlarmApp) :
  exists l,
    log (snd (execAlarm env event alarm reschedule allowDefer noPreAction app))
    = log app ++ Exec_alarm event alarm reschedule allowDefer noPreAction :: l
    /\ forallb quiet l = true.
Proof.
  destruct (execAlarm_log env event alarm reschedule allowDefer noPreAction app)
    as (l & Hl & Hp).
  exists l. split; [exact Hl|]. destruct reschedule; [exact Hp|].
  rewrite forallb_forall in *. intros x Hx. apply passive_quiet, Hp, Hx.
Qed.

(** C6, as the code has it.  When for every at-login alarm of the event the
    number of seconds from its due time to the current time fits the [int]
    in which the code holds it and is less than [maxLateness(1)], the alarm
    loop of [handleEvent] passes over each of them without any change to
    its state, the alarm it selects for execution is not an at-login alarm,
    and with any function other than TRIGGER every call of [execAlarm] that
    [handleEvent] makes is for an alarm that is not at-login. *)
Theorem handleEvent_atLogin_skipped (env : Env) (eventID : string) (app : KAlarmApp)
        (event : KAEvent) :
  calendar_event env (log app) eventID = Some event ->
  (forall a, In a (ev_alarms event) -> al_repeatAtLogin a = true ->
             Int.in_range (dt_secs (clock app) - dt_secs (al_dateTime a))
             /\ dt_secs (clock app) - dt_secs (al_dateTime a) < maxLateness env 1) ->
  (forall (a : KAAlarm) (st : Scan),
      In a (ev_alarms event) -> al_repeatAtLogin a = true ->
      scanAlarm env (clock app) a st = st)
  /\ al_repeatAtLogin
       (sc_alarmToExecute
          (scanAlarms env alarmLoopBound (clock app) (firstAlarm event)
                      (mkScan event invalidDateTime false false invalidAlarm app)))
     = false
  /\ (forall (function : EventFunc) (e : KAEvent) (a : KAAlarm) (r d n : bool),
         function <> EVENT_TRIGGER ->
         In (Exec_alarm e a r d n) (log (snd (handleEvent env eventID function app))) ->
         In (Exec_alarm e a r d n) (log app) \/ al_repeatAtLogin a = false).
Proof.
  intros Hcal Hreal.
  assert (Hrecent : forall a, In a (ev_alarms event) -> al_repeatAtLogin a = true ->
                              secsTo (al_dateTime a) (clock app) < maxLateness env 1).
  { intros a Hin Ha. destruct (Hreal a Hin Ha) as [Hint Hlt].
    rewrite (secsTo_in_range _ _ Hint). exact Hlt. }
  assert (Hsel :
    al_repeatAtLogin
      (sc_alarmToExecute
         (scanAlarms env alarmLoopBound (clock app) (firstAlarm event)
                     (mkScan event invalidDateTime false false invalidAlarm app)))
    = false).
  { apply scanAlarms_atLogin.
    - exact Hrecent.
    - intros V. apply valid_alarm_In. exact V.
    - reflexivity. }
  split; [|split; [exact Hsel|]].
  - intros a st Hin Ha. apply scanAlarm_atLogin_skip; [exact Ha|].
    apply Hrecent; assumption.
  - intros function e a r d n Hfun Hin.
    unfold handleEvent in Hin. rewrite Hcal in Hin.
    set (st := scanAlarms env alarmLoopBound (clock app) (firstAlarm event)
                          (mkScan event invalidDateTime false false invalidAlarm app))
      in *.
    destruct (Step_log _ _ _
                (scanAlarms_Step env alarmLoopBound (clock app) (firstAlarm event)
                   (mkScan event invalidDateTime false false invalidAlarm app)))
      as (l1 & Hl1 & Hq1).
    fold st in Hl1. cbn [sc_app] in Hl1.
    assert (Hafter :
      In (Exec_alarm e a r d n) (log (snd (afterScan env eventID function st))) ->
      In (Exec_alarm e a r d n) (log app) \/ al_repeatAtLogin a = false).
    { clear Hin. intros Hin. unfold afterScan in Hin.
      destruct (al_valid (sc_alarmToExecute st)).
      - destruct (execAlarm_log_quiet env (sc_event st) (sc_alarmToExecute st) true
                    (negb (al_repeatAtLogin (sc_alarmToExecute st)))
                    (default_noPreAction env) (sc_app st)) as (l2 & Hl2 & Hq2).
        destruct (execAlarm env (sc_event st) (sc_alarmToExecute st) true
                    (negb (al_repeatAtLogin (sc_alarmToExecute st)))
                    (default_noPreAction env) (sc_app st)) as [[r0 e0] a0].
        cbn [snd] in *. rewrite Hl2, Hl1 in Hin.
        apply in_app_or in Hin. destruct Hin as [Hin|Hin].
        + apply in_app_or in Hin. destruct Hin as [Hin|Hin]; [left; exact Hin|].
          exfalso. exact (quiet_not_exec _ _ _ _ _ _ Hq1 Hin).
        + destruct Hin as [Hin|Hin].
          * inversion Hin; subst. right. exact Hsel.
          * exfalso. exact (quiet_not_exec _ _ _ _ _ _ Hq2 Hin).
      - assert (Hlog : forall ev,
                  In (Exec_alarm e a r d n) (log (sc_app st)) \/
                  In (Exec_alarm e a r d n) (log (emit (KAlarm_updateEvent ev) (sc_app st))) \/
                  In (Exec_alarm e a r d n) (log (emit (Daemon_eventHandled eventID) (sc_app st))) ->
                  In (Exec_alarm e a r d n) (log app)).
        { intros ev H. simpl in H. rewrite Hl1 in H.
          assert (H' : In (Exec_alarm e a r d n) (log app ++ l1)).
          { destruct H as [H|[H|H]]; [exact H| |];
              apply in_app_or in H; destruct H as [H|[H|[]]];
                try exact H; discriminate. }
          apply in_app_or in H'. destruct H' as [H'|H']; [exact H'|].
          exfalso. exact (quiet_not_exec _ _ _ _ _ _ Hq1 H'). }
        left. destruct function; try congruence;
          destruct (sc_updateCalAndDisplay st); cbn [snd] in Hin;
            apply (Hlog (sc_event st)); auto. }
    destruct function; [apply Hafter; exact Hin | congruence |].
    cbn [snd] in Hin. simpl in Hin. apply in_app_or in Hin.
    destruct Hin as [Hin|[Hin|[]]]; [left; exact Hin | discriminate].
Qed.

Lemma execAlarm_event_unscheduled (env : Env) (event : KAEvent) (alarm : KAAlarm)
      (allowDefer noPreAction : bool) (app : KAlarmApp) :
  ev_alarms (snd (fst (execAlarm env event alarm false allowDefer noPreAction app)))
  = ev_alarms event.
Proof.
  unfold execAlarm.
  repeat first
    [ match goal with
      | |- context [doShellCommand ?e ?c ?ev ?al ?f ?a] =>
          destruct (doShellCommand e c ev al f a) as [? ?]
      | |- context [createTempScriptFile ?e ?c ?i ?ev ?al ?a] =>
          destruct (createTempScriptFile e c i ev al a) as [? ?]
      end
    | split_case ];
    reflexivity.
Qed.

Lemma File_remove_mute (files : list string) :
  forallb mute (map File_remove files) = true.
Proof. induction files as [|f files IH]; [reflexivity | exact IH]. Qed.

Lemma createTempScriptFile_mute (env : Env) (command : string) (insertShell : bool)
      (event : KAEvent) (alarm : KAAlarm) (app : KAlarmApp) :
  Step mute app (snd (createTempScriptFile env command insertShell event alarm app)).
Proof.
  unfold createTempScriptFile.
  destruct (KTemporaryFile_write env (log app) _); cbn [snd]; step.
Qed.

Lemma xtermCommand_mute (env : Env) (command : string) (event : KAEvent)
      (alarm : option KAAlarm) (flags : Z) (app : KAlarmApp) :
  Step mute app (snd (xtermCommand env command event alarm flags app)).
Proof.
  unfold xtermCommand.
  destruct (hasFlag flags EXEC_IN_XTERM); [|cbn [snd]; step].
  destruct (contains "%C" _).
  { destruct (hasFlag flags TEMP_FILE); [cbn [snd]; step|].
    match goal with
    | |- context [createTempScriptFile ?e ?c ?i ?ev ?al ?a] =>
        pose proof (createTempScriptFile_mute e c i ev al a) as H;
        destruct (createTempScriptFile e c i ev al a) as [tmp app1]
    end.
    cbn [snd] in H. destruct (isEmpty tmp); cbn [snd]; step. }
  destruct (contains "%W" _).
  { match goal with
    | |- context [createTempScriptFile ?e ?c ?i ?ev ?al ?a] =>
        pose proof (createTempScriptFile_mute e c i ev al a) as H;
        destruct (createTempScriptFile e c i ev al a) as [tmp app1]
    end.
    cbn [snd] in H. destruct (isEmpty tmp); cbn [snd]; step. }
  destruct (contains "%w" _); [cbn [snd]; step|].
  destruct (contains "%c" _); cbn [snd]; step.
Qed.

Lemma startLogProcess_mute (env : Env) (event : KAEvent) (alarm : option KAAlarm)
      (comms : Communication) (app : KAlarmApp) :
  Step mute app (snd (startLogProcess env event alarm comms app)).
Proof.
  unfold startLogProcess.
  destruct comms; try (cbn [snd]; step).
  destruct (negb (isEmpty (ev_logFile event))); [|cbn [snd]; step].
  pose proof (Step_newShellProcess mute (String.append "cat >>" (ev_logFile event))
                app app (Step_refl _ _)) as H.
  destruct (newShellProcess (String.append "cat >>" (ev_logFile event)) app) as [lp app1].
  cbn [snd] in *. step.
Qed.

Lemma doShellCommand_mute (env : Env) (command : string) (event : KAEvent)
      (alarm : option KAAlarm) (flags : Z) (app : KAlarmApp) :
  Step mute app (snd (doShellCommand env command event alarm flags app)).
Proof.
  unfold doShellCommand.
  pose proof (xtermCommand_mute env command event alarm flags app) as H.
  destruct (xtermCommand env command event alarm flags app) as [[[[cmd comms] tmp]|] app1];
    cbn [snd] in H; [|cbn [snd]; step].
  pose proof (Step_newShellProcess mute cmd app1 app1 (Step_refl _ _)) as H2.
  destruct (newShellProcess cmd app1) as [proc app2]. cbn [snd] in H2.
  pose proof (startLogProcess_mute env event alarm comms app2) as H3.
  destruct (startLogProcess env event alarm comms app2) as [logproc app3].
  cbn [snd] in H3.
  assert (H13 : Step mute app app3).
  { apply Step_trans with app2; [|exact H3]. apply Step_trans with app1; assumption. }
  clear H H2 H3.
  match goal with
  | |- context [if ?c then _ else _] => destruct c
  end; cbn [snd]; [step|].
  apply Step_trans with
    (set_mCommandProcesses (mCommandProcesses app3) app3).
  { apply Step_set_procs; [exact H13|]. apply (Step_procs mute). exact H13. }
  unfold commandErrorMsg. cbn [emit mCommandProcesses set_mCommandProcesses].
  rewrite removelast_last.
  unfold deleteProcData.
  apply Step_emit; [reflexivity|].
  apply Step_emits; [apply File_remove_mute|].
  unfold Step. simpl. repeat split.
  - eexists. split; [rewrite <- app_assoc; reflexivity|]. reflexivity.
  - exists []. rewrite app_nil_r. reflexivity.
Qed.

Lemma mute_forced (flags : Z) (raised : bool) (x : Effect) :
  mute x = true -> forcedEffect flags raised x = true.
Proof.
  unfold mute, forcedEffect. destruct x; cbn; intros H;
    repeat rewrite andb_false_r in H; try discriminate H;
    try (apply andb_prop in H; destruct H as [H _]);
    try (apply andb_prop in H; destruct H as [H _]);
    try (rewrite andb_true_r); try exact H; try reflexivity.
Qed.

Lemma forcedEffect_show (flags : Z) (raised : bool) (e : KAEvent) (a : KAAlarm) :
  forcedEffect flags raised (MessageWin_show e a flags) = true.
Proof. unfold forcedEffect. cbn. apply Z.eqb_refl. Qed.

(** What [execAlarm] does when it is called without rescheduling. *)
Lemma execAlarm_forced (env : Env) (event : KAEvent) (alarm : KAAlarm)
      (allowDefer noPreAction : bool) (app : KAlarmApp) :
  let call := Exec_alarm event alarm false allowDefer noPreAction in
  let flags := Z.lor (NO_RESCHEDULE env) (if allowDefer then 0 else NO_DEFER env) in
  let raised := match MessageWin_findEvent env (log app ++ [call]) (ev_id event) with
                | Some _ => true
                | None => false
                end in
  Step (forcedEffect flags raised) (emit call app)
       (snd (execAlarm env event alarm false allowDefer noPreAction app)).
Proof.
  cbv zeta. unfold execAlarm.
  set (app0 := emit (Exec_alarm event alarm false allowDefer noPreAction) app).
  set (flags := Z.lor (NO_RESCHEDULE env) (if allowDefer then 0 else NO_DEFER env)).
  change (log app ++ [Exec_alarm event alarm false allowDefer noPreAction]) with (log app0).
  change (ev_id event) with (ev_id (setArchive event)).
  destruct (negb (ev_enabled event)); [cbn [snd]; apply Step_refl|].
  assert (Hdisplay :
    Step (forcedEffect flags
            match MessageWin_findEvent env (log app0) (ev_id (setArchive event)) with
            | Some _ => true
            | None => false
            end) app0
      (snd
         (let win := MessageWin_findEvent env (log app0) (ev_id (setArchive event)) in
          let '(launched, app1) :=
            match win with
            | None =>
                if negb noPreAction && negb (isEmpty (ev_preAction (setArchive event)))
                   && ShellProcess_authorised env
                then
                  let '(proc, app1) :=
                    doShellCommand env (ev_preAction (setArchive event)) (setArchive event)
                      (Some alarm)
                      (Z.lor (Z.lor 0 (if allowDefer then ALLOW_DEFER else 0)) PRE_ACTION)
                      app0 in
                  (match proc with Some _ => true | None => false end, app1)
                else (false, app0)
            | Some _ => (false, app0)
            end in
          if launched then (Exec_done, setArchive event, app1)
          else if negb (ev_enabled (setArchive event))
               then match win with
                    | Some _ =>
                        (Exec_done, setArchive event,
                         emit (MessageWin_delete (ev_id (setArchive event)) false) app1)
                    | None => (Exec_done, setArchive event, app1)
                    end
               else
                 if match win with
                    | None => true
                    | Some w => negb (mw_hasDefer w) && negb (al_repeatAtLogin alarm)
                                || AlarmType_eqb (mw_alarmType w) REMINDER_ALARM
                                   && negb (al_reminder alarm)
                    end
                 then (Exec_done, setArchive event,
                       emit (MessageWin_show (setArchive event) alarm flags)
                            match win with
                            | Some _ =>
                                emit (MessageWin_delete (ev_id (setArchive event)) true) app1
                            | None => app1
                            end)
                 else (Exec_done, setArchive event,
                       emit (MessageWin_repeat (ev_id (setArchive event)) alarm) app1)))).
  { cbv zeta.
    destruct (MessageWin_findEvent env (log app0) (ev_id (setArchive event))) as [w|].
    - destruct (negb (ev_enabled (setArchive event))); [cbn [snd]; step|].
      destruct (_ || _); cbn [snd].
      + apply Step_emit; [apply forcedEffect_show | step].
      + step.
    - assert (Hshow : forall a, Step (forcedEffect flags false) app0 a ->
                Step (forcedEffect flags false) app0
                  (snd (if negb (ev_enabled (setArchive event))
                        then (Exec_done, setArchive event, a)
                        else (Exec_done, setArchive event,
                              emit (MessageWin_show (setArchive event) alarm flags) a)))).
      { intros a Ha. destruct (negb (ev_enabled (setArchive event))); cbn [snd]; [exact Ha|].
        apply Step_emit; [apply forcedEffect_show | exact Ha]. }
      destruct (negb noPreAction && negb (isEmpty (ev_preAction (setArchive event)))
                && ShellProcess_authorised env).
      + pose proof (doShellCommand_mute env (ev_preAction (setArchive event))
                      (setArchive event) (Some alarm)
                      (Z.lor (Z.lor 0 (if allowDefer then ALLOW_DEFER else 0)) PRE_ACTION)
                      app0) as Hd.
        apply (Step_weaken mute (forcedEffect flags false) _ _ (mute_forced flags false)) in Hd.
        destruct (doShellCommand env (ev_preAction (setArchive event)) (setArchive event)
                    (Some alarm)
                    (Z.lor (Z.lor 0 (if allowDefer then ALLOW_DEFER else 0)) PRE_ACTION)
                    app0) as [[proc|] app1]; cbn [snd] in Hd.
        * cbn [snd]. exact Hd.
        * apply (Hshow app1 Hd).
      + apply (Hshow app0 (Step_refl _ _)). }
  destruct (al_action alarm).
  - exact Hdisplay.
  - exact Hdisplay.
  - clear Hdisplay.
    set (raised := match MessageWin_findEvent env (log app0) (ev_id (setArchive event)) with
                   | Some _ => true
                   | None => false
                   end).
    destruct (ev_commandScript (setArchive event)).
    + pose proof (createTempScriptFile_mute env (ev_cleanText (setArchive event)) false
                    (setArchive event) alarm app0) as Ht.
      apply (Step_weaken mute (forcedEffect flags raised) _ _ (mute_forced flags raised)) in Ht.
      destruct (createTempScriptFile env (ev_cleanText (setArchive event)) false
                  (setArchive event) alarm app0) as [tmp app1]. cbn [snd] in Ht.
      destruct (isEmpty tmp).
      * cbn [snd]. step.
      * match goal with
        | |- context [doShellCommand ?e ?c ?ev ?al ?f ?a] =>
            pose proof (doShellCommand_mute e c ev al f a) as Hd;
            apply (Step_weaken mute (forcedEffect flags raised) _ _
                     (mute_forced flags raised)) in Hd;
            destruct (doShellCommand e c ev al f a) as [? ?]; cbn [snd] in Hd
        end.
        cbn [snd]. step.
    + match goal with
      | |- context [doShellCommand ?e ?c ?ev ?al ?f ?a] =>
          pose proof (doShellCommand_mute e c ev al f a) as Hd;
          apply (Step_weaken mute (forcedEffect flags raised) _ _
                   (mute_forced flags raised)) in Hd;
          destruct (doShellCommand e c ev al f a) as [? ?]; cbn [snd] in Hd
      end.
      cbn [snd]. step.
  - clear Hdisplay.
    destruct (KAMail_send_result env _ _ _) as [sent errmsgs].
    destruct (negb (isNil errmsgs)); cbn [snd]; step.
  - cbn [snd]. apply Step_refl.
Qed.

Lemma forcedEffect_passive (flags : Z) (raised : bool) (x : Effect) :
  forcedEffect flags raised x = true -> passive x = true.
Proof. unfold forcedEffect. intros H. apply andb_prop in H. apply H. Qed.

Lemma execAlarm_forced_log (env : Env) (event : KAEvent) (alarm : KAAlarm)
      (allowDefer noPreAction : bool) (app : KAlarmApp) :
  let call := Exec_alarm event alarm false allowDefer noPreAction in
  exists l,
    log (snd (execAlarm env event alarm false allowDefer noPreAction app))
    = log app ++ call :: l
    /\ forallb passive l = true
    /\ (forall e a flags,
           In (MessageWin_show e a flags) l ->
           flags = Z.lor (NO_RESCHEDULE env) (if allowDefer then 0 else NO_DEFER env))
    /\ (MessageWin_findEvent env (log app ++ [call]) (ev_id event) = None ->
        forall id a, ~ In (MessageWin_repeat id a) l).
Proof.
  cbv zeta.
  destruct (Step_log _ _ _ (execAlarm_forced env event alarm allowDefer noPreAction app))
    as (l & Hl & Hp).
  exists l. split; [|split; [|split]].
  - rewrite Hl. cbn [log emit]. rewrite <- app_assoc. reflexivity.
  - rewrite forallb_forall in *. intros x Hx.
    eapply forcedEffect_passive. apply Hp. exact Hx.
  - intros e a flags Hin. rewrite forallb_forall in Hp. specialize (Hp _ Hin).
    unfold forcedEffect in Hp. cbn in Hp. apply Z.eqb_eq in Hp. exact Hp.
  - intros Hnone id a Hin. rewrite forallb_forall in Hp. specialize (Hp _ Hin).
    rewrite Hnone in Hp. discriminate Hp.
Qed.

(** C7, as the code has it.  When the alarm loop has selected no alarm,
    [handleEvent] with TRIGGER looks at the first alarm that the event has
    after the loop.  If there is one, [execAlarm] is entered once, on that
    alarm, with [reschedule = false]; nothing that this call does enters
    [execAlarm] again or changes the calendar; every alarm window that it
    shows is created with [MessageWin::NO_RESCHEDULE]; unless a window for
    the event is already displayed it makes no call of
    [MessageWin::repeat], the one call of [execAlarm] that reschedules on
    its own; and the event keeps its alarm instances.  If there is no
    alarm, nothing is executed.  Afterwards the event is written back only
    if the loop itself had marked the calendar for an update. *)
Theorem handleEvent_trigger_forced (env : Env) (eventID : string) (app : KAlarmApp)
        (event : KAEvent) :
  calendar_event env (log app) eventID = Some event ->
  let st := scanAlarms env alarmLoopBound (clock app) (firstAlarm event)
                       (mkScan event invalidDateTime false false invalidAlarm app) in
  al_valid (sc_alarmToExecute st) = false ->
  let alarm := firstAlarm (sc_event st) in
  let call := Exec_alarm (sc_event st) alarm false (default_allowDefer env)
                         (default_noPreAction env) in
  let forced := execAlarm env (sc_event st) alarm false (default_allowDefer env)
                          (default_noPreAction env) (sc_app st) in
  let event1 := if al_valid alarm then snd (fst forced) else sc_event st in
  let app1 := if al_valid alarm then snd forced else sc_app st in
  handleEvent env eventID EVENT_TRIGGER app
  = (true, if sc_updateCalAndDisplay st
           then emit (KAlarm_updateEvent event1) app1 else app1)
  /\ (al_valid alarm = true ->
      exists l,
        log app1 = log (sc_app st) ++ call :: l
        /\ forallb passive l = true
        /\ (forall e a flags,
               In (MessageWin_show e a flags) l ->
               flags = Z.lor (NO_RESCHEDULE env)
                             (if default_allowDefer env then 0 else NO_DEFER env))
        /\ (MessageWin_findEvent env (log (sc_app st) ++ [call]) (ev_id (sc_event st))
            = None ->
            forall id a, ~ In (MessageWin_repeat id a) l))
  /\ (al_valid alarm = false -> app1 = sc_app st)
  /\ ev_alarms event1 = ev_alarms (sc_event st).
Proof.
  intros Hcal st Hnone alarm call forced event1 app1.
  split; [|split; [|split]].
  - unfold handleEvent. rewrite Hcal. cbv zeta. fold st.
    unfold afterScan. rewrite Hnone. fold alarm.
    unfold event1, app1, forced.
    destruct (al_valid alarm).
    + destruct (execAlarm env (sc_event st) alarm false (default_allowDefer env)
                  (default_noPreAction env) (sc_app st)) as [[r e] a].
      cbn [fst snd]. destruct (sc_updateCalAndDisplay st); reflexivity.
    + destruct (sc_updateCalAndDisplay st); reflexivity.
  - intros V. unfold app1, forced. rewrite V.
    exact (execAlarm_forced_log env (sc_event st) alarm (default_allowDefer env)
             (default_noPreAction env) (sc_app st)).
  - intros V. unfold app1. rewrite V. reflexivity.
  - unfold event1, forced. destruct (al_valid alarm); [|reflexivity].
    apply execAlarm_event_unscheduled.
Qed.

(** ** Command execution tracker *)

Lemma findProcess_nth (proc : nat) (l : list ProcData) :
  forall (k i : nat) (pd : ProcData),
    findProcess proc k l = Some (i, pd) ->
    (k <= i)%nat /\ nth_error l (i - k) = Some pd.
Proof.
  induction l as [|x l IH]; intros k i pd H; cbn [findProcess] in H; [discriminate|].
  destruct (Nat.eqb (sp_id (pd_process x)) proc).
  - inversion H; subst. split; [lia|]. rewrite Nat.sub_diag. reflexivity.
  - apply IH in H. destruct H as [Hk Hn]. split; [lia|].
    replace (i - k)%nat with (S (i - S k)) by lia. exact Hn.
Qed.

Lemma removeAt_app (A : Type) (i : nat) (l extra : list A) :
  (i < List.length l)%nat -> removeAt i (l ++ extra) = removeAt i l ++ extra.
Proof.
  intros H. unfold removeAt.
  rewrite firstn_app, skipn_app.
  replace (i - List.length l)%nat with 0%nat by lia.
  replace (S i - List.length l)%nat with 0%nat by lia.
  simpl. rewrite app_nil_r, <- app_assoc. reflexivity.
Qed.

Lemma execCalls_quiet (l : list Effect) : forallb quiet l = true -> execCalls l = [].
Proof.
  induction l as [|x l IH]; intros H; [reflexivity|].
  simpl in H. apply andb_prop in H. destruct H as [Hx Hl].
  unfold execCalls. simpl. unfold quiet in Hx.
  destruct (isExec x); [discriminate|]. apply IH. exact Hl.
Qed.

Lemma quitIf_tail (env : Env) (code : Z) (app : KAlarmApp) :
  mCommandProcesses (quitIf env code app) = mCommandProcesses app
  /\ exists l, log (quitIf env code app) = log app ++ l /\ forallb quiet l = true.
Proof.
  unfold quitIf.
  repeat split_case; simpl; split; try reflexivity;
    first [ exists []; rewrite app_nil_r; split; reflexivity
          | eexists; split; reflexivity ].
Qed.

Lemma slotCommandExited_runs_alarm (env : Env) (proc : nat) (errorMessage : string)
        (app : KAlarmApp) (i : nat) (pd : ProcData) (alarm : KAAlarm) :
  findProcess proc 0 (mCommandProcesses app) = Some (i, pd) ->
  pd_preAction pd = true ->
  pd_alarm pd = Some alarm ->
  let call := Exec_alarm (pd_event pd) alarm (pd_reschedule pd) (pd_allowDefer pd) true in
  let app' := slotCommandExited env proc true errorMessage app in
  execCalls (log app') = execCalls (log app) ++ [call]
  /\ (exists before after quitting,
         log app' = log app ++ before ++ call :: after
                    ++ map File_remove (pd_tempFiles pd)
                    ++ Process_delete (sp_id (pd_process pd)) :: quitting
         /\ forallb quiet before = true
         /\ forallb quiet after = true
         /\ forallb quiet quitting = true)
  /\ nth_error (mCommandProcesses app) i = Some pd
  /\ (exists extra, mCommandProcesses app' = removeAt i (mCommandProcesses app) ++ extra).
Proof.
  intros Hfind Hpre Halarm call app'.
  destruct (findProcess_nth proc _ _ _ _ Hfind) as [_ Hnth].
  rewrite Nat.sub_0_r in Hnth.
  assert (Hi : (i < List.length (mCommandProcesses app))%nat).
  { apply nth_error_Some. rewrite Hnth. discriminate. }
  set (app0 := match pd_logProcess pd with
               | Some lp => emit (Process_stdinExit lp) app
               | None => app
               end).
  assert (H0 : Step quiet app app0).
  { unfold app0. destruct (pd_logProcess pd); step. }
  pose proof (execAlarm_Step env (pd_event pd) alarm (pd_reschedule pd) (pd_allowDefer pd)
                true app0) as H1.
  assert (H1q : Step quiet
                  (emit call app0)
                  (snd (execAlarm env (pd_event pd) alarm (pd_reschedule pd)
                          (pd_allowDefer pd) true app0))).
  { destruct (pd_reschedule pd); [exact H1|].
    exact (Step_weaken passive quiet _ _ passive_quiet H1). }
  clear H1.
  set (app1 := snd (execAlarm env (pd_event pd) alarm (pd_reschedule pd)
                      (pd_allowDefer pd) true app0)) in *.
  set (app3 := deleteProcData pd
                 (set_mCommandProcesses (removeAt i (mCommandProcesses app1)) app1)).
  assert (Happ' : app' = if mPendingQuit app3 && isNil (mCommandProcesses app3)
                         then quitIf env (mPendingQuitCode app3) app3 else app3).
  { unfold app', slotCommandExited. rewrite Hfind. cbn [negb].
    rewrite Hpre, Halarm. fold app0.
    unfold app3, app1.
    destruct (execAlarm env (pd_event pd) alarm (pd_reschedule pd)
                (pd_allowDefer pd) true app0) as [[r e] a].
    reflexivity. }
  destruct (Step_log _ _ _ H0) as (before & Hb & Hbq).
  destruct (Step_log _ _ _ H1q) as (after & Ha & Haq).
  destruct (Step_procs _ _ _ H0) as (x0 & Hx0).
  destruct (Step_procs _ _ _ H1q) as (x1 & Hx1).
  assert (Hprocs0 : mCommandProcesses app0 = mCommandProcesses app).
  { unfold app0. destruct (pd_logProcess pd); reflexivity. }
  assert (Hlog3 : log app3 = log app ++ before ++ call :: after
                             ++ map File_remove (pd_tempFiles pd)
                             ++ [Process_delete (sp_id (pd_process pd))]).
  { unfold app3, deleteProcData. rewrite log_emit, log_emits.
    cbn [log set_mCommandProcesses]. rewrite Ha. cbn [log emit]. rewrite Hb.
    rewrite <- !app_assoc. reflexivity. }
  assert (Hprocs3 : mCommandProcesses app3
                    = removeAt i (mCommandProcesses app) ++ x1).
  { unfold app3, deleteProcData.
    assert (Hkeep : forall xs a, mCommandProcesses (emits xs a) = mCommandProcesses a).
    { induction xs as [|x xs IH]; intros a; [reflexivity|]. unfold emits in *. simpl.
      rewrite IH. reflexivity. }
    cbn [mCommandProcesses emit]. rewrite Hkeep. cbn [mCommandProcesses set_mCommandProcesses].
    rewrite Hx1. cbn [mCommandProcesses emit]. rewrite Hprocs0.
    apply removeAt_app. exact Hi. }
  assert (Hfinal : mCommandProcesses app' = mCommandProcesses app3
                   /\ exists quitting, log app' = log app3 ++ quitting
                                       /\ forallb quiet quitting = true).
  { rewrite Happ'. destruct (mPendingQuit app3 && isNil (mCommandProcesses app3)).
    - apply quitIf_tail.
    - split; [reflexivity|]. exists []. rewrite app_nil_r. split; reflexivity. }
  destruct Hfinal as (Hp' & quitting & Hl' & Hq').
  assert (Hlog' : log app' = log app ++ before ++ call :: after
                             ++ map File_remove (pd_tempFiles pd)
                             ++ Process_delete (sp_id (pd_process pd)) :: quitting).
  { rewrite Hl', Hlog3.
    repeat (rewrite <- app_assoc || rewrite <- app_comm_cons). reflexivity. }
  split; [|split; [|split]].
  - rewrite Hlog'. rewrite !execCalls_app.
    change (execCalls (call :: after ++ map File_remove (pd_tempFiles pd)
                         ++ Process_delete (sp_id (pd_process pd)) :: quitting))
      with (call :: execCalls (after ++ map File_remove (pd_tempFiles pd)
                                 ++ Process_delete (sp_id (pd_process pd)) :: quitting)).
    rewrite !execCalls_app.
    rewrite (execCalls_quiet before Hbq), (execCalls_quiet after Haq).
    rewrite (execCalls_quiet (map File_remove (pd_tempFiles pd))).
    + change (execCalls (Process_delete (sp_id (pd_process pd)) :: quitting))
        with (execCalls quitting).
      rewrite (execCalls_quiet quitting Hq'). reflexivity.
    + clear. induction (pd_tempFiles pd) as [|f fs IH]; [reflexivity | exact IH].
  - exists before, after, quitting. repeat split; assumption.
  - exact Hnth.
  - exists x1. rewrite Hp'. exact Hprocs3.
Qed.

(** ** The tracker's invariant *)

Lemma emits_procs (xs : list Effect) (app : KAlarmApp) :
  mCommandProcesses (emits xs app) = mCommandProcesses app.
Proof.
  unfold emits. revert app. induction xs as [|x xs IH]; intros app; [reflexivity|].
  simpl. rewrite IH. reflexivity.
Qed.

Lemma createTempScriptFile_procs (env : Env) (command : string) (insertShell : bool)
      (event : KAEvent) (alarm : KAAlarm) (app : KAlarmApp) :
  mCommandProcesses (snd (createTempScriptFile env command insertShell event alarm app))
  = mCommandProcesses app.
Proof.
  unfold createTempScriptFile. destruct (KTemporaryFile_write env (log app) _); reflexivity.
Qed.

Lemma xtermCommand_procs (env : Env) (command : string) (event : KAEvent)
      (alarm : option KAAlarm) (flags : Z) (app : KAlarmApp) :
  mCommandProcesses (snd (xtermCommand env command event alarm flags app))
  = mCommandProcesses app.
Proof.
  unfold xtermCommand.
  repeat first
    [ match goal with
      | |- context [createTempScriptFile ?e ?c ?i ?ev ?al ?a] =>
          let H := fresh "H" in
          pose proof (createTempScriptFile_procs e c i ev al a) as H;
          destruct (createTempScriptFile e c i ev al a) as [? ?]; cbn [snd] in H
      end
    | split_case ];
    cbn [snd]; try reflexivity; assumption.
Qed.

Lemma startLogProcess_procs (env : Env) (event : KAEvent) (alarm : option KAAlarm)
      (comms : Communication) (app : KAlarmApp) :
  mCommandProcesses (snd (startLogProcess env event alarm comms app))
  = mCommandProcesses app.
Proof.
  unfold startLogProcess. destruct comms; try reflexivity.
  destruct (negb (isEmpty (ev_logFile event))); reflexivity.
Qed.

(** [doShellCommand] leaves the tracker as it is or appends one record,
    which holds the event, the alarm and the flags it was called with. *)
Lemma doShellCommand_procs (env : Env) (command : string) (event : KAEvent)
      (alarm : option KAAlarm) (flags : Z) (app : KAlarmApp) :
  let app' := snd (doShellCommand env command event alarm flags app) in
  mCommandProcesses app' = mCommandProcesses app
  \/ exists pd, mCommandProcesses app' = mCommandProcesses app ++ [pd]
                /\ pd_event pd = event /\ pd_alarm pd = alarm /\ pd_flags pd = flags.
Proof.
  cbv zeta. unfold doShellCommand.
  pose proof (xtermCommand_procs env command event alarm flags app) as H1.
  destruct (xtermCommand env command event alarm flags app) as [[[[cmd comms] tmp]|] app1];
    cbn [snd] in H1; [|left; exact H1].
  assert (H2 : mCommandProcesses (snd (newShellProcess cmd app1)) = mCommandProcesses app1)
    by reflexivity.
  destruct (newShellProcess cmd app1) as [proc app2]. cbn [snd] in H2.
  pose proof (startLogProcess_procs env event alarm comms app2) as H3.
  destruct (startLogProcess env event alarm comms app2) as [logproc app3].
  cbn [snd] in H3.
  match goal with |- context [if ?c then _ else _] => destruct c end.
  - right. eexists. cbn [snd mCommandProcesses emit set_mCommandProcesses].
    rewrite H3, H2, H1. split; [reflexivity|]. repeat split.
  - left. unfold deleteProcData, commandErrorMsg.
    cbn [snd mCommandProcesses emit]. rewrite emits_procs.
    cbn [mCommandProcesses emit set_mCommandProcesses].
    rewrite removelast_last. congruence.
Qed.

Lemma Grows_eq (a b : KAlarmApp) : mCommandProcesses b = mCommandProcesses a -> Grows a b.
Proof. intros H. exists []. rewrite app_nil_r. split; [exact H | constructor]. Qed.

Lemma Grows_refl (a : KAlarmApp) : Grows a a.
Proof. apply Grows_eq. reflexivity. Qed.

Lemma Grows_trans (a b c : KAlarmApp) : Grows a b -> Grows b c -> Grows a c.
Proof.
  intros (e1 & H1 & W1) (e2 & H2 & W2). exists (e1 ++ e2).
  rewrite H2, H1, app_assoc. split; [reflexivity|]. apply Forall_app. split; assumption.
Qed.

Lemma Grows_wf (a b : KAlarmApp) : Grows a b -> trackerWf a -> trackerWf b.
Proof.
  intros (e & H & W) Wa. unfold trackerWf. rewrite H. apply Forall_app. split; assumption.
Qed.

Ltac grows :=
  lazymatch goal with
  | H : Grows ?a ?c |- Grows ?a ?c => exact H
  | |- Grows ?a ?a => apply Grows_refl
  | |- Grows _ (emit _ ?c) =>
      apply Grows_trans with c; [grows | apply Grows_eq; reflexivity]
  | |- Grows _ (match ?c with _ => _ end) => destruct c; grows
  | H : Grows ?b ?c |- Grows _ ?c => apply Grows_trans with b; [grows | exact H]
  end.

Lemma doShellCommand_Grows (env : Env) (command : string) (event : KAEvent)
      (alarm : option KAAlarm) (flags : Z) (app : KAlarmApp) :
  (alarm = None -> hasFlag flags PRE_ACTION = false) ->
  Grows app (snd (doShellCommand env command event alarm flags app)).
Proof.
  intros Hflags.
  destruct (doShellCommand_procs env command event alarm flags app)
    as [H|(pd & H & _ & Ha & Hf)].
  - apply Grows_eq. exact H.
  - exists [pd]. split; [exact H|]. constructor; [|constructor].
    intros Hpre. unfold pd_preAction in Hpre. rewrite Hf in Hpre. rewrite Ha.
    destruct alarm as [a|]; [exists a; reflexivity|].
    rewrite Hflags in Hpre; [discriminate | reflexivity].
Qed.

Lemma cancelAlarm_procs (event : KAEvent) (alarmType : AlarmType) (updateNow : bool)
      (app : KAlarmApp) :
  mCommandProcesses (snd (cancelAlarm event alarmType updateNow app))
  = mCommandProcesses app.
Proof. unfold cancelAlarm. repeat split_case; reflexivity. Qed.

Lemma rescheduleAlarm_procs (env : Env) (event : KAEvent) (alarm : KAAlarm)
      (updateNow : bool) (app : KAlarmApp) :
  mCommandProcesses (snd (rescheduleAlarm env event alarm updateNow app))
  = mCommandProcesses app.
Proof.
  unfold rescheduleAlarm.
  repeat first
    [ match goal with
      | |- context [cancelAlarm ?ev ?t ?u ?a] =>
          let H := fresh "H" in
          pose proof (cancelAlarm_procs ev t u a) as H;
          destruct (cancelAlarm ev t u a) as [? ?]; cbn [snd] in H
      end
    | split_case ];
    cbn [snd]; try reflexivity; assumption.
Qed.

Ltac grows_callee :=
  match goal with
  | |- context [rescheduleAlarm ?e ?ev ?al ?u ?a] =>
      let H := fresh "Hcall" in
      pose proof (Grows_eq _ _ (rescheduleAlarm_procs e ev al u a)) as H;
      destruct (rescheduleAlarm e ev al u a) as [? ?]; cbn [snd] in H
  | |- context [cancelAlarm ?ev ?t ?u ?a] =>
      let H := fresh "Hcall" in
      pose proof (Grows_eq _ _ (cancelAlarm_procs ev t u a)) as H;
      destruct (cancelAlarm ev t u a) as [? ?]; cbn [snd] in H
  | |- context [doShellCommand ?e ?c ?ev (Some ?al) ?f ?a] =>
      let H := fresh "Hcall" in
      assert (H : Grows a (snd (doShellCommand e c ev (Some al) f a)))
        by (apply doShellCommand_Grows; discriminate);
      destruct (doShellCommand e c ev (Some al) f a) as [? ?]; cbn [snd] in H
  | |- context [createTempScriptFile ?e ?c ?i ?ev ?al ?a] =>
      let H := fresh "Hcall" in
      pose proof (Grows_eq _ _ (createTempScriptFile_procs e c i ev al a)) as H;
      destruct (createTempScriptFile e c i ev al a) as [? ?]; cbn [snd] in H
  end.

Lemma execAlarm_Grows (env : Env) (event : KAEvent) (alarm : KAAlarm)
      (reschedule allowDefer noPreAction : bool) (app : KAlarmApp) :
  Grows app (snd (execAlarm env event alarm reschedule allowDefer noPreAction app)).
Proof.
  unfold execAlarm.
  set (app0 := emit (Exec_alarm event alarm reschedule allowDefer noPreAction) app).
  assert (H0 : Grows app app0) by (apply Grows_eq; reflexivity).
  repeat first [grows_callee | split_case]; cbn [snd]; grows.
Qed.

Lemma scanAlarm_Grows (env : Env) (now : KDateTime) (alarm : KAAlarm) (st : Scan) :
  Grows (sc_app st) (sc_app (scanAlarm env now alarm st)).
Proof.
  unfold scanAlarm.
  repeat first [grows_callee | split_case]; cbn [sc_app]; grows.
Qed.

Lemma scanAlarms_Grows (env : Env) (fuel : nat) (now : KDateTime) (alarm : KAAlarm)
      (st : Scan) :
  Grows (sc_app st) (sc_app (scanAlarms env fuel now alarm st)).
Proof.
  revert alarm st.
  induction fuel as [|fuel IH]; intros alarm st; cbn [scanAlarms]; [apply Grows_refl|].
  destruct (al_valid alarm); [|apply Grows_refl].
  apply Grows_trans with (sc_app (scanAlarm env now alarm st));
    [apply scanAlarm_Grows | apply IH].
Qed.

Ltac grows_exec :=
  match goal with
  | |- context [execAlarm ?e ?ev ?al ?r ?d ?n ?a] =>
      let H := fresh "Hcall" in
      pose proof (execAlarm_Grows e ev al r d n a) as H;
      destruct (execAlarm e ev al r d n a) as [[? ?] ?]; cbn [snd] in H
  end.

Lemma afterScan_Grows (env : Env) (eventID : string) (function : EventFunc) (st : Scan) :
  Grows (sc_app st) (snd (afterScan env eventID function st)).
Proof.
  unfold afterScan. repeat grows_exec. repeat split_case; cbn [snd]; grows.
Qed.

Lemma handleEvent_Grows (env : Env) (eventID : string) (function : EventFunc)
      (app : KAlarmApp) :
  Grows app (snd (handleEvent env eventID function app)).
Proof.
  unfold handleEvent.
  destruct (calendar_event env (log app) eventID) as [event|]; [|cbn [snd]; grows].
  assert (H : Grows app
                (snd (afterScan env eventID function
                        (scanAlarms env alarmLoopBound (clock app) (firstAlarm event)
                           (mkScan event invalidDateTime false false invalidAlarm app))))).
  { eapply Grows_trans; [|apply afterScan_Grows].
    exact (scanAlarms_Grows env alarmLoopBound (clock app) (firstAlarm event)
             (mkScan event invalidDateTime false false invalidAlarm app)). }
  destruct function; [exact H | exact H | cbn [snd]; grows].
Qed.

Lemma processEntry_Grows (env : Env) (entry : DcopQEntry) (app : KAlarmApp) :
  Grows app (processEntry env entry app).
Proof.
  unfold processEntry.
  destruct (isEmpty (q_eventId entry)); [|apply handleEvent_Grows].
  destruct (q_function entry); [grows | | grows].
  grows_exec. exact Hcall.
Qed.

Lemma drainQueue_Grows (env : Env) (fuel : nat) (app : KAlarmApp) :
  Grows app (drainQueue env fuel app).
Proof.
  revert app. induction fuel as [|fuel IH]; intros app; cbn [drainQueue];
    [apply Grows_refl|].
  destruct (mDcopQueue app) as [|entry q]; [apply Grows_refl|].
  eapply Grows_trans; [apply (processEntry_Grows env entry app)|].
  eapply Grows_trans; [|apply IH]. apply Grows_eq. reflexivity.
Qed.

Lemma quitIf_procs (env : Env) (code : Z) (app : KAlarmApp) :
  mCommandProcesses (quitIf env code app) = mCommandProcesses app.
Proof. unfold quitIf. repeat split_case; reflexivity. Qed.

Lemma in_firstn (A : Type) (n : nat) (l : list A) (x : A) :
  In x (firstn n l) -> In x l.
Proof. intros H. rewrite <- (firstn_skipn n l). apply in_or_app. left. exact H. Qed.

Lemma in_skipn (A : Type) (n : nat) (l : list A) (x : A) :
  In x (skipn n l) -> In x l.
Proof. intros H. rewrite <- (firstn_skipn n l). apply in_or_app. right. exact H. Qed.

Lemma removeAt_Forall (A : Type) (P : A -> Prop) (i : nat) (l : list A) :
  Forall P l -> Forall P (removeAt i l).
Proof.
  intros H. unfold removeAt. apply Forall_app. split.
  - rewrite Forall_forall in *. intros x Hx. apply H. eapply in_firstn. exact Hx.
  - rewrite Forall_forall in *. intros x Hx. apply H. eapply in_skipn. exact Hx.
Qed.

Lemma findProcess_wf (proc : nat) (app : KAlarmApp) (i : nat) (pd : ProcData) :
  trackerWf app ->
  findProcess proc 0 (mCommandProcesses app) = Some (i, pd) ->
  recordWf pd.
Proof.
  unfold trackerWf. generalize 0%nat.
  induction (mCommandProcesses app) as [|x l IH]; intros k W E; cbn [findProcess] in E;
    [discriminate|].
  inversion W; subst.
  destruct (Nat.eqb (sp_id (pd_process x)) proc).
  - inversion E; subst. assumption.
  - eapply IH; eassumption.
Qed.

(** X25.  Every operation of the engine keeps the tracker well formed: a record
    flagged [PRE_ACTION] is only ever created by [execAlarm], with the alarm
    whose display it gates. *)
Theorem trackerWf_invariant (env : Env) (app : KAlarmApp) :
  trackerWf app ->
  trackerWf (processQueue env app)
  /\ (forall eventID function, trackerWf (snd (handleEvent env eventID function app)))
  /\ (forall eventID function, trackerWf (snd (dcopHandleEvent eventID function app)))
  /\ (forall args, trackerWf (snd (scheduleEvent env args app)))
  /\ (forall event alarm reschedule allowDefer noPreAction,
         trackerWf (snd (execAlarm env event alarm reschedule allowDefer noPreAction app)))
  /\ (forall event, trackerWf (alarmCompleted env event app))
  /\ (forall proc normalExit errorMessage,
         trackerWf (slotCommandExited env proc normalExit errorMessage app))
  /\ (forall proc parent, trackerWf (commandMessage proc parent app))
  /\ (forall proc, trackerWf (slotLogProcExited proc app))
  /\ (forall proc buffer, trackerWf (slotCommandOutput proc buffer app))
  /\ trackerWf (setUpDcop app).
Proof.
  intros W. repeat split.
  - unfold processQueue. destruct (mInitialised app && negb (mProcessingQueue app));
      [|exact W].
    set (app1 := emit KAlarm_resetDaemonIfQueued (set_mProcessingQueue true app)).
    pose proof (drainQueue_Grows env (List.length (mDcopQueue app1)) app1) as H.
    apply (Grows_wf app1) in H; [|exact W].
    set (app2 := drainQueue env (List.length (mDcopQueue app1)) app1) in *.
    unfold trackerWf in *.
    repeat split_case; cbn [mCommandProcesses set_mProcessingQueue emit];
      rewrite ?quitIf_procs; exact H.
  - intros. apply (Grows_wf app); [apply handleEvent_Grows | exact W].
  - intros. unfold dcopHandleEvent. cbn [snd]. unfold trackerWf.
    destruct (mInitialised _); exact W.
  - intros args. apply (Grows_wf app); [|exact W].
    unfold scheduleEvent.
    repeat first [grows_exec | split_case]; cbn [snd];
      first [ grows
            | apply Grows_eq; reflexivity
            | eapply Grows_trans; [eassumption|]; apply Grows_eq; reflexivity ].
  - intros. apply (Grows_wf app); [apply execAlarm_Grows | exact W].
  - intros event. unfold alarmCompleted.
    destruct (_ && _); [|exact W].
    apply (Grows_wf app); [|exact W]. apply doShellCommand_Grows. reflexivity.
  - intros proc normalExit errorMessage. unfold slotCommandExited.
    match goal with
    | |- trackerWf (if _ then quitIf _ _ ?a else ?a) =>
        assert (H : trackerWf a);
        [|destruct (_ && _); [unfold trackerWf; rewrite quitIf_procs|]; exact H]
    end.
    destruct (findProcess proc 0 (mCommandProcesses app)) as [[i pd]|]; [|exact W].
    unfold trackerWf, deleteProcData. cbn [mCommandProcesses emit].
    rewrite emits_procs. cbn [mCommandProcesses set_mCommandProcesses].
    apply removeAt_Forall.
    match goal with
    | |- Forall recordWf (mCommandProcesses ?a) => change (trackerWf a)
    end.
    apply (Grows_wf app); [|exact W].
    unfold commandErrorMsg.
    repeat first [grows_exec | split_case]; cbn [snd]; grows.
  - intros proc parent. unfold commandMessage.
    destruct (findProcess proc 0 (mCommandProcesses app)) as [[i pd]|] eqn:E; [|exact W].
    unfold trackerWf in *. cbn [mCommandProcesses set_mCommandProcesses].
    pose proof (findProcess_wf proc app i pd W E) as Hpd.
    apply Forall_app. split.
    + rewrite Forall_forall in *. intros x Hx. apply W. eapply in_firstn. exact Hx.
    + constructor; [exact Hpd|].
      rewrite Forall_forall in *. intros x Hx. apply W. eapply in_skipn. exact Hx.
  - intros proc. unfold slotLogProcExited, trackerWf in *.
    cbn [mCommandProcesses emit set_mCommandProcesses].
    rewrite Forall_forall in *. intros x Hx. apply in_map_iff in Hx.
    destruct Hx as (pd & <- & Hpd). specialize (W pd Hpd).
    destruct (pd_logProcess pd); [destruct (Nat.eqb _ _)|]; exact W.
  - intros proc buffer. unfold slotCommandOutput.
    destruct (find _ _) as [pd|]; [destruct (pd_logProcess pd)|]; exact W.
  - unfold setUpDcop. destruct (negb (mInitialised app)); exact W.
Qed.


(** ** More on the dispatch engine *)

Lemma afterScan_result (env : Env) (eventID : string) (function : EventFunc) (st : Scan) :
  fst (afterScan env eventID function st) = true.
Proof.
  unfold afterScan.
  repeat match goal with
         | |- context [execAlarm ?e ?ev ?al ?r ?d ?n ?a] =>
             destruct (execAlarm e ev al r d n a) as [[? ?] ?]
         end.
  repeat split_case; reflexivity.
Qed.

(** X10.  [handleEvent] answers [false] for an event that the calendar does not
    hold, and [true] for every event that it holds, whatever the function
    and whatever becomes of the alarms. *)
Theorem handleEvent_result (env : Env) (eventID : string) (function : EventFunc)
        (app : KAlarmApp) :
  fst (handleEvent env eventID function app)
  = match calendar_event env (log app) eventID with
    | Some _ => true
    | None => false
    end.
Proof.
  unfold handleEvent.
  destruct (calendar_event env (log app) eventID) as [event|]; [|reflexivity].
  destruct function; first [apply afterScan_result | reflexivity].
Qed.

Lemma execAlarm_execCalls (env : Env) (event : KAEvent) (alarm : KAAlarm)
      (reschedule allowDefer noPreAction : bool) (app : KAlarmApp) :
  execCalls (log (snd (execAlarm env event alarm reschedule allowDefer noPreAction app)))
  = execCalls (log app) ++ [Exec_alarm event alarm reschedule allowDefer noPreAction].
Proof.
  destruct (execAlarm_log_quiet env event alarm reschedule allowDefer noPreAction app)
    as (l & Hl & Hq).
  rewrite Hl.
  change (log app ++ Exec_alarm event alarm reschedule allowDefer noPreAction :: l)
    with (log app ++ [Exec_alarm event alarm reschedule allowDefer noPreAction] ++ l).
  rewrite !execCalls_app, (execCalls_quiet l Hq), app_nil_r. reflexivity.
Qed.

Lemma emit_execCalls (x : Effect) (app : KAlarmApp) :
  isExec x = false -> execCalls (log (emit x app)) = execCalls (log app).
Proof.
  intros H. rewrite log_emit, execCalls_app. unfold execCalls at 2. simpl. rewrite H.
  apply app_nil_r.
Qed.

Lemma afterScan_execCalls (env : Env) (eventID : string) (function : EventFunc) (st : Scan) :
  atMostOneCall (log (sc_app st)) (log (snd (afterScan env eventID function st))).
Proof.
  unfold afterScan, atMostOneCall.
  repeat match goal with
         | |- context [execAlarm ?e ?ev ?al ?r ?d ?n ?a] =>
             let H := fresh "Hcall" in
             pose proof (execAlarm_execCalls e ev al r d n a) as H;
             destruct (execAlarm e ev al r d n a) as [[? ?] ?]; cbn [snd] in H
         end.
  repeat split_case; cbn [snd]; rewrite ?emit_execCalls by reflexivity;
    first [ left; reflexivity | right; repeat eexists; eassumption ].
Qed.

(** X11.  One invocation of [handleEvent] enters [execAlarm] at most once:
    however many alarm instances of the event are due, only one is
    triggered, and cancelling or rescheduling the others executes
    nothing. *)
Theorem handleEvent_executes_at_most_once (env : Env) (eventID : string)
        (function : EventFunc) (app : KAlarmApp) :
  let after := log (snd (handleEvent env eventID function app)) in
  execCalls after = execCalls (log app)
  \/ exists event alarm reschedule allowDefer noPreAction,
       execCalls after
       = execCalls (log app) ++ [Exec_alarm event alarm reschedule allowDefer noPreAction].
Proof.
  cbv zeta. unfold handleEvent.
  destruct (calendar_event env (log app) eventID) as [event|];
    [|left; cbn [snd]; apply emit_execCalls; reflexivity].
  assert (H : atMostOneCall (log app)
                (log (snd (afterScan env eventID function
                        (scanAlarms env alarmLoopBound (clock app) (firstAlarm event)
                           (mkScan event invalidDateTime false false invalidAlarm app)))))).
  { pose proof (afterScan_execCalls env eventID function
                  (scanAlarms env alarmLoopBound (clock app) (firstAlarm event)
                     (mkScan event invalidDateTime false false invalidAlarm app))) as H.
    destruct (Step_log _ _ _
                (scanAlarms_Step env alarmLoopBound (clock app) (firstAlarm event)
                   (mkScan event invalidDateTime false false invalidAlarm app)))
      as (l & Hl & Hq).
    cbn [sc_app] in Hl.
    unfold atMostOneCall in *. rewrite Hl, execCalls_app, (execCalls_quiet l Hq), app_nil_r in H.
    exact H. }
  destruct function; [exact H | exact H |].
  left. cbn [snd]. apply emit_execCalls. reflexivity.
Qed.

(** *** Alarms that are not due *)

Lemma scanAlarm_not_due (env : Env) (now : KDateTime) (alarm : KAAlarm) (st : Scan) :
  secsTo (al_dateTime alarm) now < 0 ->
  dt_clockTime (al_dateTime alarm) = false ->
  dt_valid (sc_repeatDT st) = false ->
  scanAlarm env now alarm st = st.
Proof.
  intros Hs Hc Hr. unfold scanAlarm. rewrite Hr, Hc.
  rewrite andb_false_r. cbn [andb negb orb].
  destruct (Z.ltb_spec (secsTo (al_dateTime alarm) now) 0) as [_|]; [|lia].
  reflexivity.
Qed.

Lemma nextAlarm_In (e : KAEvent) (a : KAAlarm) :
  nextAlarm e a = invalidAlarm \/ In (nextAlarm e a) (ev_alarms e).
Proof.
  unfold nextAlarm.
  destruct (firstOfTypes_cases e (typesAfter (al_type a))) as [H|[H _]]; [left|right]; exact H.
Qed.

Lemma firstAlarm_In (e : KAEvent) :
  firstAlarm e = invalidAlarm \/ In (firstAlarm e) (ev_alarms e).
Proof.
  unfold firstAlarm.
  match goal with
  | |- context [firstOfTypes e ?ts] =>
      destruct (firstOfTypes_cases e ts) as [H|[H _]]; [left|right]; exact H
  end.
Qed.

Lemma scanAlarms_not_due (env : Env) (now : KDateTime) (fuel : nat) (st : Scan) :
  (forall a, In a (ev_alarms (sc_event st)) ->
             secsTo (al_dateTime a) now < 0 /\ dt_clockTime (al_dateTime a) = false) ->
  dt_valid (sc_repeatDT st) = false ->
  forall alarm,
    alarm = invalidAlarm \/ In alarm (ev_alarms (sc_event st)) ->
    scanAlarms env fuel now alarm st = st.
Proof.
  intros Hall Hr. induction fuel as [|fuel IH]; intros alarm Hin; [reflexivity|].
  cbn [scanAlarms]. destruct Hin as [->|Hin]; [reflexivity|].
  destruct (al_valid alarm); [|reflexivity].
  destruct (Hall alarm Hin) as [Hs Hc].
  rewrite (scanAlarm_not_due env now alarm st Hs Hc Hr).
  apply IH. apply nextAlarm_In.
Qed.

(** X12.  An event none of whose alarm instances is due yet (each lies in the
    future, by a number of seconds that fits the [int] in which the code
    holds it, and is not a time of day without zone): [handleEvent] with
    HANDLE tells the daemon that the event has been handled and does
    nothing else: nothing is executed, cancelled, rescheduled or written
    to the calendar, and no other part of the application changes. *)
Theorem handleEvent_not_due (env : Env) (eventID : string) (app : KAlarmApp)
        (event : KAEvent) :
  calendar_event env (log app) eventID = Some event ->
  (forall a, In a (ev_alarms event) ->
             Int.in_range (dt_secs (clock app) - dt_secs (al_dateTime a))
             /\ dt_secs (clock app) - dt_secs (al_dateTime a) < 0
             /\ dt_clockTime (al_dateTime a) = false) ->
  handleEvent env eventID EVENT_HANDLE app
  = (true, emit (Daemon_eventHandled eventID) app).
Proof.
  intros Hcal Hreal.
  assert (Hall : forall a, In a (ev_alarms event) ->
                           secsTo (al_dateTime a) (clock app) < 0
                           /\ dt_clockTime (al_dateTime a) = false).
  { intros a Hin. destruct (Hreal a Hin) as (Hint & Hlt & Hc).
    rewrite (secsTo_in_range _ _ Hint). split; assumption. }
  unfold handleEvent. rewrite Hcal.
  rewrite (scanAlarms_not_due env (clock app) alarmLoopBound
             (mkScan event invalidDateTime false false invalidAlarm app) Hall eq_refl
             (firstAlarm event) (firstAlarm_In event)).
  reflexivity.
Qed.

(** *** The alarm that is selected *)

(** X13.  Once the alarm loop has selected an alarm to execute, an alarm that
    it reaches later, other than a deferral, never replaces it: the
    first alarm found due is the one that is executed. *)
Theorem scanAlarm_first_wins (env : Env) (now : KDateTime) (alarm : KAAlarm) (st : Scan) :
  sc_alarmToExecuteValid st = true ->
  al_deferred alarm = false ->
  sc_alarmToExecuteValid (scanAlarm env now alarm st) = true
  /\ sc_alarmToExecute (scanAlarm env now alarm st) = sc_alarmToExecute st.
Proof.
  intros Hv Hd. unfold scanAlarm. rewrite Hd. cbn [andb]. rewrite Hv. cbn [negb].
  repeat first
    [ match goal with
      | |- context [rescheduleAlarm ?e ?ev ?al ?u ?a] =>
          destruct (rescheduleAlarm e ev al u a) as [? ?]
      | |- context [cancelAlarm ?ev ?t ?u ?a] =>
          destruct (cancelAlarm ev t u a) as [? ?]
      end
    | split_case ];
    cbn [sc_alarmToExecuteValid sc_alarmToExecute]; split; first [assumption | reflexivity].
Qed.

(** *** Late, but within the threshold *)

Lemma scanAlarm_within_lateness (env : Env) (now : KDateTime) (st : Scan) (alarm : KAAlarm) :
  al_type alarm = MAIN_ALARM ->
  ev_repeatCount (sc_event st) = 0 ->
  dt_dateOnly (al_dateTime alarm) = false ->
  0 <= secsTo (al_dateTime alarm) now <= maxLateness env (al_lateCancel alarm) ->
  sc_alarmToExecuteValid st = false ->
  scanAlarm env now alarm st
  = mkScan (sc_event st) (sc_repeatDT st) (sc_updateCalAndDisplay st) true alarm (sc_app st).
Proof.
  intros Hty Hrep Hdo Hs Hnone. unfold scanAlarm.
  unfold al_deferred, al_repeatAtLogin. rewrite Hty, Hrep. cbn [AlarmType_eqb andb Z.eqb negb].
  destruct (Z.ltb_spec (secsTo (al_dateTime alarm) now) 0) as [|_]; [lia|].
  cbn [andb]. unfold lateCancelCheck. rewrite Hdo.
  destruct (Z.ltb_spec (maxLateness env (al_lateCancel alarm))
              (secsTo (al_dateTime alarm) now)) as [|_]; [lia|].
  rewrite Hnone. destruct (negb (al_lateCancel alarm =? 0)); reflexivity.
Qed.

(** X14.  A timed MAIN alarm, the only instance of an event without simple
    repetition, that is late by no more than [maxLateness] of its
    late-cancel threshold: [handleEvent] with HANDLE or TRIGGER executes
    it, with rescheduling and deferral allowed, whatever the threshold is;
    the late-cancel policy only applies beyond that lateness. *)
Theorem handleEvent_within_lateness (env : Env) (eventID : string) (function : EventFunc)
        (app : KAlarmApp) (event : KAEvent) (alarm : KAAlarm) :
  calendar_event env (log app) eventID = Some event ->
  function <> EVENT_CANCEL ->
  ev_alarms event = [alarm] ->
  ev_repeatCount event = 0 ->
  al_type alarm = MAIN_ALARM ->
  dt_dateOnly (al_dateTime alarm) = false ->
  0 <= secsTo (al_dateTime alarm) (clock app) <= maxLateness env (al_lateCancel alarm) ->
  handleEvent env eventID function app
  = (true, snd (execAlarm env event alarm true true (default_noPreAction env) app)).
Proof.
  intros Hcal Hfun Hal Hrep Hty Hdo Hs.
  assert (Hv : al_valid alarm = true) by (unfold al_valid; rewrite Hty; reflexivity).
  assert (Hafter :
    afterScan env eventID function
      (scanAlarms env alarmLoopBound (clock app) (firstAlarm event)
                  (mkScan event invalidDateTime false false invalidAlarm app))
    = (true, snd (execAlarm env event alarm true true (default_noPreAction env) app))).
  { rewrite (firstAlarm_single event alarm Hal Hv).
    unfold alarmLoopBound. cbn [scanAlarms]. rewrite Hv.
    rewrite (scanAlarm_within_lateness env (clock app)
               (mkScan event invalidDateTime false false invalidAlarm app)
               alarm Hty Hrep Hdo Hs eq_refl).
    cbn [sc_event sc_repeatDT sc_updateCalAndDisplay sc_app].
    assert (Hnext : nextAlarm event alarm = invalidAlarm).
    { unfold nextAlarm. rewrite Hty. unfold typesAfter, firstOfTypes, alarmOfType.
      rewrite Hal. cbn [find]. rewrite Hty. reflexivity. }
    rewrite Hnext. unfold afterScan. cbn [sc_event sc_app sc_alarmToExecute al_valid invalidAlarm al_type AlarmType_eqb negb].
    unfold al_valid, al_repeatAtLogin. rewrite Hty. cbn [AlarmType_eqb negb].
    destruct (execAlarm env event alarm true true (default_noPreAction env) app)
      as [[r e] a]. reflexivity. }
  unfold handleEvent. rewrite Hcal.
  destruct function; [exact Hafter | exact Hafter | congruence].
Qed.

(** ** More on the action queue *)

Lemma drainQueue_fold (env : Env) (q : list DcopQEntry) :
  forall app : KAlarmApp,
    mDcopQueue app = q ->
    drainQueue env (List.length q) app
    = fold_left (fun a entry =>
                   set_mDcopQueue (tl (mDcopQueue (processEntry env entry a)))
                                  (processEntry env entry a))
                q app.
Proof.
  induction q as [|entry q IH]; intros app E.
  - simpl. reflexivity.
  - cbn [List.length drainQueue fold_left]. rewrite E.
    apply IH. cbn [mDcopQueue set_mDcopQueue].
    pose proof (processEntry_Step env entry app) as (_ & _ & Hq & _).
    rewrite Hq, E. reflexivity.
Qed.

(** X3.  The loop of [processQueue] handles the entries that are queued when
    it starts one after the other in the order of the queue, each once:
    the state it leaves is that of processing the head entry and removing
    it, then the next, and so on to the last. *)
Theorem drainQueue_in_order (env : Env) (app : KAlarmApp) :
  drainQueue env (List.length (mDcopQueue app)) app
  = fold_left (fun a entry =>
                 set_mDcopQueue (tl (mDcopQueue (processEntry env entry a)))
                                (processEntry env entry a))
              (mDcopQueue app) app.
Proof. apply drainQueue_fold. reflexivity. Qed.

Lemma drainQueue_frame (env : Env) (fuel : nat) (app : KAlarmApp) :
  mInitialised (drainQueue env fuel app) = mInitialised app
  /\ mProcessingQueue (drainQueue env fuel app) = mProcessingQueue app
  /\ mPendingQuit (drainQueue env fuel app) = mPendingQuit app
  /\ mPendingQuitCode (drainQueue env fuel app) = mPendingQuitCode app
  /\ clock (drainQueue env fuel app) = clock app
  /\ exited (drainQueue env fuel app) = exited app.
Proof.
  revert app. induction fuel as [|fuel IH]; intros app; cbn [drainQueue].
  - repeat split.
  - destruct (mDcopQueue app) as [|entry q]; [repeat split|].
    pose proof (processEntry_Step env entry app) as (_ & _ & _ & H1).
    set (app1 := processEntry env entry app) in *.
    specialize (IH (set_mDcopQueue (tl (mDcopQueue app1)) app1)).
    cbn [mDcopQueue set_mDcopQueue log mCommandProcesses mInitialised mProcessingQueue
           mPendingQuit mPendingQuitCode clock exited] in IH.
    decompose [and] H1. decompose [and] IH. repeat split; congruence.
Qed.

Lemma quitIf_exited (env : Env) (code : Z) (app : KAlarmApp) :
  exited (quitIf env code app) = true ->
  exited app = true
  \/ (mDcopQueue (quitIf env code app) = [] /\ mCommandProcesses (quitIf env code app) = []).
Proof.
  unfold quitIf. cbn [log set_mPendingQuit mDcopQueue mCommandProcesses].
  destruct (windowsKeepRunning env (log app)); [left; assumption|].
  destruct (mDcopQueue app) as [|e q] eqn:Eq; cbn [isNil negb orb].
  - destruct (mCommandProcesses app) as [|p l] eqn:Ep; cbn [isNil negb].
    + intros _. right. cbn. rewrite Eq, Ep. split; reflexivity.
    + left. assumption.
  - left. assumption.
Qed.

Lemma quitIf_queue (env : Env) (code : Z) (app : KAlarmApp) :
  mDcopQueue (quitIf env code app) = mDcopQueue app.
Proof. unfold quitIf. repeat split_case; reflexivity. Qed.

(** X2.  When [processQueue] runs (the application is initialised and the
    queue is not already being processed), it returns with the queue
    empty and with the re-entrancy flag cleared again, so that the next
    call runs too; that holds also when the pending quit has called
    [exit()], which returns. *)
Theorem processQueue_completes (env : Env) (app : KAlarmApp) :
  mInitialised app = true ->
  mProcessingQueue app = false ->
  let app' := processQueue env app in
  mDcopQueue app' = []
  /\ mProcessingQueue app' = false.
Proof.
  intros Hi Hp. cbv zeta. unfold processQueue. rewrite Hi, Hp. cbn [andb negb].
  set (app1 := emit KAlarm_resetDaemonIfQueued (set_mProcessingQueue true app)).
  destruct (drainQueue_empties env (List.length (mDcopQueue app1)) app1 (le_n _)) as [He _].
  set (app2 := drainQueue env (List.length (mDcopQueue app1)) app1) in *.
  set (app3 := emit Calendar_purgeIfQueued app2).
  assert (H3 : mDcopQueue app3 = []) by exact He.
  clearbody app3.
  split; [|reflexivity].
  cbn [mDcopQueue set_mProcessingQueue].
  destruct (mPendingQuit app3); [rewrite quitIf_queue|]; exact H3.
Qed.

Lemma execAlarm_exited (env : Env) (event : KAEvent) (alarm : KAAlarm)
      (reschedule allowDefer noPreAction : bool) (app : KAlarmApp) :
  exited (snd (execAlarm env event alarm reschedule allowDefer noPreAction app))
  = exited app.
Proof. apply (execAlarm_Step_any env event alarm reschedule allowDefer noPreAction app). Qed.

Lemma emits_exited (xs : list Effect) (app : KAlarmApp) :
  exited (emits xs app) = exited app.
Proof.
  unfold emits. revert app. induction xs as [|x xs IH]; intros app; [reflexivity|].
  simpl. rewrite IH. reflexivity.
Qed.

Lemma processQueue_exit (env : Env) (app : KAlarmApp) :
  exited app = false ->
  exited (processQueue env app) = true ->
  mDcopQueue (processQueue env app) = [] /\ mCommandProcesses (processQueue env app) = [].
Proof.
  intros Hex. unfold processQueue.
  destruct (mInitialised app && negb (mProcessingQueue app)); [|rewrite Hex; discriminate].
  set (app1 := emit KAlarm_resetDaemonIfQueued (set_mProcessingQueue true app)).
  pose proof (drainQueue_frame env (List.length (mDcopQueue app1)) app1)
    as (_ & _ & _ & _ & _ & Hx).
  set (app2 := drainQueue env (List.length (mDcopQueue app1)) app1) in *.
  change (exited app1) with (exited app) in Hx.
  rewrite Hex in Hx.
  set (app3 := emit Calendar_purgeIfQueued app2).
  assert (H3 : exited app3 = false) by exact Hx. clearbody app3.
  cbn [exited mDcopQueue mCommandProcesses set_mProcessingQueue].
  destruct (mPendingQuit app3); [|congruence].
  intros E. destruct (quitIf_exited env _ app3 E) as [H|H]; [congruence | exact H].
Qed.

Lemma slotCommandExited_exit (env : Env) (proc : nat) (normalExit : bool)
      (errorMessage : string) (app : KAlarmApp) :
  exited app = false ->
  exited (slotCommandExited env proc normalExit errorMessage app) = true ->
  mDcopQueue (slotCommandExited env proc normalExit errorMessage app) = []
  /\ mCommandProcesses (slotCommandExited env proc normalExit errorMessage app) = [].
Proof.
  intros Hex. unfold slotCommandExited.
  match goal with
  | |- exited (if _ then quitIf _ _ ?a else ?a) = true -> _ =>
      assert (H : exited a = false); [|set (app1 := a) in *; clearbody app1]
  end.
  { destruct (findProcess proc 0 (mCommandProcesses app)) as [[i pd]|]; [|exact Hex].
    unfold deleteProcData. cbn [exited emit]. rewrite emits_exited.
    cbn [exited set_mCommandProcesses].
    assert (H0 : forall a, exited a = false ->
                   exited (if negb normalExit
                           then match pd_messageBoxParent pd with
                                | Some parent =>
                                    emit (KMessageBox_error parent
                                            (if negb (pd_tempFile pd)
                                             then String.append errorMessage
                                                    (String.append nl (sp_command (pd_process pd)))
                                             else errorMessage))
                                         (emit (KMessageBox_closeInfo parent) a)
                                | None =>
                                    commandErrorMsg errorMessage (pd_process pd) (pd_event pd)
                                                    (pd_alarm pd) (pd_flags pd) a
                                end
                           else a) = false).
    { intros a Ha. destruct (negb normalExit); [|exact Ha].
      destruct (pd_messageBoxParent pd); exact Ha. }
    destruct (pd_preAction pd); [destruct (pd_alarm pd) as [alarm|]|].
    2,3: apply H0; destruct (pd_logProcess pd); exact Hex.
    match goal with
    | |- context [execAlarm ?e ?ev ?al ?r ?d ?n ?a] =>
        pose proof (execAlarm_exited e ev al r d n a) as Hexec;
        destruct (execAlarm e ev al r d n a) as [[? ?] ?]
    end.
    cbn [snd] in Hexec. rewrite Hexec.
    apply H0; destruct (pd_logProcess pd); exact Hex. }
  destruct (mPendingQuit app1 && isNil (mCommandProcesses app1)); [|congruence].
  intros E. destruct (quitIf_exited env _ app1 E) as [H'|H']; [congruence | exact H'].
Qed.

Lemma scheduleEvent_exited (env : Env) (args : ScheduleArgs) (app : KAlarmApp) :
  exited (snd (scheduleEvent env args app)) = exited app.
Proof.
  unfold scheduleEvent.
  repeat first
    [ match goal with
      | |- context [execAlarm ?e ?ev ?al ?r ?d ?n ?a] =>
          let H := fresh "Hcall" in
          pose proof (execAlarm_exited e ev al r d n a) as H;
          destruct (execAlarm e ev al r d n a) as [[? ?] ?]; cbn [snd] in H
      end
    | split_case ]; cbn [snd exited emit set_mDcopQueue]; congruence.
Qed.

(** X6.  The application exits only through [quitIf], and only with nothing
    on the action queue and no command running: [processQueue] and
    [slotCommandExited] leave both empty whenever they exit, and no other
    operation of the engine exits. *)
Theorem exits_only_when_idle (env : Env) (app : KAlarmApp) :
  exited app = false ->
  (exited (processQueue env app) = true ->
   mDcopQueue (processQueue env app) = []
   /\ mCommandProcesses (processQueue env app) = [])
  /\ (forall proc normalExit errorMessage,
         let app' := slotCommandExited env proc normalExit errorMessage app in
         exited app' = true -> mDcopQueue app' = [] /\ mCommandProcesses app' = [])
  /\ (forall eventID function, exited (snd (handleEvent env eventID function app)) = false)
  /\ (forall eventID function, exited (snd (dcopHandleEvent eventID function app)) = false)
  /\ (forall args, exited (snd (scheduleEvent env args app)) = false)
  /\ (forall event alarm reschedule allowDefer noPreAction,
         exited (snd (execAlarm env event alarm reschedule allowDefer noPreAction app))
         = false)
  /\ (forall event, exited (alarmCompleted env event app) = false)
  /\ exited (setUpDcop app) = false.
Proof.
  intros Hex.
  split; [apply processQueue_exit; exact Hex|].
  split; [intros proc normalExit errorMessage; apply slotCommandExited_exit; exact Hex|].
  split; [intros; rewrite <- Hex; apply (handleEvent_Step env eventID function app)|].
  split.
  { intros. unfold dcopHandleEvent. cbn [snd]. destruct (mInitialised _); exact Hex. }
  split; [intros args; rewrite scheduleEvent_exited; exact Hex|].
  split; [intros; rewrite execAlarm_exited; exact Hex|].
  split.
  { intros event. unfold alarmCompleted. destruct (_ && _); [|exact Hex].
    rewrite <- Hex.
    apply (doShellCommand_Step env (ev_postAction event) event None POST_ACTION app). }
  unfold setUpDcop. destruct (negb (mInitialised app)); exact Hex.
Qed.

Lemma processQueue_run (env : Env) (app : KAlarmApp) :
  mInitialised app = true ->
  mProcessingQueue app = false ->
  processQueue env app
  = let app3 :=
      emit Calendar_purgeIfQueued
        (fold_left (fun a entry =>
                      set_mDcopQueue (tl (mDcopQueue (processEntry env entry a)))
                                     (processEntry env entry a))
                   (mDcopQueue app)
                   (emit KAlarm_resetDaemonIfQueued (set_mProcessingQueue true app))) in
    let app4 := if mPendingQuit app3 then quitIf env (mPendingQuitCode app3) app3 else app3 in
    set_mProcessingQueue false app4.
Proof.
  intros Hi Hp. unfold processQueue. rewrite Hi, Hp. cbn [andb negb].
  rewrite (drainQueue_fold env
             (mDcopQueue (emit KAlarm_resetDaemonIfQueued (set_mProcessingQueue true app)))
             _ eq_refl).
  reflexivity.
Qed.

(** ** Requests by id *)

(** X4.  A request by id that arrives while the application is idle: what
    [dcopHandleEvent] queues, the next [processQueue] hands to
    [handleEvent] with the same id and function, between resetting the
    daemon and purging the archive; the queue is empty afterwards and the
    re-entrancy flag is cleared. *)
Theorem dcopHandleEvent_then_processQueue (env : Env) (eventID : string)
        (function : EventFunc) (app : KAlarmApp) :
  mInitialised app = true ->
  mProcessingQueue app = false ->
  mPendingQuit app = false ->
  exited app = false ->
  mDcopQueue app = [] ->
  isEmpty eventID = false ->
  let queued := snd (dcopHandleEvent eventID function app) in
  let started := emit KAlarm_resetDaemonIfQueued (set_mProcessingQueue true queued) in
  processQueue env queued
  = set_mProcessingQueue false
      (emit Calendar_purgeIfQueued
         (set_mDcopQueue [] (snd (handleEvent env eventID function started)))).
Proof.
  intros Hi Hp Hq Hx Hqu Hid. cbv zeta.
  unfold dcopHandleEvent. cbn [snd mInitialised set_mDcopQueue]. rewrite Hi, Hqu.
  cbn [List.app].
  rewrite processQueue_run by assumption.
  cbn [mDcopQueue emit set_mDcopQueue fold_left].
  set (started := emit KAlarm_resetDaemonIfQueued
                    (set_mProcessingQueue true
                       (emit Timer_processQueue
                          (set_mDcopQueue [DcopQEntry_id function eventID] app)))).
  assert (H1 : processEntry env (DcopQEntry_id function eventID) started
               = snd (handleEvent env eventID function started)).
  { unfold processEntry. cbn [q_eventId q_function DcopQEntry_id]. rewrite Hid. reflexivity. }
  rewrite H1.
  pose proof (handleEvent_Step env eventID function started)
    as (_ & _ & Hq1 & _ & _ & Hpq1 & _ & _ & Hx1).
  set (app1 := snd (handleEvent env eventID function started)) in *.
  change (mDcopQueue started) with [DcopQEntry_id function eventID] in Hq1.
  change (mPendingQuit started) with (mPendingQuit app) in Hpq1.
  change (exited started) with (exited app) in Hx1.
  rewrite Hq1. cbn [tl]. cbv zeta.
  change (mPendingQuit (emit Calendar_purgeIfQueued (set_mDcopQueue [] app1)))
    with (mPendingQuit app1).
  rewrite Hpq1, Hq. reflexivity.
Qed.

(** X5.  A request with an empty id is not looked up in the calendar: the
    entry that [dcopHandleEvent] queues for it holds no event of its own,
    and [processQueue] takes it for a new alarm.  With HANDLE it passes
    that default-constructed event to [KAlarm::addEvent]; [handleEvent] is
    not called and the daemon gets no acknowledgement. *)
Theorem dcopHandleEvent_empty_id (env : Env) (eventID : string) (app : KAlarmApp) :
  mInitialised app = true ->
  mProcessingQueue app = false ->
  mPendingQuit app = false ->
  exited app = false ->
  mDcopQueue app = [] ->
  isEmpty eventID = true ->
  log (processQueue env (snd (dcopHandleEvent eventID EVENT_HANDLE app)))
  = log app ++ [Timer_processQueue; KAlarm_resetDaemonIfQueued;
                KAlarm_addEvent emptyEvent; Calendar_purgeIfQueued].
Proof.
  intros Hi Hp Hq Hx Hqu Hid.
  unfold dcopHandleEvent. cbn [snd mInitialised set_mDcopQueue]. rewrite Hi, Hqu.
  cbn [List.app].
  rewrite processQueue_run by assumption.
  cbn [mDcopQueue emit set_mDcopQueue fold_left].
  unfold processEntry. cbn [q_eventId q_function q_event DcopQEntry_id]. rewrite Hid.
  cbn [mDcopQueue emit set_mDcopQueue set_mProcessingQueue tl]. cbv zeta.
  cbn [mPendingQuit emit set_mDcopQueue set_mProcessingQueue]. rewrite Hq.
  cbn [log emit set_mDcopQueue set_mProcessingQueue].
  repeat rewrite <- app_assoc. reflexivity.
Qed.

(** ** Scheduling *)

(** X7.  [scheduleEvent] answers [false] exactly when the date-time is
    invalid, and then changes nothing; for a valid date-time it answers
    [true] whatever becomes of the alarm. *)
Theorem scheduleEvent_result (env : Env) (args : ScheduleArgs) (app : KAlarmApp) :
  fst (scheduleEvent env args app) = dt_valid (sa_dateTime args)
  /\ (dt_valid (sa_dateTime args) = false -> snd (scheduleEvent env args app) = app).
Proof.
  unfold scheduleEvent.
  destruct (dt_valid (sa_dateTime args)); cbn [negb].
  - split; [|discriminate].
    repeat first
      [ match goal with
        | |- context [execAlarm ?e ?ev ?al ?r ?d ?n ?a] =>
            destruct (execAlarm e ev al r d n a) as [[? ?] ?]
        end
      | split_case ]; reflexivity.
  - split; reflexivity.
Qed.




(** ** Process identities *)

Lemma Fresh_eq (a b : KAlarmApp) :
  mCommandProcesses b = mCommandProcesses a ->
  (processCount a <= processCount b)%nat ->
  Fresh a b.
Proof.
  intros H Hc. split; [exact Hc|]. exists []. rewrite app_nil_r.
  split; [exact H|]. split; constructor.
Qed.

Lemma Fresh_refl (a : KAlarmApp) : Fresh a a.
Proof. apply Fresh_eq; [reflexivity | lia]. Qed.

Lemma Fresh_trans (a b c : KAlarmApp) : Fresh a b -> Fresh b c -> Fresh a c.
Proof.
  intros (C1 & e1 & H1 & N1 & F1) (C2 & e2 & H2 & N2 & F2).
  split; [lia|]. exists (e1 ++ e2). rewrite H2, H1, app_assoc. split; [reflexivity|].
  unfold procIds in *. rewrite map_app. split.
  - apply NoDup_app; [exact N1 | exact N2 |].
    intros x Hx1 Hx2. rewrite Forall_forall in F1, F2.
    specialize (F1 x Hx1). specialize (F2 x Hx2). lia.
  - apply Forall_app. split.
    + eapply Forall_impl; [|exact F1]. cbv beta. intros; lia.
    + eapply Forall_impl; [|exact F2]. cbv beta. intros; lia.
Qed.

Lemma Fresh_unique (a b : KAlarmApp) : Fresh a b -> trackerUnique a -> trackerUnique b.
Proof.
  intros (C & e & H & N & F) (Na & Fa). unfold trackerUnique, procIds in *.
  rewrite H, map_app. split.
  - apply NoDup_app; [exact Na | exact N |].
    intros x Hx1 Hx2. rewrite Forall_forall in Fa, F.
    specialize (Fa x Hx1). specialize (F x Hx2). lia.
  - apply Forall_app. split.
    + eapply Forall_impl; [|exact Fa]. cbv beta. intros; lia.
    + eapply Forall_impl; [|exact F]. cbv beta. intros; lia.
Qed.

Ltac newer :=
  lazymatch goal with
  | H : Fresh ?a ?c |- Fresh ?a ?c => exact H
  | |- Fresh ?a ?a => apply Fresh_refl
  | |- Fresh _ (emit _ ?c) =>
      apply Fresh_trans with c; [newer | apply Fresh_eq; [reflexivity | apply Nat.le_refl]]
  | |- Fresh _ (set_mDcopQueue _ ?c) =>
      apply Fresh_trans with c; [newer | apply Fresh_eq; [reflexivity | apply Nat.le_refl]]
  | |- Fresh _ (match ?c with _ => _ end) => destruct c; newer
  | H : Fresh ?b ?c |- Fresh _ ?c => apply Fresh_trans with b; [newer | exact H]
  end.

Lemma emits_count (xs : list Effect) (app : KAlarmApp) :
  processCount (emits xs app) = processCount app.
Proof.
  unfold emits. revert app. induction xs as [|x xs IH]; intros app; [reflexivity|].
  simpl. rewrite IH. reflexivity.
Qed.

Lemma createTempScriptFile_count (env : Env) (command : string) (insertShell : bool)
      (event : KAEvent) (alarm : KAAlarm) (app : KAlarmApp) :
  processCount (snd (createTempScriptFile env command insertShell event alarm app))
  = processCount app.
Proof.
  unfold createTempScriptFile. destruct (KTemporaryFile_write env (log app) _); reflexivity.
Qed.

Lemma xtermCommand_count (env : Env) (command : string) (event : KAEvent)
      (alarm : option KAAlarm) (flags : Z) (app : KAlarmApp) :
  processCount (snd (xtermCommand env command event alarm flags app)) = processCount app.
Proof.
  unfold xtermCommand.
  repeat first
    [ match goal with
      | |- context [createTempScriptFile ?e ?c ?i ?ev ?al ?a] =>
          let H := fresh "H" in
          pose proof (createTempScriptFile_count e c i ev al a) as H;
          destruct (createTempScriptFile e c i ev al a) as [? ?]; cbn [snd] in H
      end
    | split_case ];
    cbn [snd]; try reflexivity; assumption.
Qed.

Lemma startLogProcess_count (env : Env) (event : KAEvent) (alarm : option KAAlarm)
      (comms : Communication) (app : KAlarmApp) :
  (processCount app <= processCount (snd (startLogProcess env event alarm comms app)))%nat.
Proof.
  unfold startLogProcess. destruct comms; try apply Nat.le_refl.
  destruct (negb (isEmpty (ev_logFile event))); cbn; lia.
Qed.

(** What [doShellCommand] leaves in the tracker: when it answers with a
    process, one record more, which holds that process, newly created, and
    the event, the alarm and the flags of the call; when it answers with
    none, the tracker as it was. *)
Lemma doShellCommand_record (env : Env) (command : string) (event : KAEvent)
      (alarm : option KAAlarm) (flags : Z) (app : KAlarmApp) :
  let r := doShellCommand env command event alarm flags app in
  (processCount app <= processCount (snd r))%nat
  /\ match fst r with
     | Some proc =>
         sp_id proc = processCount app
         /\ (processCount app < processCount (snd r))%nat
         /\ exists pd,
              mCommandProcesses (snd r) = mCommandProcesses app ++ [pd]
              /\ pd_process pd = proc /\ pd_event pd = event /\ pd_alarm pd = alarm
              /\ pd_flags pd = flags /\ pd_messageBoxParent pd = None
     | None => mCommandProcesses (snd r) = mCommandProcesses app
     end.
Proof.
  cbv zeta. unfold doShellCommand.
  pose proof (xtermCommand_procs env command event alarm flags app) as H1.
  pose proof (xtermCommand_count env command event alarm flags app) as C1.
  destruct (xtermCommand env command event alarm flags app) as [[[[cmd comms] tmp]|] app1];
    cbn [snd] in H1, C1; [|cbn [fst snd]; split; [lia | exact H1]].
  assert (H2 : mCommandProcesses (snd (newShellProcess cmd app1)) = mCommandProcesses app1)
    by reflexivity.
  assert (C2 : processCount (snd (newShellProcess cmd app1)) = S (processCount app1))
    by reflexivity.
  assert (I2 : sp_id (fst (newShellProcess cmd app1)) = processCount app1) by reflexivity.
  destruct (newShellProcess cmd app1) as [proc app2]. cbn [fst snd] in H2, C2, I2.
  pose proof (startLogProcess_procs env event alarm comms app2) as H3.
  pose proof (startLogProcess_count env event alarm comms app2) as C3.
  destruct (startLogProcess env event alarm comms app2) as [logproc app3].
  cbn [snd] in H3, C3.
  match goal with |- context [if ?c then _ else _] => destruct c end.
  - cbn [fst snd mCommandProcesses processCount emit set_mCommandProcesses].
    split; [lia|]. split; [congruence|]. split; [lia|].
    eexists. rewrite H3, H2, H1. split; [reflexivity|]. repeat split.
  - unfold deleteProcData, commandErrorMsg.
    cbn [fst snd mCommandProcesses processCount emit]. rewrite emits_procs, emits_count.
    cbn [mCommandProcesses processCount emit set_mCommandProcesses].
    rewrite removelast_last. split; [lia | congruence].
Qed.

Lemma doShellCommand_Fresh (env : Env) (command : string) (event : KAEvent)
      (alarm : option KAAlarm) (flags : Z) (app : KAlarmApp) :
  Fresh app (snd (doShellCommand env command event alarm flags app)).
Proof.
  pose proof (doShellCommand_record env command event alarm flags app) as H.
  cbv zeta in H. destruct H as [C H].
  destruct (fst (doShellCommand env command event alarm flags app)) as [proc|].
  - destruct H as (I & C' & pd & Hp & Hproc & _).
    split; [exact C|]. exists [pd]. split; [exact Hp|]. unfold procIds. cbn [map].
    rewrite Hproc, I. split.
    + constructor; [intros []|constructor].
    + constructor; [lia | constructor].
  - apply Fresh_eq; assumption.
Qed.

Lemma cancelAlarm_count (event : KAEvent) (alarmType : AlarmType) (updateNow : bool)
      (app : KAlarmApp) :
  processCount (snd (cancelAlarm event alarmType updateNow app)) = processCount app.
Proof. unfold cancelAlarm. repeat split_case; reflexivity. Qed.

Lemma rescheduleAlarm_count (env : Env) (event : KAEvent) (alarm : KAAlarm)
      (updateNow : bool) (app : KAlarmApp) :
  processCount (snd (rescheduleAlarm env event alarm updateNow app)) = processCount app.
Proof.
  unfold rescheduleAlarm.
  repeat first
    [ match goal with
      | |- context [cancelAlarm ?ev ?t ?u ?a] =>
          let H := fresh "H" in
          pose proof (cancelAlarm_count ev t u a) as H;
          destruct (cancelAlarm ev t u a) as [? ?]; cbn [snd] in H
      end
    | split_case ];
    cbn [snd]; try reflexivity; assumption.
Qed.

Lemma Fresh_same (a b : KAlarmApp) :
  mCommandProcesses b = mCommandProcesses a -> processCount b = processCount a -> Fresh a b.
Proof. intros H C. apply Fresh_eq; [exact H | rewrite C; apply Nat.le_refl]. Qed.

Ltac fresh_callee :=
  match goal with
  | |- context [rescheduleAlarm ?e ?ev ?al ?u ?a] =>
      let H := fresh "Hcall" in
      pose proof (Fresh_same _ _ (rescheduleAlarm_procs e ev al u a)
                             (rescheduleAlarm_count e ev al u a)) as H;
      destruct (rescheduleAlarm e ev al u a) as [? ?]; cbn [snd] in H
  | |- context [cancelAlarm ?ev ?t ?u ?a] =>
      let H := fresh "Hcall" in
      pose proof (Fresh_same _ _ (cancelAlarm_procs ev t u a)
                             (cancelAlarm_count ev t u a)) as H;
      destruct (cancelAlarm ev t u a) as [? ?]; cbn [snd] in H
  | |- context [doShellCommand ?e ?c ?ev ?al ?f ?a] =>
      let H := fresh "Hcall" in
      pose proof (doShellCommand_Fresh e c ev al f a) as H;
      destruct (doShellCommand e c ev al f a) as [? ?]; cbn [snd] in H
  | |- context [createTempScriptFile ?e ?c ?i ?ev ?al ?a] =>
      let H := fresh "Hcall" in
      pose proof (Fresh_same _ _ (createTempScriptFile_procs e c i ev al a)
                             (createTempScriptFile_count e c i ev al a)) as H;
      destruct (createTempScriptFile e c i ev al a) as [? ?]; cbn [snd] in H
  end.

Lemma execAlarm_Fresh (env : Env) (event : KAEvent) (alarm : KAAlarm)
      (reschedule allowDefer noPreAction : bool) (app : KAlarmApp) :
  Fresh app (snd (execAlarm env event alarm reschedule allowDefer noPreAction app)).
Proof.
  unfold execAlarm.
  set (app0 := emit (Exec_alarm event alarm reschedule allowDefer noPreAction) app).
  assert (H0 : Fresh app app0) by (apply Fresh_same; reflexivity).
  repeat first [fresh_callee | split_case]; cbn [snd]; newer.
Qed.

Lemma scanAlarm_Fresh (env : Env) (now : KDateTime) (alarm : KAAlarm) (st : Scan) :
  Fresh (sc_app st) (sc_app (scanAlarm env now alarm st)).
Proof.
  unfold scanAlarm.
  repeat first [fresh_callee | split_case]; cbn [sc_app]; newer.
Qed.

Lemma scanAlarms_Fresh (env : Env) (fuel : nat) (now : KDateTime) (alarm : KAAlarm)
      (st : Scan) :
  Fresh (sc_app st) (sc_app (scanAlarms env fuel now alarm st)).
Proof.
  revert alarm st.
  induction fuel as [|fuel IH]; intros alarm st; cbn [scanAlarms]; [apply Fresh_refl|].
  destruct (al_valid alarm); [|apply Fresh_refl].
  apply Fresh_trans with (sc_app (scanAlarm env now alarm st));
    [apply scanAlarm_Fresh | apply IH].
Qed.

Ltac fresh_exec :=
  match goal with
  | |- context [execAlarm ?e ?ev ?al ?r ?d ?n ?a] =>
      let H := fresh "Hcall" in
      pose proof (execAlarm_Fresh e ev al r d n a) as H;
      destruct (execAlarm e ev al r d n a) as [[? ?] ?]; cbn [snd] in H
  end.

Lemma afterScan_Fresh (env : Env) (eventID : string) (function : EventFunc) (st : Scan) :
  Fresh (sc_app st) (snd (afterScan env eventID function st)).
Proof.
  unfold afterScan. repeat fresh_exec. repeat split_case; cbn [snd]; newer.
Qed.

Lemma handleEvent_Fresh (env : Env) (eventID : string) (function : EventFunc)
      (app : KAlarmApp) :
  Fresh app (snd (handleEvent env eventID function app)).
Proof.
  unfold handleEvent.
  destruct (calendar_event env (log app) eventID) as [event|]; [|cbn [snd]; newer].
  assert (H : Fresh app
                (snd (afterScan env eventID function
                        (scanAlarms env alarmLoopBound (clock app) (firstAlarm event)
                           (mkScan event invalidDateTime false false invalidAlarm app))))).
  { eapply Fresh_trans; [|apply afterScan_Fresh].
    exact (scanAlarms_Fresh env alarmLoopBound (clock app) (firstAlarm event)
             (mkScan event invalidDateTime false false invalidAlarm app)). }
  destruct function; [exact H | exact H | cbn [snd]; newer].
Qed.

Lemma processEntry_Fresh (env : Env) (entry : DcopQEntry) (app : KAlarmApp) :
  Fresh app (processEntry env entry app).
Proof.
  unfold processEntry.
  destruct (isEmpty (q_eventId entry)); [|apply handleEvent_Fresh].
  destruct (q_function entry); [newer | | newer].
  fresh_exec. exact Hcall.
Qed.

Lemma drainQueue_Fresh (env : Env) (fuel : nat) (app : KAlarmApp) :
  Fresh app (drainQueue env fuel app).
Proof.
  revert app. induction fuel as [|fuel IH]; intros app; cbn [drainQueue];
    [apply Fresh_refl|].
  destruct (mDcopQueue app) as [|entry q]; [apply Fresh_refl|].
  eapply Fresh_trans; [apply (processEntry_Fresh env entry app)|].
  eapply Fresh_trans; [|apply IH]. apply Fresh_same; reflexivity.
Qed.

Lemma quitIf_count (env : Env) (code : Z) (app : KAlarmApp) :
  processCount (quitIf env code app) = processCount app.
Proof. unfold quitIf. repeat split_case; reflexivity. Qed.

Lemma NoDup_removeAt (A : Type) (i : nat) (l : list A) :
  NoDup l -> NoDup (removeAt i l).
Proof.
  unfold removeAt. revert i. induction l as [|x l IH]; intros i N.
  - destruct i; simpl; constructor.
  - inversion N as [|? ? Hx Hl]; subst. destruct i as [|i].
    + exact Hl.
    + change (NoDup (x :: (firstn i l ++ skipn (S i) l))).
      constructor; [|apply IH; exact Hl].
      intros Hin. apply Hx. apply in_app_or in Hin. destruct Hin as [Hin|Hin].
      * eapply in_firstn. exact Hin.
      * eapply in_skipn. exact Hin.
Qed.

Lemma procIds_removeAt (i : nat) (l : list ProcData) :
  procIds (removeAt i l) = removeAt i (procIds l).
Proof.
  unfold procIds, removeAt. rewrite map_app, firstn_map, skipn_map. reflexivity.
Qed.

Lemma trackerUnique_removeAt (i : nat) (l : list ProcData) (app : KAlarmApp) :
  trackerUnique app ->
  mCommandProcesses app = l ->
  trackerUnique (set_mCommandProcesses (removeAt i l) app).
Proof.
  intros [N F] <-. unfold trackerUnique.
  cbn [mCommandProcesses processCount set_mCommandProcesses].
  rewrite procIds_removeAt. split; [apply NoDup_removeAt; exact N|].
  apply removeAt_Forall. exact F.
Qed.

Lemma findProcess_id (proc : nat) (l : list ProcData) :
  forall (k i : nat) (pd : ProcData),
    findProcess proc k l = Some (i, pd) -> sp_id (pd_process pd) = proc.
Proof.
  induction l as [|x l IH]; intros k i pd H; cbn [findProcess] in H; [discriminate|].
  destruct (Nat.eqb (sp_id (pd_process x)) proc) eqn:E.
  - inversion H; subst. apply Nat.eqb_eq. exact E.
  - eapply IH. exact H.
Qed.

Lemma procIds_replace (l : list ProcData) (i : nat) (pd pd' : ProcData) :
  nth_error l i = Some pd ->
  sp_id (pd_process pd') = sp_id (pd_process pd) ->
  procIds (firstn i l ++ pd' :: skipn (S i) l) = procIds l.
Proof.
  revert i. induction l as [|x l IH]; intros i Hn Hid.
  - destruct i; discriminate.
  - destruct i as [|i]; cbn [nth_error] in Hn.
    + inversion Hn; subst. cbn. rewrite Hid. reflexivity.
    + cbn [firstn skipn List.app procIds map]. f_equal. apply IH; assumption.
Qed.

(** X24.  No two records of the tracker ever hold the same process: every
    operation of the engine keeps the processes of the tracker distinct,
    and each of them created by the application, so that the record that
    [slotCommandExited], [commandMessage] or [slotCommandOutput] finds for
    a process is the only one that holds it. *)
Theorem trackerUnique_invariant (env : Env) (app : KAlarmApp) :
  trackerUnique app ->
  trackerUnique (processQueue env app)
  /\ (forall eventID function, trackerUnique (snd (handleEvent env eventID function app)))
  /\ (forall eventID function, trackerUnique (snd (dcopHandleEvent eventID function app)))
  /\ (forall args, trackerUnique (snd (scheduleEvent env args app)))
  /\ (forall event alarm reschedule allowDefer noPreAction,
         trackerUnique
           (snd (execAlarm env event alarm reschedule allowDefer noPreAction app)))
  /\ (forall event, trackerUnique (alarmCompleted env event app))
  /\ (forall proc normalExit errorMessage,
         trackerUnique (slotCommandExited env proc normalExit errorMessage app))
  /\ (forall proc parent, trackerUnique (commandMessage proc parent app))
  /\ (forall proc, trackerUnique (slotLogProcExited proc app))
  /\ (forall proc buffer, trackerUnique (slotCommandOutput proc buffer app))
  /\ trackerUnique (setUpDcop app).
Proof.
  intros W.
  assert (Hquit : forall code a, trackerUnique a -> trackerUnique (quitIf env code a)).
  { intros code a Ha. unfold trackerUnique. rewrite quitIf_procs, quitIf_count. exact Ha. }
  split; [|split; [|split; [|split; [|split; [|split; [|split; [|split; [|split; [|split]]]]]]]]].
  - unfold processQueue. destruct (mInitialised app && negb (mProcessingQueue app));
      [|exact W].
    set (app1 := emit KAlarm_resetDaemonIfQueued (set_mProcessingQueue true app)).
    pose proof (drainQueue_Fresh env (List.length (mDcopQueue app1)) app1) as H.
    apply (Fresh_unique app1) in H; [|exact W].
    set (app2 := drainQueue env (List.length (mDcopQueue app1)) app1) in *.
    assert (H3 : trackerUnique (emit Calendar_purgeIfQueued app2)) by exact H.
    set (app3 := emit Calendar_purgeIfQueued app2) in *. clearbody app3.
    assert (H4 : trackerUnique (if mPendingQuit app3
                                then quitIf env (mPendingQuitCode app3) app3 else app3)).
    { destruct (mPendingQuit app3); [apply Hquit|]; exact H3. }
    exact H4.
  - intros. apply (Fresh_unique app); [apply handleEvent_Fresh | exact W].
  - intros. unfold dcopHandleEvent. cbn [snd].
    destruct (mInitialised _); exact W.
  - intros args. apply (Fresh_unique app); [|exact W].
    unfold scheduleEvent.
    repeat first [fresh_exec | split_case]; cbn [snd];
      first [ newer
            | apply Fresh_same; reflexivity
            | eapply Fresh_trans; [eassumption|]; apply Fresh_same; reflexivity ].
  - intros. apply (Fresh_unique app); [apply execAlarm_Fresh | exact W].
  - intros event. unfold alarmCompleted.
    destruct (_ && _); [|exact W].
    apply (Fresh_unique app); [|exact W]. apply doShellCommand_Fresh.
  - intros proc normalExit errorMessage. unfold slotCommandExited.
    match goal with
    | |- trackerUnique (if _ then quitIf _ _ ?a else ?a) =>
        assert (H : trackerUnique a);
        [|destruct (_ && _); [apply Hquit|]; exact H]
    end.
    destruct (findProcess proc 0 (mCommandProcesses app)) as [[i pd]|]; [|exact W].
    unfold deleteProcData.
    match goal with
    | |- trackerUnique (emit _ (emits _ (set_mCommandProcesses (removeAt i _) ?a))) =>
        assert (Ha : trackerUnique a)
    end.
    { apply (Fresh_unique app); [|exact W].
      unfold commandErrorMsg.
      repeat first [fresh_exec | split_case]; cbn [snd]; newer. }
    match goal with
    | |- trackerUnique (emit _ (emits _ ?b)) =>
        assert (Hb : trackerUnique b) by (apply trackerUnique_removeAt; [exact Ha | reflexivity]);
        set (b' := b) in *; clearbody b'
    end.
    unfold trackerUnique. cbn [mCommandProcesses processCount emit].
    rewrite emits_procs, emits_count. exact Hb.
  - intros proc parent. unfold commandMessage.
    destruct (findProcess proc 0 (mCommandProcesses app)) as [[i pd]|] eqn:E; [|exact W].
    unfold trackerUnique in *. cbn [mCommandProcesses processCount set_mCommandProcesses].
    destruct (findProcess_nth proc _ _ _ _ E) as [_ Hn]. rewrite Nat.sub_0_r in Hn.
    rewrite (procIds_replace _ i pd _ Hn); [exact W | reflexivity].
  - intros proc. unfold slotLogProcExited, trackerUnique in *.
    cbn [mCommandProcesses processCount emit set_mCommandProcesses].
    assert (E : forall l,
               procIds (map (fun pd => match pd_logProcess pd with
                                       | Some logproc =>
                                           if Nat.eqb logproc proc
                                           then pd_withLogProcess pd None else pd
                                       | None => pd
                                       end) l) = procIds l).
    { intros l. unfold procIds. rewrite map_map. apply map_ext. intros x.
      destruct (pd_logProcess x); [destruct (Nat.eqb _ _)|]; reflexivity. }
    rewrite E. exact W.
  - intros proc buffer. unfold slotCommandOutput.
    destruct (find _ _) as [pd|]; [destruct (pd_logProcess pd)|]; exact W.
  - unfold setUpDcop. destruct (negb (mInitialised app)); exact W.
Qed.

(** ** More on the command execution tracker *)

(** X19.  [doShellCommand] and the tracker: when it answers with a process, the
    tracker holds one record more, at its end, for that process, which did
    not exist before, with the event, the alarm and the flags of the call
    and no message box yet; when it answers with none, whether the
    terminal script could not be written or the process did not start,
    the tracker is what it was: no record is left behind. *)
Theorem doShellCommand_outcome (env : Env) (command : string) (event : KAEvent)
        (alarm : option KAAlarm) (flags : Z) (app : KAlarmApp) :
  let r := doShellCommand env command event alarm flags app in
  match fst r with
  | Some proc =>
      sp_id proc = processCount app
      /\ exists pd,
           mCommandProcesses (snd r) = mCommandProcesses app ++ [pd]
           /\ pd_process pd = proc /\ pd_event pd = event /\ pd_alarm pd = alarm
           /\ pd_flags pd = flags /\ pd_messageBoxParent pd = None
  | None => mCommandProcesses (snd r) = mCommandProcesses app
  end.
Proof.
  pose proof (doShellCommand_record env command event alarm flags app) as H.
  cbv zeta in *. destruct H as [_ H].
  destruct (fst (doShellCommand env command event alarm flags app)).
  - destruct H as (I & _ & H). split; assumption.
  - exact H.
Qed.

Lemma findProcess_new (proc : nat) (pd : ProcData) (l : list ProcData) :
  sp_id (pd_process pd) = proc ->
  Forall (fun id => id <> proc) (procIds l) ->
  forall k, findProcess proc k (l ++ [pd]) = Some ((k + List.length l)%nat, pd).
Proof.
  intros Hid. induction l as [|x l IH]; intros F k.
  - cbn [List.app findProcess List.length]. rewrite Hid, Nat.eqb_refl, Nat.add_0_r.
    reflexivity.
  - cbn [procIds map] in F. inversion F as [|? ? Hx Hl]; subst.
    cbn [List.app findProcess List.length].
    destruct (Nat.eqb_spec (sp_id (pd_process x)) (sp_id (pd_process pd))) as [E|_];
      [contradiction|].
    rewrite (IH Hl (S k)). f_equal. f_equal. lia.
Qed.

Lemma trackerUnique_below (app : KAlarmApp) (proc : nat) :
  trackerUnique app ->
  (processCount app <= proc)%nat ->
  Forall (fun id => id <> proc) (procIds (mCommandProcesses app)).
Proof.
  intros [_ F] H. eapply Forall_impl; [|exact F]. cbv beta. intros; lia.
Qed.

(** X20.  A process that [doShellCommand] has launched is found again: in a
    tracker whose processes are distinct (which every operation keeps),
    looking the new process up, as [slotCommandExited] and
    [commandMessage] do, gives the record that was appended for it, at
    the last index. *)
Theorem doShellCommand_lookup (env : Env) (command : string) (event : KAEvent)
        (alarm : option KAAlarm) (flags : Z) (app : KAlarmApp) (proc : ShellProcess) :
  trackerUnique app ->
  fst (doShellCommand env command event alarm flags app) = Some proc ->
  exists pd,
    findProcess (sp_id proc) 0
                (mCommandProcesses (snd (doShellCommand env command event alarm flags app)))
    = Some (List.length (mCommandProcesses app), pd)
    /\ pd_process pd = proc /\ pd_event pd = event /\ pd_alarm pd = alarm
    /\ pd_flags pd = flags.
Proof.
  intros U Hr.
  pose proof (doShellCommand_record env command event alarm flags app) as H.
  cbv zeta in H. rewrite Hr in H. destruct H as (_ & I & _ & pd & Hp & Hproc & He & Ha & Hf & _).
  exists pd. rewrite Hp. split; [|repeat split; assumption].
  rewrite (findProcess_new (sp_id proc) pd (mCommandProcesses app)).
  - reflexivity.
  - rewrite Hproc. reflexivity.
  - apply trackerUnique_below; [exact U | lia].
Qed.

Lemma createTempScriptFile_empty (env : Env) (command : string) (insertShell : bool)
      (event : KAEvent) (alarm : KAAlarm) (app : KAlarmApp) :
  (forall l content fileName,
      KTemporaryFile_write env l content = Some fileName -> isEmpty fileName = false) ->
  isEmpty (fst (createTempScriptFile env command insertShell event alarm app)) = true ->
  log (snd (createTempScriptFile env command insertShell event alarm app))
  = log app ++ [MessageWin_showError event (al_dateTime alarm)
                  ["Error creating temporary script file"%string]].
Proof.
  intros Hn. unfold createTempScriptFile.
  destruct (KTemporaryFile_write env (log app) _) as [f|] eqn:E; cbn [fst snd].
  - rewrite (Hn _ _ _ E). discriminate.
  - reflexivity.
Qed.

Lemma xtermCommand_none (env : Env) (command : string) (event : KAEvent)
      (alarm : option KAAlarm) (flags : Z) (app : KAlarmApp) :
  (forall l content fileName,
      KTemporaryFile_write env l content = Some fileName -> isEmpty fileName = false) ->
  fst (xtermCommand env command event alarm flags app) = None ->
  exists dt msgs,
    log (snd (xtermCommand env command event alarm flags app))
    = log app ++ [MessageWin_showError event dt msgs].
Proof.
  intros Hn. unfold xtermCommand.
  destruct (hasFlag flags EXEC_IN_XTERM); [|cbn [fst]; discriminate].
  destruct (contains "%C" _).
  { destruct (hasFlag flags TEMP_FILE); [cbn [fst]; discriminate|].
    match goal with
    | |- context [createTempScriptFile ?e ?c ?i ?ev ?al ?a] =>
        pose proof (createTempScriptFile_empty e c i ev al a Hn) as H;
        destruct (createTempScriptFile e c i ev al a) as [tmp app1]
    end.
    cbn [fst snd] in H. destruct (isEmpty tmp); cbn [fst snd]; [|discriminate].
    intros _. eexists. eexists. apply H. reflexivity. }
  destruct (contains "%W" _).
  { match goal with
    | |- context [createTempScriptFile ?e ?c ?i ?ev ?al ?a] =>
        pose proof (createTempScriptFile_empty e c i ev al a Hn) as H;
        destruct (createTempScriptFile e c i ev al a) as [tmp app1]
    end.
    cbn [fst snd] in H. destruct (isEmpty tmp); cbn [fst snd]; [|discriminate].
    intros _. eexists. eexists. apply H. reflexivity. }
  destruct (contains "%w" _); [cbn [fst]; discriminate|].
  destruct (contains "%c" _); cbn [fst]; discriminate.
Qed.

(** X21.  When [doShellCommand] answers with no process, it has reported the
    failure: an error window for the event is among what it has done.
    (A temporary file that was written has a name.) *)
Theorem doShellCommand_failure_reported (env : Env) (command : string) (event : KAEvent)
        (alarm : option KAAlarm) (flags : Z) (app : KAlarmApp) :
  (forall l content fileName,
      KTemporaryFile_write env l content = Some fileName -> isEmpty fileName = false) ->
  fst (doShellCommand env command event alarm flags app) = None ->
  exists l dt msgs,
    log (snd (doShellCommand env command event alarm flags app)) = log app ++ l
    /\ In (MessageWin_showError event dt msgs) l.
Proof.
  intros Hn. unfold doShellCommand.
  pose proof (xtermCommand_none env command event alarm flags app Hn) as H1.
  pose proof (xtermCommand_Step env command event alarm flags app) as S1.
  destruct (xtermCommand env command event alarm flags app) as [[[[cmd comms] tmp]|] app1];
    cbn [fst snd] in H1, S1.
  - clear H1.
    pose proof (Step_newShellProcess passive cmd app1 app1 (Step_refl _ _)) as S2.
    destruct (newShellProcess cmd app1) as [proc app2]. cbn [snd] in S2.
    pose proof (startLogProcess_Step env event alarm comms app2) as S3.
    destruct (startLogProcess env event alarm comms app2) as [logproc app3].
    cbn [snd] in S3.
    assert (S13 : Step passive app app3).
    { apply Step_trans with app2; [|exact S3]. apply Step_trans with app1; assumption. }
    destruct (Step_log _ _ _ S13) as (l3 & Hl3 & _).
    match goal with |- context [if ?c then _ else _] => destruct c end;
      cbn [fst snd]; [discriminate|]. intros _.
    unfold deleteProcData, commandErrorMsg. rewrite log_emit, log_emits.
    cbn [log emit set_mCommandProcesses]. rewrite Hl3.
    eexists. eexists. eexists. split.
    + repeat rewrite <- app_assoc. reflexivity.
    + apply in_or_app. right. right. left. reflexivity.
  - intros _. destruct (H1 eq_refl) as (dt & msgs & Hl).
    exists [MessageWin_showError event dt msgs], dt, msgs.
    split; [exact Hl | left; reflexivity].
Qed.

(** ** More on executing an alarm *)

Lemma preAction_flags (reschedule allowDefer : bool) :
  let flags := Z.lor (Z.lor (if reschedule then RESCHEDULE else 0)
                            (if allowDefer then ALLOW_DEFER else 0)) PRE_ACTION in
  hasFlag flags PRE_ACTION = true
  /\ hasFlag flags POST_ACTION = false
  /\ hasFlag flags RESCHEDULE = reschedule
  /\ hasFlag flags ALLOW_DEFER = allowDefer
  /\ hasFlag flags TEMP_FILE = false.
Proof. destruct reschedule, allowDefer; repeat split. Qed.

Lemma execAlarm_display (env : Env) (event : KAEvent) (alarm : KAAlarm)
      (reschedule allowDefer noPreAction : bool) (app : KAlarmApp) :
  ev_enabled event = true ->
  al_action alarm = MESSAGE \/ al_action alarm = FILE ->
  let r := execAlarm env event alarm reschedule allowDefer noPreAction app in
  fst r = (Exec_done, setArchive event)
  /\ ((noPreAction = false
       /\ exists pd,
            mCommandProcesses (snd r) = mCommandProcesses app ++ [pd]
            /\ pd_event pd = setArchive event
            /\ pd_alarm pd = Some alarm
            /\ pd_preAction pd = true
            /\ pd_reschedule pd = reschedule
            /\ pd_allowDefer pd = allowDefer)
      \/ (mCommandProcesses (snd r) = mCommandProcesses app
          /\ exists l last,
               log (snd r) = log app ++ l ++ [last]
               /\ (last = MessageWin_show (setArchive event) alarm
                            (Z.lor (if reschedule then 0 else NO_RESCHEDULE env)
                                   (if allowDefer then 0 else NO_DEFER env))
                   \/ last = MessageWin_repeat (ev_id event) alarm))).
Proof.
  intros Hen Hact. cbv zeta. unfold execAlarm. rewrite Hen. cbn [negb].
  set (app0 := emit (Exec_alarm event alarm reschedule allowDefer noPreAction) app).
  set (event' := setArchive event).
  assert (Hen' : ev_enabled event' = true) by exact Hen.
  assert (Hshow : forall a l,
             mCommandProcesses a = mCommandProcesses app ->
             log a = log app ++ l ->
             forall win,
             let res :=
               (if negb (ev_enabled event')
                then match win with
                     | Some _ => (Exec_done, event', emit (MessageWin_delete (ev_id event') false) a)
                     | None => (Exec_done, event', a)
                     end
                else
                  if match win with
                     | None => true
                     | Some w => negb (mw_hasDefer w) && negb (al_repeatAtLogin alarm)
                                 || AlarmType_eqb (mw_alarmType w) REMINDER_ALARM
                                    && negb (al_reminder alarm)
                     end
                  then (Exec_done, event',
                        emit (MessageWin_show event' alarm
                                (Z.lor (if reschedule then 0 else NO_RESCHEDULE env)
                                       (if allowDefer then 0 else NO_DEFER env)))
                             match win with
                             | Some _ => emit (MessageWin_delete (ev_id event') true) a
                             | None => a
                             end)
                  else (Exec_done, event', emit (MessageWin_repeat (ev_id event') alarm) a)) in
             fst res = (Exec_done, event')
             /\ mCommandProcesses (snd res) = mCommandProcesses app
             /\ exists l' last,
                  log (snd res) = log app ++ l' ++ [last]
                  /\ (last = MessageWin_show event' alarm
                               (Z.lor (if reschedule then 0 else NO_RESCHEDULE env)
                                      (if allowDefer then 0 else NO_DEFER env))
                      \/ last = MessageWin_repeat (ev_id event) alarm)).
  { intros a l Hp Hl win. cbv zeta. rewrite Hen'. cbn [negb].
    destruct win as [w|].
    - destruct (_ || _); cbn [fst snd mCommandProcesses log emit]; rewrite Hl;
        (split; [reflexivity|]); (split; [exact Hp|]).
      + exists (l ++ [MessageWin_delete (ev_id event') true]). eexists.
        split; [repeat rewrite <- app_assoc; reflexivity | left; reflexivity].
      + exists l. eexists. split; [rewrite <- app_assoc; reflexivity | right; reflexivity].
    - cbn [fst snd mCommandProcesses log emit]. rewrite Hl.
      split; [reflexivity|]. split; [exact Hp|].
      exists l. eexists. split; [rewrite <- app_assoc; reflexivity | left; reflexivity]. }
  assert (H0 : log app0 = log app ++ [Exec_alarm event alarm reschedule allowDefer noPreAction])
    by reflexivity.
  assert (Hgoal :
    let r :=
      let win := MessageWin_findEvent env (log app0) (ev_id event') in
      let '(launched, app1) :=
        match win with
        | None =>
            if negb noPreAction && negb (isEmpty (ev_preAction event'))
               && ShellProcess_authorised env
            then
              let '(proc, app1) :=
                doShellCommand env (ev_preAction event') event' (Some alarm)
                  (Z.lor (Z.lor (if reschedule then RESCHEDULE else 0)
                                (if allowDefer then ALLOW_DEFER else 0)) PRE_ACTION) app0 in
              (match proc with Some _ => true | None => false end, app1)
            else (false, app0)
        | Some _ => (false, app0)
        end in
      if launched then (Exec_done, event', app1)
      else if negb (ev_enabled event')
           then match win with
                | Some _ => (Exec_done, event', emit (MessageWin_delete (ev_id event') false) app1)
                | None => (Exec_done, event', app1)
                end
           else
             if match win with
                | None => true
                | Some w => negb (mw_hasDefer w) && negb (al_repeatAtLogin alarm)
                            || AlarmType_eqb (mw_alarmType w) REMINDER_ALARM
                               && negb (al_reminder alarm)
                end
             then (Exec_done, event',
                   emit (MessageWin_show event' alarm
                           (Z.lor (if reschedule then 0 else NO_RESCHEDULE env)
                                  (if allowDefer then 0 else NO_DEFER env)))
                        match win with
                        | Some _ => emit (MessageWin_delete (ev_id event') true) app1
                        | None => app1
                        end)
             else (Exec_done, event', emit (MessageWin_repeat (ev_id event') alarm) app1) in
    fst r = (Exec_done, event')
    /\ ((noPreAction = false
         /\ exists pd,
              mCommandProcesses (snd r) = mCommandProcesses app ++ [pd]
              /\ pd_event pd = event'
              /\ pd_alarm pd = Some alarm
              /\ pd_preAction pd = true
              /\ pd_reschedule pd = reschedule
              /\ pd_allowDefer pd = allowDefer)
        \/ (mCommandProcesses (snd r) = mCommandProcesses app
            /\ exists l last,
                 log (snd r) = log app ++ l ++ [last]
                 /\ (last = MessageWin_show event' alarm
                              (Z.lor (if reschedule then 0 else NO_RESCHEDULE env)
                                     (if allowDefer then 0 else NO_DEFER env))
                     \/ last = MessageWin_repeat (ev_id event) alarm)))).
  { cbv zeta.
    destruct (MessageWin_findEvent env (log app0) (ev_id event')) as [w|].
    - destruct (Hshow app0 _ eq_refl H0 (Some w)) as (Hr & Hp & Hl).
      split; [exact Hr|]. right. split; assumption.
    - destruct noPreAction; cbn [negb andb].
      + destruct (Hshow app0 _ eq_refl H0 None) as (Hr & Hp & Hl).
        split; [exact Hr|]. right. split; assumption.
      + destruct (negb (isEmpty (ev_preAction event')) && ShellProcess_authorised env).
        * pose proof (doShellCommand_record env (ev_preAction event') event' (Some alarm)
                        (Z.lor (Z.lor (if reschedule then RESCHEDULE else 0)
                                      (if allowDefer then ALLOW_DEFER else 0)) PRE_ACTION)
                        app0) as Hrec.
          pose proof (doShellCommand_Step env (ev_preAction event') event' (Some alarm)
                        (Z.lor (Z.lor (if reschedule then RESCHEDULE else 0)
                                      (if allowDefer then ALLOW_DEFER else 0)) PRE_ACTION)
                        app0) as Hst.
          cbv zeta in Hrec. destruct Hrec as [_ Hrec].
          destruct (doShellCommand env (ev_preAction event') event' (Some alarm)
                      (Z.lor (Z.lor (if reschedule then RESCHEDULE else 0)
                                    (if allowDefer then ALLOW_DEFER else 0)) PRE_ACTION)
                      app0) as [[proc|] app1]; cbn [fst snd] in Hrec, Hst.
          -- split; [reflexivity|]. left. split; [reflexivity|].
             destruct Hrec as (_ & _ & pd & Hp & _ & He & Ha & Hf & _).
             exists pd. split; [exact Hp|]. split; [exact He|]. split; [exact Ha|].
             unfold pd_preAction, pd_reschedule, pd_allowDefer. rewrite Hf.
             pose proof (preAction_flags reschedule allowDefer) as F. cbv zeta in F.
             destruct F as (F1 & _ & F3 & F4 & _). repeat split; assumption.
          -- destruct (Step_log _ _ _ Hst) as (l & Hl & _).
             rewrite H0, <- app_assoc in Hl.
             destruct (Hshow app1 _ Hrec Hl None) as (Hr & Hp & Hl').
             split; [exact Hr|]. right. split; assumption.
        * destruct (Hshow app0 _ eq_refl H0 None) as (Hr & Hp & Hl).
          split; [exact Hr|]. right. split; assumption. }
  destruct Hact as [Ha|Ha]; rewrite Ha; exact Hgoal.
Qed.

(** X15.  An enabled event whose alarm displays a message or a file is never
    dropped by [execAlarm]: either a pre-alarm action has been launched,
    and then the tracker has one record more, flagged [PRE_ACTION], that
    holds the event, the alarm and the very [reschedule] and [allowDefer]
    of the call, or the tracker is as it was and the last thing
    [execAlarm] has done is to show the message window or to raise the
    existing one.  With [noPreAction] set it is always the latter: the
    continuation after a pre-alarm action cannot launch the action
    again.  A pre-alarm action that fails to start does not suppress the
    display. *)
Theorem execAlarm_displays_or_gates (env : Env) (event : KAEvent) (alarm : KAAlarm)
        (reschedule allowDefer noPreAction : bool) (app : KAlarmApp) :
  ev_enabled event = true ->
  al_action alarm = MESSAGE \/ al_action alarm = FILE ->
  let r := execAlarm env event alarm reschedule allowDefer noPreAction app in
  fst r = (Exec_done, setArchive event)
  /\ ((noPreAction = false
       /\ exists pd,
            mCommandProcesses (snd r) = mCommandProcesses app ++ [pd]
            /\ pd_event pd = setArchive event
            /\ pd_alarm pd = Some alarm
            /\ pd_preAction pd = true
            /\ pd_reschedule pd = reschedule
            /\ pd_allowDefer pd = allowDefer)
      \/ (mCommandProcesses (snd r) = mCommandProcesses app
          /\ exists l last,
               log (snd r) = log app ++ l ++ [last]
               /\ (last = MessageWin_show (setArchive event) alarm
                            (Z.lor (if reschedule then 0 else NO_RESCHEDULE env)
                                   (if allowDefer then 0 else NO_DEFER env))
                   \/ last = MessageWin_repeat (ev_id event) alarm))).
Proof. apply execAlarm_display. Qed.

(** X16.  The pre-alarm action comes full circle.  When [execAlarm], called for
    an enabled message or file alarm in a tracker of distinct processes,
    has appended a record, and the process of that record exits normally,
    [slotCommandExited] enters [execAlarm] again, exactly once, for the
    same alarm of the same event (marked for archiving), with the
    [reschedule] and [allowDefer] of the first call and with
    [noPreAction] set. *)
Theorem preAction_round_trip (env : Env) (event : KAEvent) (alarm : KAAlarm)
        (reschedule allowDefer noPreAction : bool) (app : KAlarmApp) (pd : ProcData)
        (errorMessage : string) :
  trackerUnique app ->
  ev_enabled event = true ->
  al_action alarm = MESSAGE \/ al_action alarm = FILE ->
  let app1 := snd (execAlarm env event alarm reschedule allowDefer noPreAction app) in
  mCommandProcesses app1 = mCommandProcesses app ++ [pd] ->
  execCalls (log (slotCommandExited env (sp_id (pd_process pd)) true errorMessage app1))
  = execCalls (log app)
    ++ [Exec_alarm event alarm reschedule allowDefer noPreAction;
        Exec_alarm (setArchive event) alarm reschedule allowDefer true].
Proof.
  intros U Hen Hact app1 Hp.
  destruct (execAlarm_display env event alarm reschedule allowDefer noPreAction app Hen Hact)
    as (_ & [(_ & pd' & Hp' & He & Ha & Hpre & Hr & Hd)|(Hsame & _)]).
  - fold app1 in Hp'. rewrite Hp in Hp'. apply app_inv_head in Hp'.
    inversion Hp'; subst pd'.
    pose proof (execAlarm_Fresh env event alarm reschedule allowDefer noPreAction app)
      as (_ & extra & Hx & _ & Fx).
    fold app1 in Hx. rewrite Hp in Hx. apply app_inv_head in Hx. subst extra.
    cbn [procIds map] in Fx. apply Forall_inv in Fx.
    assert (Hfind : findProcess (sp_id (pd_process pd)) 0 (mCommandProcesses app1)
                    = Some (List.length (mCommandProcesses app), pd)).
    { rewrite Hp. apply (findProcess_new _ pd (mCommandProcesses app) eq_refl).
      apply trackerUnique_below; [exact U | lia]. }
    destruct (slotCommandExited_runs_alarm env (sp_id (pd_process pd)) errorMessage app1
                _ pd alarm Hfind Hpre Ha) as (Hcalls & _).
    rewrite Hcalls, He, Hr, Hd. unfold app1. rewrite execAlarm_execCalls.
    rewrite <- app_assoc. reflexivity.
  - fold app1 in Hsame. rewrite Hp in Hsame.
    apply (f_equal (@List.length ProcData)) in Hsame. rewrite length_app in Hsame.
    simpl in Hsame. lia.
Qed.

Lemma cancelAlarm_bookkeeping (event : KAEvent) (alarmType : AlarmType) (updateNow : bool)
      (app : KAlarmApp) :
  Step bookkeeping app (snd (cancelAlarm event alarmType updateNow app)).
Proof.
  unfold cancelAlarm.
  destruct (_ && _ && _); destruct (alarmCount _ =? 0); try destruct updateNow;
    cbn [snd]; step.
Qed.

Lemma rescheduleAlarm_bookkeeping (env : Env) (event : KAEvent) (alarm : KAAlarm)
      (updateNow : bool) (app : KAlarmApp) :
  Step bookkeeping app (snd (rescheduleAlarm env event alarm updateNow app)).
Proof.
  unfold rescheduleAlarm.
  destruct (al_reminder alarm || al_deferred alarm); [cbn [snd]; step|].
  destruct (al_repeatAtLogin alarm).
  { destruct (updateNow && ev_updated event); cbn [snd]; step. }
  destruct (negb (ev_repeatCount event =? 0) && dt_ltb (clock app) (mainEndRepeatTime env event)).
  { destruct (ev_deferred event); cbn [snd]; step. }
  destruct (nextOccurrence env event (clock app) false) as [type dt].
  destruct (oc_repeat type).
  { destruct (ev_deferred _); cbn [snd]; step. }
  destruct (oc_base type).
  - pose proof (cancelAlarm_bookkeeping (setMainTime event dt) (al_type alarm) updateNow app)
      as H.
    destruct (cancelAlarm (setMainTime event dt) (al_type alarm) updateNow app) as [e a].
    cbn [snd] in H.
    destruct (ev_deferred e); cbn [snd]; step.
  - destruct (ev_deferred _); cbn [snd]; step.
  - destruct updateNow; destruct (ev_deferred _); cbn [snd]; step.
  - destruct updateNow; destruct (ev_deferred _); cbn [snd]; step.
  - destruct updateNow; destruct (ev_deferred _); cbn [snd]; step.
Qed.

(** X17.  A disabled event is never displayed, run or mailed: [execAlarm]
    answers with nothing executed, launches no process, and all it does
    beyond noting the call is the bookkeeping of [rescheduleAlarm]
    (calendar, daemon, alarm list), and that only when asked to
    reschedule; otherwise the event and the application are left as they
    are. *)
Theorem execAlarm_disabled (env : Env) (event : KAEvent) (alarm : KAAlarm)
        (reschedule allowDefer noPreAction : bool) (app : KAlarmApp) :
  ev_enabled event = false ->
  let r := execAlarm env event alarm reschedule allowDefer noPreAction app in
  fst (fst r) = Exec_null
  /\ mCommandProcesses (snd r) = mCommandProcesses app
  /\ (exists l, log (snd r)
                = log app ++ Exec_alarm event alarm reschedule allowDefer noPreAction :: l
                /\ forallb bookkeeping l = true)
  /\ (reschedule = false ->
      r = (Exec_null, event,
           emit (Exec_alarm event alarm reschedule allowDefer noPreAction) app)).
Proof.
  intros Hen. cbv zeta. unfold execAlarm. rewrite Hen. cbn [negb].
  set (app0 := emit (Exec_alarm event alarm reschedule allowDefer noPreAction) app).
  destruct reschedule.
  - pose proof (rescheduleAlarm_bookkeeping env event alarm true app0) as H.
    pose proof (rescheduleAlarm_procs env event alarm true app0) as Hp.
    destruct (rescheduleAlarm env event alarm true app0) as [e a]. cbn [fst snd] in *.
    split; [reflexivity|]. split; [exact Hp|]. split; [|discriminate].
    destruct (Step_log _ _ _ H) as (l & Hl & Hb). exists l. split; [|exact Hb].
    rewrite Hl. unfold app0. cbn [log emit]. rewrite <- app_assoc. reflexivity.
  - cbn [fst snd]. split; [reflexivity|]. split; [reflexivity|]. split; [|reflexivity].
    exists []. split; reflexivity.
Qed.

(** X18.  When the script of a command alarm cannot be written to a temporary
    file, no process is created and the failure is reported twice: once
    by [createTempScriptFile] and once more by [execAlarm] itself, with
    the same message. *)
Theorem execAlarm_script_file_error (env : Env) (event : KAEvent) (alarm : KAAlarm)
        (allowDefer noPreAction : bool) (app : KAlarmApp) :
  ev_enabled event = true ->
  al_action alarm = COMMAND ->
  ev_commandScript event = true ->
  KTemporaryFile_write env
    (log app ++ [Exec_alarm event alarm false allowDefer noPreAction]) (ev_cleanText event)
  = None ->
  let failure := MessageWin_showError (setArchive event) (al_dateTime alarm)
                   ["Error creating temporary script file"%string] in
  execAlarm env event alarm false allowDefer noPreAction app
  = (Exec_null, setArchive event,
     emit failure
       (emit failure (emit (Exec_alarm event alarm false allowDefer noPreAction) app))).
Proof.
  intros Hen Hact Hscript Hwrite. cbv zeta. unfold execAlarm.
  rewrite Hen, Hact. cbn [negb setArchive ev_commandScript ev_cleanText]. rewrite Hscript.
  unfold createTempScriptFile. cbn [log emit String.append]. rewrite Hwrite.
  reflexivity.
Qed.

(** ** Records that are looked up *)

Lemma findProcess_replace (proc : nat) (l : list ProcData) (pd' : ProcData) :
  forall (k i : nat) (pd : ProcData),
    findProcess proc k l = Some (i, pd) ->
    sp_id (pd_process pd') = sp_id (pd_process pd) ->
    findProcess proc k (firstn (i - k) l ++ pd' :: skipn (S (i - k)) l) = Some (i, pd')
    /\ removeAt (i - k) (firstn (i - k) l ++ pd' :: skipn (S (i - k)) l) = removeAt (i - k) l.
Proof.
  induction l as [|x l IH]; intros k i pd H Hid; cbn [findProcess] in H; [discriminate|].
  destruct (Nat.eqb (sp_id (pd_process x)) proc) eqn:E.
  - inversion H; subst. rewrite Nat.sub_diag. cbn [firstn skipn List.app findProcess].
    rewrite Hid, E. split; reflexivity.
  - destruct (findProcess_nth proc l (S k) i pd H) as [Hk _].
    replace (i - k)%nat with (S (i - S k)) by lia.
    destruct (IH (S k) i pd H Hid) as [H1 H2].
    cbn [firstn skipn List.app findProcess]. rewrite E. split; [exact H1|].
    unfold removeAt in *. cbn [firstn skipn List.app]. f_equal. exact H2.
Qed.

(** X22.  Once [commandMessage] has noted the window of an informational
    message box for a tracked command, a failure of that command is
    reported in a message box on that window, after the informational
    box has been closed, and no error window is created for it; then the
    record is removed, its temporary files are removed and its process is
    deleted.  (Stated for a record that gates no display, while no quit is
    pending.) *)
Theorem commandMessage_then_failure (env : Env) (proc parent : nat)
        (errorMessage : string) (app : KAlarmApp) (i : nat) (pd : ProcData) :
  findProcess proc 0 (mCommandProcesses app) = Some (i, pd) ->
  pd_preAction pd = false ->
  mPendingQuit app = false ->
  let app' := slotCommandExited env proc false errorMessage (commandMessage proc parent app) in
  log app'
  = log app
    ++ match pd_logProcess pd with Some lp => [Process_stdinExit lp] | None => [] end
    ++ [KMessageBox_closeInfo parent;
        KMessageBox_error parent
          (if pd_tempFile pd then errorMessage
           else String.append errorMessage (String.append nl (sp_command (pd_process pd))))]
    ++ map File_remove (pd_tempFiles pd)
    ++ [Process_delete (sp_id (pd_process pd))]
  /\ mCommandProcesses app' = removeAt i (mCommandProcesses app).
Proof.
  intros Hfind Hpre Hq. cbv zeta.
  destruct (findProcess_replace proc (mCommandProcesses app) (pd_withParent pd (Some parent))
              0 i pd Hfind eq_refl) as [Hfind' Hrem].
  rewrite Nat.sub_0_r in Hfind', Hrem.
  unfold commandMessage. rewrite Hfind.
  unfold slotCommandExited. cbn [mCommandProcesses set_mCommandProcesses]. rewrite Hfind'.
  cbn [negb pd_withParent pd_logProcess pd_messageBoxParent pd_process pd_tempFiles].
  change (pd_preAction (pd_withParent pd (Some parent))) with (pd_preAction pd).
  change (pd_tempFile (pd_withParent pd (Some parent))) with (pd_tempFile pd).
  rewrite Hpre.
  unfold deleteProcData.
  cbn [pd_withParent pd_logProcess pd_messageBoxParent pd_process pd_tempFiles].
  match goal with
  | |- context [if ?c then quitIf _ _ ?a else ?a] =>
      assert (Hc : c = false)
  end.
  { cbn [mPendingQuit emit].
    assert (Hk : forall xs a, mPendingQuit (emits xs a) = mPendingQuit a).
    { induction xs as [|x xs IH]; intros a; [reflexivity|]. unfold emits in *. simpl.
      rewrite IH. reflexivity. }
    rewrite Hk. cbn [mPendingQuit set_mCommandProcesses].
    destruct (pd_logProcess pd); cbn [mPendingQuit emit set_mCommandProcesses];
      rewrite Hq; reflexivity. }
  rewrite Hc. rewrite log_emit, log_emits.
  cbn [mCommandProcesses emit]. rewrite emits_procs.
  cbn [log mCommandProcesses set_mCommandProcesses emit].
  split.
  - destruct (pd_logProcess pd); destruct (pd_tempFile pd);
      cbn [negb log emit set_mCommandProcesses List.app];
      repeat (rewrite <- app_assoc || rewrite <- app_comm_cons); reflexivity.
  - destruct (pd_logProcess pd);
      cbn [mCommandProcesses emit set_mCommandProcesses]; exact Hrem.
Qed.

Lemma findProcess_none_find (proc : nat) (l : list ProcData) (k : nat) :
  findProcess proc k l = None ->
  find (fun pd => Nat.eqb (sp_id (pd_process pd)) proc
                  && match pd_logProcess pd with Some _ => true | None => false end) l
  = None.
Proof.
  revert k. induction l as [|x l IH]; intros k H; [reflexivity|].
  cbn [findProcess] in H. cbn [find].
  destruct (Nat.eqb (sp_id (pd_process x)) proc); [discriminate|]. cbn [andb].
  eapply IH. exact H.
Qed.

(** X23.  A signal for a process that the tracker does not hold changes
    nothing: [slotCommandExited] (while no quit is pending),
    [commandMessage] and [slotCommandOutput] leave the application as it
    is. *)
Theorem untracked_process_ignored (env : Env) (proc : nat) (app : KAlarmApp) :
  findProcess proc 0 (mCommandProcesses app) = None ->
  (forall normalExit errorMessage,
      mPendingQuit app = false ->
      slotCommandExited env proc normalExit errorMessage app = app)
  /\ (forall parent, commandMessage proc parent app = app)
  /\ (forall buffer, slotCommandOutput proc buffer app = app).
Proof.
  intros H. split; [|split].
  - intros normalExit errorMessage Hq. unfold slotCommandExited. rewrite H, Hq. reflexivity.
  - intros parent. unfold commandMessage. rewrite H. reflexivity.
  - intros buffer. unfold slotCommandOutput.
    rewrite (findProcess_none_find proc _ 0 H). reflexivity.
Qed.

(** ** Command line parameters *)

Lemma length_snoc (s : string) (c : ascii) :
  String.length (s ++ String c "") = S (String.length s).
Proof. induction s as [|a s IH]; simpl; [reflexivity | rewrite IH; reflexivity]. Qed.

Lemma get_snoc (s : string) (c : ascii) :
  String.get (String.length s) (s ++ String c "") = Some c.
Proof. induction s as [|a s IH]; simpl; [reflexivity | exact IH]. Qed.

Lemma substring_snoc (s : string) (c : ascii) :
  String.substring (String.length s) 1 (s ++ String c "") = String c "".
Proof. induction s as [|a s IH]; simpl; [reflexivity | exact IH]. Qed.

Lemma left_append (s t : string) :
  QByteArray.left (String.length s) (s ++ t) = s.
Proof.
  unfold QByteArray.left. induction s as [|a s IH]; simpl.
  - destruct t; reflexivity.
  - rewrite IH. reflexivity.
Qed.

Lemma right_snoc (a : ascii) (s : string) (c : ascii) :
  QByteArray.right 1 (String a (s ++ String c "")) = String c "".
Proof.
  unfold QByteArray.right.
  change (String.length (String a (s ++ String c ""))) with (S (String.length (s ++ String c ""))).
  rewrite length_snoc. cbn [Nat.leb].
  replace (S (S (String.length s)) - 1)%nat with (S (String.length s)) by lia.
  cbn [String.substring]. apply substring_snoc.
Qed.

Lemma get_first_snoc (a : ascii) (s : string) :
  String.get 0 (String a s) = Some a.
Proof. reflexivity. Qed.

(** X26.  A parameter with a sign is cut down to its last character before
    anything else is looked at ([timeParam.right(1)]): whatever stands
    between the sign and the last character has no influence on the
    result, which is that of the last character alone, negated. *)
Theorem convInterval_negative (toUInt : string -> Z * bool) (s : string) (c : ascii)
        (allowMonthYear : bool) :
  c <> "-"%char ->
  convInterval toUInt (String "-" (s ++ String c "")) allowMonthYear
  = match convInterval toUInt (String c "") allowMonthYear with
    | Some (ok, recurType, timeInterval) => Some (ok, recurType, Int.neg timeInterval)
    | None => None
    end.
Proof.
  intros Hc. unfold convInterval.
  rewrite get_first_snoc. cbn [Ascii.eqb Bool.eqb andb].
  change (Ascii.eqb "-" "-") with true. cbv iota.
  rewrite right_snoc.
  assert (E : Ascii.eqb c "-" = false) by (apply Ascii.eqb_neq; exact Hc).
  cbn [String.get]. rewrite E.
  cbn [String.length Nat.sub String.get QByteArray.indexOf].
  repeat match goal with
         | |- context [Ascii.eqb c ?x] => destruct (Ascii.eqb c x)
         end;
    destruct allowMonthYear;
    repeat match goal with
           | |- context [toUInt ?x] => destruct (toUInt x) as [? []]
           end;
    reflexivity.
Qed.

(** X27.  With [allowMonthYear] off, as for [--late-cancel], and for
    [--interval] beside a recurrence, [convInterval] succeeds only for
    minutes, days or weeks. *)
Theorem convInterval_no_month_year (toUInt : string -> Z * bool) (timeParam : string)
        (recurType : KARecurrence_Type) (timeInterval : Z) :
  convInterval toUInt timeParam false = Some (true, recurType, timeInterval) ->
  recurType = MINUTELY \/ recurType = DAILY \/ recurType = WEEKLY.
Proof.
  unfold convInterval.
  set (negative := match String.get 0 timeParam with
                   | Some c => Ascii.eqb c "-"
                   | None => false
                   end).
  set (param := if negative then QByteArray.right 1 timeParam else timeParam).
  destruct (String.get (String.length param - 1) param) as [last|]; [|discriminate].
  repeat match goal with
         | |- context [Ascii.eqb last ?x] => destruct (Ascii.eqb last x)
         end;
    try destruct (QByteArray.indexOf "H" param);
    repeat match goal with
           | |- context [toUInt ?x] => destruct (toUInt x) as [? []]
           end;
    intros H; inversion H; auto.
Qed.

Lemma indexOf_append (ch : ascii) (s t : string) :
  QByteArray.indexOf ch s = None ->
  QByteArray.indexOf ch (s ++ String ch t) = Some (String.length s).
Proof.
  induction s as [|a s IH]; simpl.
  - rewrite Ascii.eqb_refl. reflexivity.
  - destruct (Ascii.eqb a ch); [discriminate|].
    destruct (QByteArray.indexOf ch s); [discriminate|].
    intros _. rewrite IH; reflexivity.
Qed.

Lemma length_append (s t : string) :
  String.length (s ++ t) = (String.length s + String.length t)%nat.
Proof. induction s as [|a s IH]; simpl; [reflexivity | rewrite IH; reflexivity]. Qed.

Lemma get_append_r (s t : string) (n : nat) :
  String.get (String.length s + n) (s ++ t) = String.get n t.
Proof. induction s as [|a s IH]; simpl; [reflexivity | exact IH]. Qed.

Lemma substring_append_r (s t : string) (n m : nat) :
  String.substring (String.length s + n) m (s ++ t) = String.substring n m t.
Proof.
  induction s as [|a s IH]; simpl; [reflexivity|]. exact IH.
Qed.

Lemma substring_all_but_last (s : string) (c : ascii) :
  String.substring 0 (String.length s) (s ++ String c "") = s.
Proof. exact (left_append s (String c "")). Qed.

(** X28.  Hours and minutes, [hhHmmM]: the interval is [hh * 60 + mm] minutes,
    in [uint] arithmetic, and the answer is that of converting [mm];
    when [hh] does not convert, the minutes are not looked at.  This
    form is accepted whether or not months and years are allowed. *)
Theorem convInterval_hours_minutes (toUInt : string -> Z * bool) (hh mm : string)
        (allowMonthYear : bool) :
  String.get 0 hh <> Some "-"%char ->
  QByteArray.indexOf "H" hh = None ->
  convInterval toUInt (hh ++ String "H" (mm ++ String "M" "")) allowMonthYear
  = Some (let '(hours, ok) := toUInt hh in
          if ok then
            let '(minutes, ok) := toUInt mm in
            (ok, MINUTELY, Int.wrap (UInt.add (UInt.mul hours 60) minutes))
          else (false, MINUTELY, Int.wrap (UInt.mul hours 60))).
Proof.
  intros Hsign HH. unfold convInterval.
  assert (Hneg : match String.get 0 (hh ++ String "H" (mm ++ String "M" "")) with
                 | Some c => Ascii.eqb c "-"
                 | None => false
                 end = false).
  { destruct hh as [|a hh]; [reflexivity|]. cbn [String.append String.get].
    apply Ascii.eqb_neq. intros ->. apply Hsign. reflexivity. }
  rewrite Hneg.
  assert (Hlen : String.length (hh ++ String "H" (mm ++ String "M" ""))
                 = (String.length hh + S (S (String.length mm)))%nat).
  { rewrite length_append. cbn [String.length]. rewrite length_snoc. reflexivity. }
  rewrite Hlen.
  replace (String.length hh + S (S (String.length mm)) - 1)%nat
    with (String.length hh + S (String.length mm))%nat by lia.
  rewrite get_append_r. cbn [String.get]. rewrite get_snoc.
  change (Ascii.eqb "M" "Y") with false. change (Ascii.eqb "M" "W") with false.
  change (Ascii.eqb "M" "D") with false. change (Ascii.eqb "M" "M") with true.
  cbv iota.
  rewrite (indexOf_append "H" hh (mm ++ String "M" "") HH).
  rewrite left_append.
  unfold QByteArray.mid.
  replace (String.length hh + 1)%nat with (String.length hh + 1)%nat by reflexivity.
  rewrite substring_append_r. cbn [String.substring].
  replace (String.length hh + S (S (String.length mm)) - String.length hh - 2)%nat
    with (String.length mm) by lia.
  rewrite substring_all_but_last.
  destruct (toUInt hh) as [hours ok]. destruct ok.
  - destruct (toUInt mm) as [minutes ok']. reflexivity.
  - reflexivity.
Qed.

Lemma convInterval_unit (toUInt : string -> Z * bool) (s : string) (u : ascii)
      (recurType : KARecurrence_Type) :
  (u = "D"%char /\ recurType = DAILY) \/ (u = "W"%char /\ recurType = WEEKLY) ->
  String.get 0 s <> Some "-"%char ->
  forall allowMonthYear,
    convInterval toUInt (s ++ String u "") allowMonthYear
    = Some (snd (toUInt s), recurType, Int.wrap (UInt.add 0 (fst (toUInt s)))).
Proof.
  intros Hu Hsign allowMonthYear. unfold convInterval.
  assert (Hneg : match String.get 0 (s ++ String u "") with
                 | Some c => Ascii.eqb c "-"
                 | None => false
                 end = false).
  { destruct s as [|a s].
    - cbn. destruct Hu as [[-> _]|[-> _]]; reflexivity.
    - cbn [String.append String.get].
      apply Ascii.eqb_neq. intros ->. apply Hsign. reflexivity. }
  rewrite Hneg. rewrite length_snoc.
  replace (S (String.length s) - 1)%nat with (String.length s) by lia.
  rewrite get_snoc, left_append.
  destruct Hu as [[-> ->]|[-> ->]].
  - change (Ascii.eqb "D" "Y") with false. change (Ascii.eqb "D" "W") with false.
    change (Ascii.eqb "D" "D") with true. cbv iota.
    destruct (toUInt s) as [n ok]. reflexivity.
  - change (Ascii.eqb "W" "Y") with false. change (Ascii.eqb "W" "W") with true. cbv iota.
    destruct (toUInt s) as [n ok]. reflexivity.
Qed.

Lemma convInterval_plain (toUInt : string -> Z * bool) (s : string) (c : ascii) :
  String.get 0 (s ++ String c "") <> Some "-"%char ->
  c <> "Y"%char -> c <> "W"%char -> c <> "D"%char -> c <> "M"%char ->
  forall allowMonthYear,
    convInterval toUInt (s ++ String c "")%string allowMonthYear
    = Some (snd (toUInt (s ++ String c "")%string), MINUTELY,
            Int.wrap (UInt.add 0 (fst (toUInt (s ++ String c "")%string)))).
Proof.
  intros Hsign HY HW HD HM allowMonthYear. unfold convInterval.
  assert (Hneg : match String.get 0 (s ++ String c "") with
                 | Some c => Ascii.eqb c "-"
                 | None => false
                 end = false).
  { destruct (String.get 0 (s ++ String c "")) as [a|]; [|reflexivity].
    apply Ascii.eqb_neq. intros ->. apply Hsign. reflexivity. }
  rewrite Hneg. rewrite length_snoc.
  replace (S (String.length s) - 1)%nat with (String.length s) by lia.
  rewrite get_snoc.
  apply Ascii.eqb_neq in HY, HW, HD, HM. rewrite HY, HW, HD, HM.
  destruct (toUInt (s ++ String c "")%string) as [n ok]. reflexivity.
Qed.

(** X29.  [--late-cancel] takes the number and drops the unit: a count of days
    or of weeks is accepted and taken for as many minutes as the same
    number without a unit. *)
Theorem newInstance_lateCancel_unit_ignored (toUInt : string -> Z * bool)
        (s : string) (c : ascii) :
  String.get 0 (s ++ String c "") <> Some "-"%char ->
  c <> "Y"%char -> c <> "W"%char -> c <> "D"%char -> c <> "M"%char ->
  newInstance_lateCancel toUInt ((s ++ String c "") ++ "D")
  = newInstance_lateCancel toUInt (s ++ String c "")
  /\ newInstance_lateCancel toUInt ((s ++ String c "") ++ "W")
     = newInstance_lateCancel toUInt (s ++ String c "").
Proof.
  intros Hsign HY HW HD HM.
  unfold newInstance_lateCancel.
  rewrite (convInterval_plain toUInt s c Hsign HY HW HD HM false).
  rewrite (convInterval_unit toUInt (s ++ String c "") "D" DAILY
             (or_introl (conj eq_refl eq_refl)) Hsign false).
  rewrite (convInterval_unit toUInt (s ++ String c "") "W" WEEKLY
             (or_intror (conj eq_refl eq_refl)) Hsign false).
  split; reflexivity.
Qed.

(** X30.  [--reminder] and [--reminder-once] count in minutes: a number of days
    is multiplied by 1440 and a number of weeks by 10080, in [int]
    arithmetic, and the reading of the options goes on.  Months and years
    are refused with [USAGE], which ends the reading of the options.
    Minutes for a date-only alarm set the usage message, but that [USAGE]
    stands inside the [switch]: the reading of the options goes on, with
    the number of minutes kept. *)
Theorem newInstance_reminder_units (toUInt : string -> Z * bool) (opt s : string)
        (dateOnly : bool) (n : Z) :
  String.get 0 s <> Some "-"%char ->
  toUInt s = (n, true) ->
  newInstance_reminder toUInt opt (s ++ "D") dateOnly
  = Some (Reminder_on None (Int.mul (Int.wrap (UInt.wrap n)) 1440))
  /\ newInstance_reminder toUInt opt (s ++ "W") dateOnly
     = Some (Reminder_on None (Int.mul (Int.wrap (UInt.wrap n)) 10080))
  /\ (forall optval recurType m,
         convInterval toUInt optval true = Some (true, recurType, m) ->
         (recurType = MONTHLY_DAY \/ recurType = ANNUAL_DATE ->
          newInstance_reminder toUInt opt optval dateOnly
          = Some (Reminder_stop ("Invalid " ++ opt ++ " parameter")%string))
         /\ (recurType = MINUTELY ->
             newInstance_reminder toUInt opt optval dateOnly
             = Some (Reminder_on
                       (if dateOnly
                        then Some ("Invalid " ++ opt ++ " parameter for date-only alarm")%string
                        else None)
                       m))).
Proof.
  intros Hsign Hn. unfold newInstance_reminder. split; [|split].
  - rewrite (convInterval_unit toUInt s "D" DAILY (or_introl (conj eq_refl eq_refl)) Hsign true).
    rewrite Hn. reflexivity.
  - rewrite (convInterval_unit toUInt s "W" WEEKLY (or_intror (conj eq_refl eq_refl)) Hsign true).
    rewrite Hn. reflexivity.
  - intros optval recurType m Hc. rewrite Hc. split.
    + intros [->| ->]; reflexivity.
    + intros ->. reflexivity.
Qed.

(** ** More on the lateness policy *)

(** X1.  Within the range of [int] a larger threshold never allows less
    lateness, and a threshold of one minute or less, a negative one
    included, allows exactly the check interval plus the leeway of 5
    seconds. *)
Theorem maxLateness_monotone (env : Env) (lateCancel1 lateCancel2 : Z) :
  Int.in_range (maxTimeSinceCheck env + 5) ->
  (1 <= lateCancel2 -> Int.in_range (maxTimeSinceCheck env + 5 + (lateCancel2 - 1) * 60)) ->
  lateCancel1 <= lateCancel2 ->
  maxLateness env lateCancel1 <= maxLateness env lateCancel2
  /\ (lateCancel1 <= 1 -> maxLateness env lateCancel1 = maxTimeSinceCheck env + 5).
Proof.
  intros H0 H2 Hle. rewrite !maxLateness_wrap. unfold LATENESS_LEEWAY.
  assert (R0 : Int.wrap (maxTimeSinceCheck env + 5 + 0) = maxTimeSinceCheck env + 5).
  { rewrite Z.add_0_r. apply wrap_in_range. exact H0. }
  assert (R1 : lateCancel1 <= 1 ->
               Int.wrap (maxTimeSinceCheck env + 5
                         + (if 1 <=? lateCancel1 then (lateCancel1 - 1) * 60 else 0))
               = maxTimeSinceCheck env + 5).
  { intros H1. destruct (Z.leb_spec 1 lateCancel1); [|exact R0].
    replace lateCancel1 with 1 by lia. exact R0. }
  split; [|exact R1].
  destruct (Z.leb_spec 1 lateCancel2) as [L2|L2].
  - specialize (H2 L2). rewrite (wrap_in_range _ H2).
    destruct (Z.leb_spec 1 lateCancel1) as [L1|L1].
    + rewrite wrap_in_range; [lia|].
      unfold Int.in_range, Int.min_int, Int.max_int in *. lia.
    + rewrite R0. lia.
  - destruct (Z.leb_spec 1 lateCancel1) as [L1|L1]; [lia|]. lia.
Qed.

(** ** Examples

    The daemon checks every 60 seconds and the clock reads 1000, so that
    [maxLateness(1)] is 65 and [maxLateness(5)] is 305. *)


Lemma handleEvent_never_cancel_witness :
  let event := oneAlarmEvent "alarm-1" MAIN_ALARM (utc 400) 0 in
  let env := exampleEnv 60 (exampleLookup event) in
  handleEvent env "alarm-1" EVENT_HANDLE (idleApp (utc 1000))
  = (true,
     snd (execAlarm env event (mkAlarm MAIN_ALARM (utc 400) 0 MESSAGE) true true false
                    (idleApp (utc 1000)))).
Proof.
  intros event env.
  refine (proj1 (handleEvent_never_cancel env "alarm-1" EVENT_HANDLE (idleApp (utc 1000))
                   event (mkAlarm MAIN_ALARM (utc 400) 0 MESSAGE)
                   eq_refl _ eq_refl eq_refl eq_refl _ _)).
  - discriminate.
  - vm_compute. split; discriminate.
  - vm_compute. discriminate.
Defined.

Lemma handleEvent_atLogin_skipped_witness :
  let alarm := mkAlarm AT_LOGIN_ALARM (utc 990) 0 MESSAGE in
  let event := oneAlarmEvent "login-1" AT_LOGIN_ALARM (utc 990) 0 in
  let env := exampleEnv 60 (exampleLookup event) in
  let app := idleApp (utc 1000) in
  let st := mkScan event invalidDateTime false false invalidAlarm app in
  scanAlarm env (clock app) alarm st = st
  /\ al_repeatAtLogin
       (sc_alarmToExecute (scanAlarms env alarmLoopBound (clock app) (firstAlarm event) st))
     = false
  /\ ~ In (Exec_alarm event alarm true false false)
          (log (snd (handleEvent env "login-1" EVENT_HANDLE app))).
Proof.
  intros alarm event env app st.
  assert (Hrecent : forall a, In a (ev_alarms event) -> al_repeatAtLogin a = true ->
            Int.in_range (dt_secs (clock app) - dt_secs (al_dateTime a))
            /\ dt_secs (clock app) - dt_secs (al_dateTime a) < maxLateness env 1).
  { intros a [<-|[]] _. split; [vm_compute; split; discriminate | vm_compute; reflexivity]. }
  destruct (handleEvent_atLogin_skipped env "login-1" app event eq_refl Hrecent)
    as (Hskip & Hsel & Hexec).
  split; [|split].
  - apply Hskip; [left; reflexivity | reflexivity].
  - exact Hsel.
  - intros Hin.
    destruct (Hexec EVENT_HANDLE event alarm true false false) as [H|H].
    + discriminate.
    + exact Hin.
    + destruct H.
    + discriminate.
Defined.

(** C6 as stated fails in two ways.  For TRIGGER: the only alarm of the
    event is an at-login alarm that became due 10 seconds ago, less than
    [maxLateness(1)]; the loop passes over it, and TRIGGER then executes the
    event's first alarm, which is this one.  Beyond the range of an [int]:
    the only alarm of the event is an at-login alarm whose due time lies
    2147484648 seconds after the current time, so that the time elapsed
    since it is negative and less than [maxLateness(1)]; held in an [int]
    it is 2147482648, the loop selects the alarm, and HANDLE executes it. *)
Lemma atLogin_not_skipped :
  (let alarm := mkAlarm AT_LOGIN_ALARM (utc 990) 0 MESSAGE in
   let event := oneAlarmEvent "login-1" AT_LOGIN_ALARM (utc 990) 0 in
   let env := exampleEnv 60 (exampleLookup event) in
   let app := idleApp (utc 1000) in
   al_repeatAtLogin alarm = true
   /\ dt_secs (clock app) - dt_secs (al_dateTime alarm) < maxLateness env 1
   /\ log (snd (handleEvent env "login-1" EVENT_TRIGGER app))
      = [Exec_alarm event alarm false true false;
         MessageWin_show (setArchive event) alarm (NO_RESCHEDULE env)])
  /\ (let alarm := mkAlarm AT_LOGIN_ALARM (utc 2147485648) 0 MESSAGE in
      let event := oneAlarmEvent "login-1" AT_LOGIN_ALARM (utc 2147485648) 0 in
      let env := exampleEnv 60 (exampleLookup event) in
      let app := idleApp (utc 1000) in
      al_repeatAtLogin alarm = true
      /\ dt_secs (clock app) - dt_secs (al_dateTime alarm) < maxLateness env 1
      /\ secsTo (al_dateTime alarm) (clock app) = 2147482648
      /\ log (snd (handleEvent env "login-1" EVENT_HANDLE app))
         = [Exec_alarm event (al_setTime alarm (clock app)) true false false;
            MessageWin_show (setArchive event) (al_setTime alarm (clock app))
                            (NO_DEFER env)]).
Proof.
  cbv zeta. split.
  - split; [reflexivity|]. split; [reflexivity|]. vm_compute. reflexivity.
  - split; [reflexivity|]. split; [reflexivity|]. split; vm_compute; reflexivity.
Qed.


(** C4 as stated fails where the lateness does not fit an [int]: the only
    alarm of the event is a MAIN alarm with the late-cancel threshold 0
    that became due 2147484648 seconds ago; held in an [int] the lateness
    is -2147482648, the loop takes the alarm as not yet due, and HANDLE
    executes nothing. *)
Lemma never_cancel_beyond_int :
  let alarm := mkAlarm MAIN_ALARM (utc 0) 0 MESSAGE in
  let event := oneAlarmEvent "alarm-1" MAIN_ALARM (utc 0) 0 in
  let env := exampleEnv 60 (exampleLookup event) in
  let app := idleApp (utc 2147484648) in
  ev_alarms event = [alarm]
  /\ 0 <= dt_secs (clock app) - dt_secs (al_dateTime alarm)
  /\ secsTo (al_dateTime alarm) (clock app) = -2147482648
  /\ handleEvent env "alarm-1" EVENT_HANDLE app
     = (true, emit (Daemon_eventHandled "alarm-1") app)
  /\ execCalls (log (snd (handleEvent env "alarm-1" EVENT_HANDLE app))) = [].
Proof.
  cbv zeta. split; [reflexivity|]. split; [discriminate|].
  split; [|split]; vm_compute; reflexivity.
Qed.

Lemma handleEvent_trigger_forced_witness :
  let event := oneAlarmEvent "alarm-1" MAIN_ALARM (utc 2000) 0 in
  let env := exampleEnv 60 (exampleLookup event) in
  handleEvent env "alarm-1" EVENT_TRIGGER (idleApp (utc 1000))
  = (true,
     snd (execAlarm env event (mkAlarm MAIN_ALARM (utc 2000) 0 MESSAGE) false true false
                    (idleApp (utc 1000)))).
Proof.
  intros event env.
  exact (proj1 (handleEvent_trigger_forced env "alarm-1" (idleApp (utc 1000)) event
                  eq_refl eq_refl)).
Defined.

(** C7 as stated fails in two ways.  Where the loop leaves the event
    without an alarm: the only alarm of the event is a MAIN alarm with a
    late-cancel threshold of 5 minutes that became due 600 seconds ago; the
    loop selects no alarm (it cancels this one), and TRIGGER executes
    nothing, although the event had a first alarm.  Where a window for the
    event is already displayed: the only alarm of the event is a MAIN alarm
    that is not due yet; the loop selects none, TRIGGER enters [execAlarm]
    with [reschedule = false], and [execAlarm] calls [MessageWin::repeat] on
    the window, which reschedules the alarm. *)
Lemma trigger_override_exceptions :
  (let event := oneAlarmEvent "alarm-1" MAIN_ALARM (utc 400) 5 in
   let env := exampleEnv 60 (exampleLookup event) in
   let app := idleApp (utc 1000) in
   let st := scanAlarms env alarmLoopBound (clock app) (firstAlarm event)
                        (mkScan event invalidDateTime false false invalidAlarm app) in
   firstAlarm event = mkAlarm MAIN_ALARM (utc 400) 5 MESSAGE
   /\ al_valid (sc_alarmToExecute st) = false
   /\ execCalls (log (snd (handleEvent env "alarm-1" EVENT_TRIGGER app))) = [])
  /\ (let alarm := mkAlarm MAIN_ALARM (utc 2000) 0 MESSAGE in
      let event := oneAlarmEvent "alarm-1" MAIN_ALARM (utc 2000) 0 in
      let env := windowEnv 60 (exampleLookup event) in
      let app := idleApp (utc 1000) in
      let st := scanAlarms env alarmLoopBound (clock app) (firstAlarm event)
                           (mkScan event invalidDateTime false false invalidAlarm app) in
      firstAlarm event = alarm
      /\ al_valid (sc_alarmToExecute st) = false
      /\ log (snd (handleEvent env "alarm-1" EVENT_TRIGGER app))
         = [Exec_alarm event alarm false true false;
            MessageWin_repeat "alarm-1" alarm]).
Proof.
  cbv zeta. split.
  - split; [reflexivity|]. split; vm_compute; reflexivity.
  - split; [reflexivity|]. split; vm_compute; reflexivity.
Qed.


(** ** More examples *)

Lemma maxLateness_monotone_witness :
  maxLateness (exampleEnv 60 (fun _ => None)) 2 <= maxLateness (exampleEnv 60 (fun _ => None)) 5
  /\ (2 <= 1 -> maxLateness (exampleEnv 60 (fun _ => None)) 2 = 60 + 5).
Proof.
  apply (maxLateness_monotone (exampleEnv 60 (fun _ => None)) 2 5).
  - unfold Int.in_range, Int.min_int, Int.max_int. simpl. lia.
  - intros _. unfold Int.in_range, Int.min_int, Int.max_int. simpl. lia.
  - lia.
Defined.

Lemma handleEvent_not_due_witness :
  let event := oneAlarmEvent "alarm-1" MAIN_ALARM (utc 2000) 0 in
  let env := exampleEnv 60 (exampleLookup event) in
  handleEvent env "alarm-1" EVENT_HANDLE (idleApp (utc 1000))
  = (true, emit (Daemon_eventHandled "alarm-1") (idleApp (utc 1000))).
Proof.
  intros event env.
  apply (handleEvent_not_due env "alarm-1" (idleApp (utc 1000)) event eq_refl).
  intros a [<-|[]].
  split; [vm_compute; split; discriminate | split; [vm_compute; reflexivity | reflexivity]].
Defined.

Lemma scanAlarm_first_wins_witness :
  let main := mkAlarm MAIN_ALARM (utc 400) 0 MESSAGE in
  let reminder := mkAlarm REMINDER_ALARM (utc 300) 0 MESSAGE in
  let event := ev_withAlarms (oneAlarmEvent "alarm-1" MAIN_ALARM (utc 400) 0) [main; reminder] in
  let env := exampleEnv 60 (exampleLookup event) in
  let st := mkScan event invalidDateTime false true main (idleApp (utc 1000)) in
  sc_alarmToExecuteValid (scanAlarm env (utc 1000) reminder st) = true
  /\ sc_alarmToExecute (scanAlarm env (utc 1000) reminder st) = main.
Proof.
  intros main reminder event env st.
  exact (scanAlarm_first_wins env (utc 1000) reminder st eq_refl eq_refl).
Defined.

Lemma handleEvent_within_lateness_witness :
  let event := oneAlarmEvent "alarm-1" MAIN_ALARM (utc 800) 5 in
  let env := exampleEnv 60 (exampleLookup event) in
  handleEvent env "alarm-1" EVENT_HANDLE (idleApp (utc 1000))
  = (true,
     snd (execAlarm env event (mkAlarm MAIN_ALARM (utc 800) 5 MESSAGE) true true false
                    (idleApp (utc 1000)))).
Proof.
  intros event env.
  refine (handleEvent_within_lateness env "alarm-1" EVENT_HANDLE (idleApp (utc 1000))
            event (mkAlarm MAIN_ALARM (utc 800) 5 MESSAGE)
            eq_refl _ eq_refl eq_refl eq_refl eq_refl _).
  - discriminate.
  - split; vm_compute; discriminate.
Defined.

Lemma processQueue_completes_witness :
  let env := bareEnv 60 (fun _ => None) in
  let app := mkApp true false true 3
                   [DcopQEntry_id EVENT_HANDLE "alarm-1"; DcopQEntry_id EVENT_CANCEL "alarm-2"]
                   [] 0 (utc 1000) false [] in
  exited (processQueue env app) = true
  /\ mDcopQueue (processQueue env app) = []
  /\ mProcessingQueue (processQueue env app) = false.
Proof.
  intros env app. split; [vm_compute; reflexivity|].
  exact (processQueue_completes env app eq_refl eq_refl).
Defined.

Lemma exits_only_when_idle_witness :
  let env := bareEnv 60 (fun _ => None) in
  let app := mkApp true false true 3 [DcopQEntry_id EVENT_HANDLE "alarm-1"] [] 0 (utc 1000)
                   false [] in
  exited (processQueue env app) = true
  /\ mDcopQueue (processQueue env app) = []
  /\ mCommandProcesses (processQueue env app) = [].
Proof.
  intros env app.
  assert (E : exited (processQueue env app) = true) by (vm_compute; reflexivity).
  split; [exact E|].
  exact (proj1 (exits_only_when_idle env app eq_refl) E).
Defined.

Lemma dcopHandleEvent_then_processQueue_witness :
  let event := oneAlarmEvent "alarm-1" MAIN_ALARM (utc 400) 0 in
  let env := exampleEnv 60 (exampleLookup event) in
  let app := idleApp (utc 1000) in
  let queued := snd (dcopHandleEvent "alarm-1" EVENT_HANDLE app) in
  let started := emit KAlarm_resetDaemonIfQueued (set_mProcessingQueue true queued) in
  processQueue env queued
  = set_mProcessingQueue false
      (emit Calendar_purgeIfQueued
         (set_mDcopQueue [] (snd (handleEvent env "alarm-1" EVENT_HANDLE started)))).
Proof.
  intros event env app.
  exact (dcopHandleEvent_then_processQueue env "alarm-1" EVENT_HANDLE app
           eq_refl eq_refl eq_refl eq_refl eq_refl eq_refl).
Defined.

Lemma dcopHandleEvent_empty_id_witness :
  let env := exampleEnv 60 (fun _ => None) in
  log (processQueue env (snd (dcopHandleEvent EmptyString EVENT_HANDLE (idleApp (utc 1000)))))
  = [Timer_processQueue; KAlarm_resetDaemonIfQueued;
     KAlarm_addEvent emptyEvent; Calendar_purgeIfQueued].
Proof.
  intros env.
  exact (dcopHandleEvent_empty_id env EmptyString (idleApp (utc 1000))
           eq_refl eq_refl eq_refl eq_refl eq_refl eq_refl).
Defined.



Lemma trackerUnique_invariant_witness :
  let alarm := mkAlarm MAIN_ALARM (utc 400) 0 COMMAND in
  let event := mkEvent "alarm-1" [alarm] 0 false true false false false false
                       EmptyString EmptyString EmptyString "echo hello" false false in
  let env := exampleEnv 60 (exampleLookup event) in
  let pd := mkProcData (mkShellProcess 0 "sleep 5") None event (Some alarm) None 0 [] in
  let app := mkApp true false false 0 [DcopQEntry_id EVENT_HANDLE "alarm-1"] [pd] 1
                   (utc 1000) false [] in
  procIds (mCommandProcesses (processQueue env app)) = [0%nat; 1%nat]
  /\ trackerUnique (processQueue env app).
Proof.
  intros alarm event env pd app. split; [vm_compute; reflexivity|].
  refine (proj1 (trackerUnique_invariant env app _)).
  split.
  - constructor; [intros []|constructor].
  - constructor; [simpl; lia|constructor].
Defined.

Lemma doShellCommand_lookup_witness :
  let event := oneAlarmEvent "alarm-1" MAIN_ALARM (utc 400) 0 in
  let env := exampleEnv 60 (exampleLookup event) in
  let app := idleApp (utc 1000) in
  exists pd,
    findProcess 0 0 (mCommandProcesses (snd (doShellCommand env "echo" event None 0 app)))
    = Some (0%nat, pd)
    /\ pd_process pd = mkShellProcess 0 "echo" /\ pd_event pd = event /\ pd_alarm pd = None
    /\ pd_flags pd = 0.
Proof.
  intros event env app.
  refine (doShellCommand_lookup env "echo" event None 0 app (mkShellProcess 0 "echo") _ eq_refl).
  split; constructor.
Defined.

Lemma doShellCommand_failure_reported_witness :
  let event := oneAlarmEvent "alarm-1" MAIN_ALARM (utc 400) 0 in
  let env := bareEnv 60 (exampleLookup event) in
  let app := idleApp (utc 1000) in
  exists l dt msgs,
    log (snd (doShellCommand env "echo" event None 0 app)) = log app ++ l
    /\ In (MessageWin_showError event dt msgs) l.
Proof.
  intros event env app.
  refine (doShellCommand_failure_reported env "echo" event None 0 app _ eq_refl).
  intros l content fileName H. discriminate H.
Defined.

Lemma execAlarm_displays_or_gates_witness :
  let event := oneAlarmEvent "alarm-1" MAIN_ALARM (utc 400) 0 in
  let alarm := mkAlarm MAIN_ALARM (utc 400) 0 MESSAGE in
  let env := exampleEnv 60 (exampleLookup event) in
  let app := idleApp (utc 1000) in
  fst (execAlarm env event alarm true true false app) = (Exec_done, setArchive event).
Proof.
  intros event alarm env app.
  exact (proj1 (execAlarm_displays_or_gates env event alarm true true false app eq_refl
                  (or_introl eq_refl))).
Defined.

Lemma preAction_round_trip_witness :
  let alarm := mkAlarm MAIN_ALARM (utc 400) 0 MESSAGE in
  let event := mkEvent "alarm-1" [alarm] 0 false true false false false false
                       "pre-action" EmptyString EmptyString EmptyString false false in
  let env := exampleEnv 60 (exampleLookup event) in
  let app := idleApp (utc 1000) in
  let pd := mkProcData (mkShellProcess 0 "pre-action") None (setArchive event) (Some alarm)
                       None (Z.lor (Z.lor RESCHEDULE 0) PRE_ACTION) [] in
  execCalls (log (slotCommandExited env 0 true EmptyString
                    (snd (execAlarm env event alarm true false false app))))
  = [Exec_alarm event alarm true false false;
     Exec_alarm (setArchive event) alarm true false true].
Proof.
  intros alarm event env app pd.
  refine (preAction_round_trip env event alarm true false false app pd EmptyString
            _ eq_refl (or_introl eq_refl) eq_refl).
  split; constructor.
Defined.

Lemma execAlarm_disabled_witness :
  let alarm := mkAlarm MAIN_ALARM (utc 400) 0 MESSAGE in
  let event := mkEvent "alarm-1" [alarm] 0 false false false false false false
                       EmptyString EmptyString EmptyString EmptyString false false in
  let env := exampleEnv 60 (exampleLookup event) in
  let app := idleApp (utc 1000) in
  fst (fst (execAlarm env event alarm true true false app)) = Exec_null
  /\ mCommandProcesses (snd (execAlarm env event alarm true true false app)) = [].
Proof.
  intros alarm event env app.
  destruct (execAlarm_disabled env event alarm true true false app eq_refl)
    as (H1 & H2 & _).
  split; [exact H1 | exact H2].
Defined.

Lemma execAlarm_script_file_error_witness :
  let alarm := mkAlarm MAIN_ALARM (utc 400) 0 COMMAND in
  let event := mkEvent "alarm-1" [alarm] 0 false true false false false false
                       EmptyString EmptyString EmptyString "echo hello" true false in
  let env := bareEnv 60 (exampleLookup event) in
  let app := idleApp (utc 1000) in
  let failure := MessageWin_showError (setArchive event) (utc 400)
                   ["Error creating temporary script file"%string] in
  execAlarm env event alarm false true false app
  = (Exec_null, setArchive event,
     emit failure (emit failure (emit (Exec_alarm event alarm false true false) app))).
Proof.
  intros alarm event env app.
  exact (execAlarm_script_file_error env event alarm true false app
           eq_refl eq_refl eq_refl eq_refl).
Defined.

Lemma commandMessage_then_failure_witness :
  let event := oneAlarmEvent "alarm-1" MAIN_ALARM (utc 400) 0 in
  let env := exampleEnv 60 (exampleLookup event) in
  let pd := mkProcData (mkShellProcess 0 "echo") None event None None 0 [] in
  let app := mkApp true false false 0 [] [pd] 1 (utc 1000) false [] in
  let app' := slotCommandExited env 0 false "exit status 1" (commandMessage 0 7 app) in
  log app'
  = [KMessageBox_closeInfo 7;
     KMessageBox_error 7 (String.append "exit status 1" (String.append nl "echo"));
     Process_delete 0]
  /\ mCommandProcesses app' = [].
Proof.
  intros event env pd app.
  exact (commandMessage_then_failure env 0 7 "exit status 1" app 0 pd
           eq_refl eq_refl eq_refl).
Defined.

Lemma untracked_process_ignored_witness :
  let env := exampleEnv 60 (fun _ => None) in
  let app := idleApp (utc 1000) in
  slotCommandExited env 7 true EmptyString app = app
  /\ commandMessage 7 1 app = app
  /\ slotCommandOutput 7 "output" app = app.
Proof.
  intros env app.
  destruct (untracked_process_ignored env 7 app eq_refl) as (H1 & H2 & H3).
  split; [exact (H1 true EmptyString eq_refl)|]. split; [exact (H2 1%nat) | exact (H3 "output"%string)].
Defined.

Lemma convInterval_negative_witness :
  convInterval decimalUInt "-90" true = Some (true, MINUTELY, 0).
Proof.
  refine (convInterval_negative decimalUInt "9" "0" true _). discriminate.
Defined.

Lemma convInterval_no_month_year_witness :
  convInterval decimalUInt "2W" false = Some (true, WEEKLY, 2)
  /\ (WEEKLY = MINUTELY \/ WEEKLY = DAILY \/ WEEKLY = WEEKLY).
Proof.
  split; [reflexivity|].
  exact (convInterval_no_month_year decimalUInt "2W" WEEKLY 2 eq_refl).
Defined.

Lemma convInterval_hours_minutes_witness :
  convInterval decimalUInt "1H30M" false = Some (true, MINUTELY, 90).
Proof.
  refine (convInterval_hours_minutes decimalUInt "1" "30" false _ eq_refl). discriminate.
Defined.

Lemma newInstance_lateCancel_unit_ignored_witness :
  newInstance_lateCancel decimalUInt "2D" = newInstance_lateCancel decimalUInt "2"
  /\ newInstance_lateCancel decimalUInt "2W" = newInstance_lateCancel decimalUInt "2".
Proof.
  refine (newInstance_lateCancel_unit_ignored decimalUInt EmptyString "2" _ _ _ _ _);
    discriminate.
Defined.

Lemma newInstance_reminder_units_witness :
  newInstance_reminder decimalUInt "--reminder" "2D" false = Some (Reminder_on None 2880)
  /\ newInstance_reminder decimalUInt "--reminder" "2W" false = Some (Reminder_on None 20160)
  /\ newInstance_reminder decimalUInt "--reminder" "2M" false
     = Some (Reminder_stop "Invalid --reminder parameter"%string)
  /\ newInstance_reminder decimalUInt "--reminder" "30" true
     = Some (Reminder_on (Some "Invalid --reminder parameter for date-only alarm"%string) 30).
Proof.
  destruct (newInstance_reminder_units decimalUInt "--reminder" "2" false 2)
    as (H1 & H2 & H3); [discriminate | reflexivity |].
  destruct (newInstance_reminder_units decimalUInt "--reminder" "2" true 2)
    as (_ & _ & H4); [discriminate | reflexivity |].
  split; [exact H1|]. split; [exact H2|]. split.
  - exact (proj1 (H3 "2M"%string MONTHLY_DAY 2 eq_refl) (or_introl eq_refl)).
  - exact (proj2 (H4 "30"%string MINUTELY 30 eq_refl) eq_refl).
Defined.

Lemma trackerWf_invariant_witness :
  let event := oneAlarmEvent "alarm-1" MAIN_ALARM (utc 400) 0 in
  let alarm := mkAlarm MAIN_ALARM (utc 400) 0 MESSAGE in
  let env := exampleEnv 60 (exampleLookup event) in
  let pd := mkProcData (mkShellProcess 0 "echo") None event (Some alarm) None PRE_ACTION [] in
  let app := mkApp true false false 0 [DcopQEntry_id EVENT_HANDLE "alarm-1"] [pd] 1
                   (utc 1000) false [] in
  trackerWf (processQueue env app).
Proof.
  intros event alarm env pd app.
  refine (proj1 (trackerWf_invariant env app _)).
  constructor; [|constructor]. intros _. exists alarm. reflexivity.
Defined.
